(** * Trainalyze: the email classification, extraction and refund pipeline

    A shallow embedding of the pipeline of [app.py] (and of its copy
    [api/index.py], whose pipeline functions are the same text):
    [extract_body], [categorise_email], [extract_data],
    [calculate_refund], [get_claim_deadline] and of [scan] the fetch loop,
    the aggregation (reconciliation against refunds, confidence, sort) and
    the recommendation on the most delayed operator.

    Conventions of the embedding.
    - Python [str] is [string] (8-bit characters); [str.lower] and
      [str.upper] act on the ASCII letters, [\d] and [\s] are the classes
      of the ASCII characters.  All keywords, station names and patterns
      of the source are ASCII.
    - Python [int] is [Z]; [int(s)] of a string of more than 4300 digits
      raises [ValueError].
    - Python [float] is IEEE 754 binary64, as [spec_float] with precision 53
      and maximal exponent 1024, with the operations of [SpecFloat].
    - A dictionary with optional keys ([data], [email_data]) is a record of
      [option] fields; [None] is also Python's [None].
    - A raised exception is the [Raise] case of [result]; [try]/[except]
      is [catch]. *)

From Stdlib Require Import ZArith List Bool Lia Permutation Sorted Ascii String.
From Stdlib Require Import Floats.SpecFloat.
From stdpp Require Import gmap strings list pretty.

Local Open Scope string_scope.
Local Open Scope list_scope.
Local Open Scope Z_scope.

(** ** Exceptions *)

Inductive exn : Type :=
| ValueError
| TypeError
| OverflowError.

Inductive result (A : Type) : Type :=
| Ok (a : A)
| Raise (e : exn).

Arguments Ok {A} a.
Arguments Raise {A} e.

(** Sequencing: the first raised exception ends the computation.  With
    these instances [x ← r; k] is stdpp's notation for it. *)
#[global] Instance result_bind : MBind result :=
  fun A B (k : A -> result B) (r : result A) =>
    match r with
    | Ok a => k a
    | Raise e => Raise e
    end.

#[global] Instance result_ret : MRet result := fun A a => Ok a.

(** [try: r except: h] with a handler that catches everything. *)
Definition catch {A : Type} (r : result A) (h : result A) : result A :=
  match r with
  | Ok a => Ok a
  | Raise _ => h
  end.

(** ** Strings *)

Module Str.

Definition is_upper (c : ascii) : bool :=
  let n := nat_of_ascii c in (65 <=? n)%nat && (n <=? 90)%nat.

Definition is_lower (c : ascii) : bool :=
  let n := nat_of_ascii c in (97 <=? n)%nat && (n <=? 122)%nat.

Definition is_digit (c : ascii) : bool :=
  let n := nat_of_ascii c in (48 <=? n)%nat && (n <=? 57)%nat.

(** Python's [\s] on ASCII text: space, [\t], [\n], [\v], [\f], [\r] and
    the four separators 28 to 31. *)
Definition is_space (c : ascii) : bool :=
  let n := nat_of_ascii c in
  (n =? 32)%nat || ((9 <=? n)%nat && (n <=? 13)%nat) || ((28 <=? n)%nat && (n <=? 31)%nat).

Definition lower_char (c : ascii) : ascii :=
  if is_upper c then ascii_of_nat (nat_of_ascii c + 32) else c.

Definition upper_char (c : ascii) : ascii :=
  if is_lower c then ascii_of_nat (nat_of_ascii c - 32) else c.

Fixpoint map (f : ascii -> ascii) (s : string) : string :=
  match s with
  | EmptyString => EmptyString
  | String c s' => String (f c) (map f s')
  end.

(** [s.lower()] and [s.upper()]. *)
Definition lower (s : string) : string := map lower_char s.
Definition upper (s : string) : string := map upper_char s.

(** [needle in hay]. *)
Fixpoint contains (needle hay : string) : bool :=
  String.prefix needle hay ||
  match hay with
  | EmptyString => false
  | String _ hay' => contains needle hay'
  end.

(** [s[:n]]. *)
Definition take (n : nat) (s : string) : string := String.substring 0 n s.

(** [bool(s)]: the empty string is falsy. *)
Definition truthy (s : string) : bool :=
  match s with
  | EmptyString => false
  | String _ _ => true
  end.

(** [s.replace(c, by)] for a one-character [c]. *)
Fixpoint replace_char (c : ascii) (by_ : string) (s : string) : string :=
  match s with
  | EmptyString => EmptyString
  | String d s' =>
      if Ascii.eqb d c then by_ +:+ replace_char c by_ s'
      else String d (replace_char c by_ s')
  end.

End Str.

(** [any(kw in text for kw in kws)]. *)
Definition any_in (kws : list string) (text : string) : bool :=
  existsb (fun kw => Str.contains kw text) kws.

(** ** Floats: IEEE 754 binary64 *)

Definition float : Type := spec_float.

Module F64.

Definition prec : Z := 53.
Definition emax : Z := 1024.

Definition mul : float -> float -> float := SFmul prec emax.
Definition neg : float -> float := SFopp.
Definition eqb : float -> float -> bool := SFeqb.
Definition ltb : float -> float -> bool := SFltb.

Definition is_nan (x : float) : bool :=
  match x with
  | S754_nan => true
  | _ => false
  end.

Definition zero : float := S754_zero false.

(** The double nearest to [n / d] (ties to even), with sign [s]: the
    correctly rounded quotient of two positive integers. *)
Definition of_quotient (s : bool) (n d : positive) : float :=
  let '(q, e, l) := SFdiv_core_binary prec emax (Zpos n) 0 (Zpos d) 0 in
  binary_round_aux prec emax s q e l.

(** [float(n)] for an [int] within range, and an [int] operand of a float
    operation. *)
Definition of_Z (n : Z) : float := binary_normalize prec emax n 0 false.

(** A decimal literal [digits * 10^-places], as the parser rounds it. *)
Definition of_decimal (digits : Z) (places : nat) : float :=
  match digits with
  | Z0 => S754_zero false
  | Zpos p => of_quotient false p (Z.to_pos (10 ^ Z.of_nat places))
  | Zneg p => of_quotient true p (Z.to_pos (10 ^ Z.of_nat places))
  end.

(** [bool(x)]: only the zeros are falsy. *)
Definition truthy (x : float) : bool := negb (eqb x zero).

(** [int(x)]: truncation towards zero. *)
Definition to_int (x : float) : result Z :=
  match x with
  | S754_zero _ => Ok 0
  | S754_infinity _ => Raise OverflowError
  | S754_nan => Raise ValueError
  | S754_finite s m e =>
      let a := match e with
               | Zneg k => Z.shiftr (Zpos m) (Zpos k)
               | _ => Z.shiftl (Zpos m) e
               end in
      Ok (if s then - a else a)
  end.

(** The integer nearest to [m * 2^e * 100], ties to even. *)
Definition hundredths (m : positive) (e : Z) : Z :=
  match e with
  | Zneg k =>
      let d := Z.pow 2 (Zpos k) in
      let q := (Zpos m * 100) / d in
      let r := (Zpos m * 100) mod d in
      match 2 * r ?= d with
      | Lt => q
      | Gt => q + 1
      | Eq => if Z.even q then q else q + 1
      end
  | _ => Z.shiftl (Zpos m * 100) e
  end.

(** [round(x, 2)]: the exact value of [x] is rounded to the nearest
    multiple of 1/100 (ties to even), and that decimal is read back as the
    nearest double.  Infinities and NaN round to themselves. *)
Definition round2 (x : float) : float :=
  match x with
  | S754_finite s m e =>
      match hundredths m e with
      | Zpos n => of_quotient s n 100
      | _ => S754_zero s
      end
  | _ => x
  end.

(** [a / b] on two [int]s (true division), correctly rounded. *)
Definition int_truediv (a b : Z) : float :=
  match a, b with
  | Zpos n, Zpos d => of_quotient false n d
  | Zneg n, Zneg d => of_quotient false n d
  | Zpos n, Zneg d => of_quotient true n d
  | Zneg n, Zpos d => of_quotient true n d
  | _, _ => S754_zero false
  end.

End F64.

(** ** Sorting

    [sorted] and [list.sort] are stable; with the comparison [ltb] of the
    keys a strict weak order, the stable sorted arrangement is unique, and
    insertion from the right computes it. *)

Section StableSort.
Context {A : Type}.
Variable ltb : A -> A -> bool.

Fixpoint insert_sorted (x : A) (l : list A) : list A :=
  match l with
  | [] => [x]
  | y :: l' => if ltb y x then y :: insert_sorted x l' else x :: y :: l'
  end.

Fixpoint stable_sort (l : list A) : list A :=
  match l with
  | [] => []
  | x :: l' => insert_sorted x (stable_sort l')
  end.

(** [x] is not after [y] in the order: [y < x] is false. *)
Definition not_after (x y : A) : Prop := ltb y x = false.

(** Neither is less than the other. *)
Definition equivb (x y : A) : bool := negb (ltb x y) && negb (ltb y x).

End StableSort.

(** ** Configuration tables *)

Definition pct_25 : float := F64.of_decimal 25 2.
Definition pct_50 : float := F64.of_decimal 50 2.
Definition pct_100 : float := F64.of_decimal 100 2.

Definition DELAY_REPAY_SCHEMES : gmap string (gmap Z float) :=
  <["standard" := <[15 := pct_25]> (<[30 := pct_50]> (<[60 := pct_100]> ∅))]>
  (<["delay_repay_15" :=
       <[15 := pct_25]> (<[30 := pct_50]> (<[60 := pct_100]> (<[120 := pct_100]> ∅)))]>
  (<["tfl" := <[15 := pct_100]> ∅]> ∅)).

Definition DR15_OPERATORS : list string :=
  ["LNER"; "Avanti West Coast"; "Great Western Railway"; "GWR"; "c2c";
   "Greater Anglia"; "Southeastern"; "TransPennine Express";
   "East Midlands Railway"; "Chiltern Railways"; "CrossCountry"].

Definition CLAIM_DEADLINES : gmap string Z :=
  <["default" := 28]> (<["LNER" := 28]> (<["Avanti West Coast" := 28]>
  (<["Great Western Railway" := 28]> (<["GWR" := 28]> (<["TfL" := 28]>
  (<["National Express" := 30]> ∅)))))).

Definition UK_STATIONS : list string :=
  ["London Euston"; "London Kings Cross"; "London St Pancras"; "London Paddington";
   "London Victoria"; "London Waterloo"; "London Liverpool Street"; "London Bridge";
   "Manchester Piccadilly"; "Birmingham New Street"; "Leeds"; "Glasgow Central";
   "Edinburgh Waverley"; "Bristol Temple Meads"; "Liverpool Lime Street"; "Newcastle";
   "Sheffield"; "Nottingham"; "Leicester"; "Cambridge"; "Oxford"; "Brighton"; "Reading";
   "Cardiff Central"; "York"; "Peterborough"; "Milton Keynes"; "Crewe"; "Preston"].

(** ** Refund calculator *)

(** [sorted(scheme.items(), reverse=True)].  The items are (threshold,
    percentage) tuples; the thresholds of a dictionary are distinct, so the
    tuple order is the order of the thresholds. *)
Definition items_desc (scheme : gmap Z float) : list (Z * float) :=
  stable_sort (fun a b => fst b <? fst a) (map_to_list scheme).

(** The [for threshold, pct in ...] loop of [calculate_refund]. *)
Fixpoint refund_loop (items : list (Z * float)) (delay_mins : Z) (price : float)
  : result (option float * option Z) :=
  match items with
  | [] => Ok (None, None)
  | (threshold, pct) :: rest =>
      if threshold <=? delay_mins then
        let amount := F64.round2 (F64.mul price pct) in
        pct_int ← F64.to_int (F64.mul pct (F64.of_Z 100));
        Ok (Some amount, Some pct_int)
      else refund_loop rest delay_mins price
  end.

(** [operator in DR15_OPERATORS]; an absent operator is in no list. *)
Definition operator_in (operator : option string) (l : list string) : bool :=
  match operator with
  | Some o => bool_decide (o ∈ l)
  | None => false
  end.

Definition select_scheme (operator : option string) : gmap Z float :=
  if bool_decide (operator = Some "TfL") then DELAY_REPAY_SCHEMES !!! "tfl"
  else if operator_in operator DR15_OPERATORS then DELAY_REPAY_SCHEMES !!! "delay_repay_15"
  else DELAY_REPAY_SCHEMES !!! "standard".

(** [not delay_mins] and [not price]: absent and zero are both falsy. *)
Definition int_truthy (x : option Z) : bool :=
  match x with
  | Some n => negb (n =? 0)
  | None => false
  end.

Definition float_truthy (x : option float) : bool :=
  match x with
  | Some p => F64.truthy p
  | None => false
  end.

Definition calculate_refund (delay_mins : option Z) (price : option float)
    (operator : option string) : result (option float * option Z) :=
  if negb (int_truthy delay_mins) || negb (float_truthy price) then Ok (None, None)
  else
    match delay_mins, price with
    | Some d, Some p => refund_loop (items_desc (select_scheme operator)) d p
    | _, _ => Ok (None, None)     (* not reached: both are truthy *)
    end.

(** The three schemes in the words of the specification: the percentage
    paid from each threshold (in minutes) on. *)
Definition spec_tiers_tfl : list (Z * float) := [(15, pct_100)].
Definition spec_tiers_dr15 : list (Z * float) :=
  [(15, pct_25); (30, pct_50); (60, pct_100); (120, pct_100)].
Definition spec_tiers_standard : list (Z * float) :=
  [(15, pct_25); (30, pct_50); (60, pct_100)].

Definition spec_tiers (operator : option string) : list (Z * float) :=
  if bool_decide (operator = Some "TfL") then spec_tiers_tfl
  else if operator_in operator DR15_OPERATORS then spec_tiers_dr15
  else spec_tiers_standard.

(** A double as Python holds it: a canonical binary64 value. *)
Definition is_double (x : float) : Prop :=
  valid_binary F64.prec F64.emax x = true.

(** ** Email classifier *)

Inductive category : Type :=
| DelayClaim
| Refund
| Cancellation
| Delay
| Booking
| Statement
| Receipt
| Other.

#[global] Instance category_eq_dec : EqDecision category.
Proof. solve_decision. Defined.

Definition categorise_email (subject body sender : string) : category :=
  let text := Str.lower (subject +:+ " " +:+ body) in
  if any_in ["delay repay"; "compensation claim"; "your claim"; "delay compensation"] text
  then DelayClaim
  else if any_in ["refund"; "money back"; "reimbursement"; "credited"] text
  then Refund
  else if any_in ["cancelled"; "cancellation"; "service disruption"; "not running"] text
  then Cancellation
  else if any_in ["delayed"; "delay"; "late"; "disruption"] text
  then Delay
  else if any_in ["booking confirmation"; "e-ticket"; "your ticket"; "booking reference"] text
  then Booking
  else if any_in ["journey history"; "oyster statement"; "contactless statement"] text
  then Statement
  else if any_in ["receipt"; "payment"; "invoice"] text
  then Receipt
  else Other.

(** The classifier in the words of the specification: the seven keyword
    sets as an ordered sequence, the first set with a keyword in the text
    gives the category, [Other] when none has one. *)
Definition KEYWORD_SETS : list (category * list string) :=
  [ (DelayClaim, ["delay repay"; "compensation claim"; "your claim"; "delay compensation"]);
    (Refund, ["refund"; "money back"; "reimbursement"; "credited"]);
    (Cancellation, ["cancelled"; "cancellation"; "service disruption"; "not running"]);
    (Delay, ["delayed"; "delay"; "late"; "disruption"]);
    (Booking, ["booking confirmation"; "e-ticket"; "your ticket"; "booking reference"]);
    (Statement, ["journey history"; "oyster statement"; "contactless statement"]);
    (Receipt, ["receipt"; "payment"; "invoice"]) ].

Fixpoint spec_classify (sets : list (category * list string)) (text : string) : category :=
  match sets with
  | [] => Other
  | (cat, kws) :: rest => if any_in kws text then cat else spec_classify rest text
  end.

(** [kw] occurs in [text] as a substring. *)
Definition occurs (kw text : string) : Prop :=
  exists pre post, text = pre +:+ kw +:+ post.

(** ** Station and route extraction (the station block of [extract_data]) *)

(** The [for station in UK_STATIONS] loop: the stations found, in the
    order of the gazetteer. *)
Definition found_stations (text : string) : list string :=
  List.filter (fun station => Str.contains (Str.lower station) (Str.lower text))
    UK_STATIONS.

(** The keys [origin] and [destination] of [data]. *)
Definition extract_route (subject body : string) : option string * option string :=
  let text := subject +:+ " " +:+ body in
  match found_stations text with
  | first :: second :: _ => (Some first, Some second)
  | [first] => (Some first, None)
  | [] => (None, None)
  end.

(** Case-insensitive occurrence, as [station.lower() in text.lower()]. *)
Definition occurs_nocase (name text : string) : Prop :=
  occurs (Str.lower name) (Str.lower text).

(** ** Regular expressions

    The patterns of the source are matched by [re], a backtracking matcher:
    alternatives are tried from the left, [*], [+] and [?] are greedy, and
    the match reported is the first one found in that order.  [matches r s
    caps] lists the outcomes of matching [r] at the start of [s] in the
    order in which backtracking reaches them: the input left over and the
    groups captured. *)

Module Re.

Inductive regex : Type :=
| Eps                                (* the empty pattern *)
| Chr (p : ascii -> bool)            (* one character of a class *)
| Cat (r1 r2 : regex)                (* r1 r2 *)
| Alt (r1 r2 : regex)                (* r1|r2 *)
| Star (r : regex)                   (* r*, greedy *)
| Group (n : nat) (r : regex).       (* the capturing group number n *)

Definition captures : Type := list (nat * string).

(** What [r] consumed: the prefix of [s] up to the rest [rest]. *)
Definition consumed (s rest : string) : string :=
  String.substring 0 (String.length s - String.length rest) s.

Fixpoint matches (r : regex) (s : string) (caps : captures) : list (string * captures) :=
  match r with
  | Eps => [(s, caps)]
  | Chr p =>
      match s with
      | String c s' => if p c then [(s', caps)] else []
      | EmptyString => []
      end
  | Cat r1 r2 =>
      flat_map (fun '(s1, c1) => matches r2 s1 c1) (matches r1 s caps)
  | Alt r1 r2 => matches r1 s caps ++ matches r2 s caps
  | Star r' =>
      (fix star (fuel : nat) (s : string) (caps : captures) : list (string * captures) :=
         match fuel with
         | O => [(s, caps)]
         | S fuel' =>
             flat_map (fun '(s1, c1) =>
                         if (String.length s1 <? String.length s)%nat
                         then star fuel' s1 c1 else [])
                      (matches r' s caps)
             ++ [(s, caps)]
         end) (String.length s) s caps
  | Group n r' =>
      List.map (fun '(s1, c1) => (s1, (n, consumed s s1) :: c1)) (matches r' s caps)
  end.

(** [m.group(n)]; the last capture of the group. *)
Fixpoint group (n : nat) (caps : captures) : option string :=
  match caps with
  | [] => None
  | (k, v) :: rest => if (k =? n)%nat then Some v else group n rest
  end.

(** [re.search(r, s)]: the first match at the leftmost position that has
    one; [m.group(0)] and the captures. *)
Fixpoint search (r : regex) (s : string) : option (string * captures) :=
  match matches r s [] with
  | (rest, caps) :: _ => Some (consumed s rest, caps)
  | [] =>
      match s with
      | EmptyString => None
      | String _ s' => search r s'
      end
  end.

(** [r.match(s)]: the first match at the start of [s]; the rest of the
    input and the captures. *)
Definition match_start (r : regex) (s : string) : option (string * captures) :=
  match matches r s [] with
  | o :: _ => Some o
  | [] => None
  end.

(** Pattern syntax. *)
Definition Plus (r : regex) : regex := Cat r (Star r).           (* r+ *)
Definition Opt (r : regex) : regex := Alt r Eps.                 (* r? *)
Definition digit : regex := Chr Str.is_digit.                    (* \d *)
Definition space : regex := Chr Str.is_space.                    (* \s *)
Definition any_char : regex := Chr (fun _ => true).

(** A literal character and a literal word under [re.IGNORECASE]. *)
Definition ichar (c : ascii) : regex :=
  Chr (fun d => Ascii.eqb (Str.lower_char d) (Str.lower_char c)).

Fixpoint iword (w : string) : regex :=
  match w with
  | EmptyString => Eps
  | String c w' => Cat (ichar c) (iword w')
  end.

(** A literal character, case-sensitive. *)
Definition char (c : ascii) : regex := Chr (Ascii.eqb c).

Fixpoint alts (rs : list regex) : regex :=
  match rs with
  | [] => Chr (fun _ => false)
  | [r] => r
  | r :: rs' => Alt r (alts rs')
  end.

Fixpoint seq (rs : list regex) : regex :=
  match rs with
  | [] => Eps
  | r :: rs' => Cat r (seq rs')
  end.

(** [r{n}], and [r{0,n}] and [r{m,n}], greedy. *)
Fixpoint repeat (n : nat) (r : regex) : regex :=
  match n with
  | O => Eps
  | S n' => Cat r (repeat n' r)
  end.

Fixpoint upto (n : nat) (r : regex) : regex :=
  match n with
  | O => Eps
  | S n' => Opt (Cat r (upto n' r))
  end.

Definition repeat_range (m n : nat) (r : regex) : regex :=
  Cat (repeat m r) (upto (n - m) r).

End Re.

(** The value of [int(s)] on a string of ASCII digits, where [int]
    returns: it raises [ValueError] for more than 4300 digits, which the
    delay block, the one place that reads a number of any length, has as
    [delay_read]. *)
Definition int_of_digits (s : string) : Z :=
  (fix go (acc : Z) (s : string) : Z :=
     match s with
     | EmptyString => acc
     | String c s' => go (10 * acc + (Z.of_nat (nat_of_ascii c) - 48)) s'
     end) 0 s.

(** ** Delay duration (the delay block of [extract_data]) *)

(** [(\d+)\s*(?:minute|min|hour|hr)s?\s*(?:late|delay)], [re.IGNORECASE]. *)
Definition delay_pattern : Re.regex :=
  Re.seq [ Re.Group 1 (Re.Plus Re.digit);
           Re.Star Re.space;
           Re.alts [Re.iword "minute"; Re.iword "min"; Re.iword "hour"; Re.iword "hr"];
           Re.Opt (Re.ichar "s");
           Re.Star Re.space;
           Re.alts [Re.iword "late"; Re.iword "delay"] ].

(** The key [delay_mins] of [data]. *)
Definition extract_delay_mins (subject body : string) : option Z :=
  let text := subject +:+ " " +:+ body in
  match Re.search delay_pattern text with
  | Some (group0, caps) =>
      let delay := int_of_digits (default "" (Re.group 1 caps)) in
      if Str.contains "hour" (Str.lower group0) then Some (delay * 60) else Some delay
  | None => None
  end.

(** ** Field extractor ([extract_data])

    Text is a string of bytes, UTF-8 for what is not ASCII: the pound sign
    of the price patterns is the two bytes 194, 163. *)

Module Data.

(** The dictionary [data]: a key that is not set is [None]. *)
Record t : Type := mk {
  booking_ref : option string;
  price : option float;
  journey_date : option string;
  delay_mins : option Z;
  origin : option string;
  destination : option string;
  operator : option string
}.

End Data.

(** The pattern classes. *)
Definition alnum : Re.regex :=               (* [A-Z0-9], ignoring case *)
  Re.Chr (fun c => Str.is_upper c || Str.is_lower c || Str.is_digit c).
Definition letter : Re.regex :=              (* [A-Z] and [a-z], ignoring case *)
  Re.Chr (fun c => Str.is_upper c || Str.is_lower c).
Definition label_sep : Re.regex :=           (* [:\s#] *)
  Re.Chr (fun c => Ascii.eqb c ":" || Str.is_space c || Ascii.eqb c "#").
Definition colon_space : Re.regex :=         (* [:\s] *)
  Re.Chr (fun c => Ascii.eqb c ":" || Str.is_space c).
Definition slash_dash : Re.regex :=          (* [\/\-] *)
  Re.Chr (fun c => Ascii.eqb c "/" || Ascii.eqb c "-").
Definition pound : Re.regex :=               (* [£] *)
  Re.Cat (Re.char (ascii_of_nat 194)) (Re.char (ascii_of_nat 163)).

Definition ref_patterns : list Re.regex :=
  [ (* (?:booking|reference|confirmation)[:\s#]*([A-Z0-9]{6,10}) *)
    Re.seq [ Re.alts [Re.iword "booking"; Re.iword "reference"; Re.iword "confirmation"];
             Re.Star label_sep;
             Re.Group 1 (Re.repeat_range 6 10 alnum) ];
    (* (?:ref|order)[:\s#]*([A-Z0-9]{6,10}) *)
    Re.seq [ Re.alts [Re.iword "ref"; Re.iword "order"];
             Re.Star label_sep;
             Re.Group 1 (Re.repeat_range 6 10 alnum) ];
    (* ([A-Z]{2,3}[0-9]{6,8}) *)
    Re.Group 1 (Re.Cat (Re.repeat_range 2 3 letter) (Re.repeat_range 6 8 Re.digit)) ].

(** [\d+\.?\d*] *)
Definition decimal_number : Re.regex :=
  Re.seq [Re.Plus Re.digit; Re.Opt (Re.char "."); Re.Star Re.digit].

Definition price_patterns : list Re.regex :=
  [ (* (?:total|price|cost|paid|amount)[:\s]*[£], then the number as group 1 *)
    Re.seq [ Re.alts [Re.iword "total"; Re.iword "price"; Re.iword "cost";
                      Re.iword "paid"; Re.iword "amount"];
             Re.Star colon_space; pound; Re.Group 1 decimal_number ];
    (* [£], then the number as group 1 *)
    Re.Cat pound (Re.Group 1 decimal_number) ].

Definition date_patterns : list Re.regex :=
  [ (* (?:travel|journey|depart|departure)[:\s]*(\d{1,2}[\/\-]\d{1,2}[\/\-]\d{2,4}) *)
    Re.seq [ Re.alts [Re.iword "travel"; Re.iword "journey"; Re.iword "depart";
                      Re.iword "departure"];
             Re.Star colon_space;
             Re.Group 1 (Re.seq [ Re.repeat_range 1 2 Re.digit; slash_dash;
                                  Re.repeat_range 1 2 Re.digit; slash_dash;
                                  Re.repeat_range 2 4 Re.digit ]) ];
    (* (\d{1,2}\s+(?:Jan|Feb|...|Dec)[a-z]*\s+\d{2,4}) *)
    Re.Group 1 (Re.seq [ Re.repeat_range 1 2 Re.digit; Re.Plus Re.space;
                         Re.alts (List.map Re.iword
                                    ["Jan"; "Feb"; "Mar"; "Apr"; "May"; "Jun";
                                     "Jul"; "Aug"; "Sep"; "Oct"; "Nov"; "Dec"]);
                         Re.Star letter; Re.Plus Re.space;
                         Re.repeat_range 2 4 Re.digit ]) ].

(** The [for pattern in patterns] loops: group 1 of the first pattern that
    matches somewhere in the text. *)
Fixpoint first_group (patterns : list Re.regex) (text : string) : option string :=
  match patterns with
  | [] => None
  | pattern :: rest =>
      match Re.search pattern text with
      | Some (_, caps) => Some (default "" (Re.group 1 caps))
      | None => first_group rest text
      end
  end.

(** [float(s)] for [s] matched by [\d+\.?\d*]: the nearest double.  The
    digits are read as an integer, with the number of those after the
    point. *)
Fixpoint read_decimal (digits : Z) (places : nat) (seen_point : bool) (s : string)
  : float :=
  match s with
  | EmptyString => F64.of_decimal digits places
  | String c s' =>
      if Ascii.eqb c "." then read_decimal digits places true s'
      else read_decimal (10 * digits + (Z.of_nat (nat_of_ascii c) - 48))
                        (if seen_point then S places else places) seen_point s'
  end.

Definition float_of_decimal_string (s : string) : float :=
  read_decimal 0 0 false s.

Definition OPERATOR_MAP : list (string * string) :=
  [ ("trainline", "Trainline"); ("lner", "LNER"); ("gwr", "GWR");
    ("avanti", "Avanti West Coast"); ("tpexpress", "TransPennine Express");
    ("southern", "Southern"); ("southeastern", "Southeastern"); ("c2c", "c2c");
    ("crosscountry", "CrossCountry"); ("northern", "Northern");
    ("scotrail", "ScotRail"); ("chiltern", "Chiltern Railways");
    ("eastmidlands", "East Midlands Railway"); ("greateranglia", "Greater Anglia");
    ("tfl", "TfL"); ("nationalexpress", "National Express"); ("megabus", "Megabus");
    ("eurostar", "Eurostar"); ("heathrow", "Heathrow Express") ].

(** The [for key, name in OPERATOR_MAP.items()] loop, in the order of the
    dictionary. *)
Definition detect_operator (sender : string) : option string :=
  snd <$> List.find (fun '(key, _) => Str.contains key (Str.lower sender)) OPERATOR_MAP.

Definition extract_data (subject body sender : string) : Data.t :=
  let text := subject +:+ " " +:+ body in
  let route := extract_route subject body in
  Data.mk (Str.upper <$> first_group ref_patterns text)
          (float_of_decimal_string <$> first_group price_patterns text)
          (first_group date_patterns text)
          (extract_delay_mins subject body)
          (fst route) (snd route)
          (detect_operator sender).

(** ** Dates and times

    The part of Python's [datetime] that [get_claim_deadline] uses, after
    the library's own definitions: the proleptic Gregorian calendar with
    years 1 to 9999, naive and aware values, [strptime] with the C locale,
    [fromisoformat] with the format
    [YYYY-MM-DD[*HH[:MM[:SS[.fff[fff]]]][+HH:MM[:SS[.ffffff]]]]]. *)

Module Dt.

Record civil : Type := mk_civil {
  year : Z; month : Z; day : Z;
  hour : Z; minute : Z; second : Z; microsecond : Z
}.

(** [tzinfo] is the offset from UTC in microseconds; [None] for a naive
    value. *)
Record datetime : Type := mk_datetime {
  local : civil;
  tzinfo : option Z
}.

Definition is_leap (y : Z) : bool :=
  (y mod 4 =? 0) && (negb (y mod 100 =? 0) || (y mod 400 =? 0)).

Definition days_before_year (y : Z) : Z :=
  let y' := y - 1 in y' * 365 + y' / 4 - y' / 100 + y' / 400.

Definition DAYS_IN_MONTH : list Z :=
  [-1; 31; 28; 31; 30; 31; 30; 31; 31; 30; 31; 30; 31].

Definition DAYS_BEFORE_MONTH : list Z :=
  [-1; 0; 31; 59; 90; 120; 151; 181; 212; 243; 273; 304; 334].

Definition days_in_month (y m : Z) : Z :=
  if (m =? 2) && is_leap y then 29 else nth (Z.to_nat m) DAYS_IN_MONTH 0.

Definition days_before_month (y m : Z) : Z :=
  nth (Z.to_nat m) DAYS_BEFORE_MONTH 0 + (if (2 <? m) && is_leap y then 1 else 0).

(** [date.toordinal()]: 1 for the first of January of the year 1. *)
Definition ymd2ord (y m d : Z) : Z :=
  days_before_year y + days_before_month y m + d.

Definition DI400Y : Z := 146097.
Definition DI100Y : Z := 36524.
Definition DI4Y : Z := 1461.
Definition MAXORDINAL : Z := 3652059.

(** [date.fromordinal(n)]. *)
Definition ord2ymd (n : Z) : Z * Z * Z :=
  let n := n - 1 in
  let n400 := n / DI400Y in let n := n mod DI400Y in
  let y := n400 * 400 + 1 in
  let n100 := n / DI100Y in let n := n mod DI100Y in
  let n4 := n / DI4Y in let n := n mod DI4Y in
  let n1 := n / 365 in let n := n mod 365 in
  let y := y + n100 * 100 + n4 * 4 + n1 in
  if (n1 =? 4) || (n100 =? 4) then (y - 1, 12, 31)
  else
    let leapyear := (n1 =? 3) && (negb (n4 =? 24) || (n100 =? 3)) in
    let m := Z.shiftr (n + 50) 5 in
    let preceding :=
      nth (Z.to_nat m) DAYS_BEFORE_MONTH 0 + (if (2 <? m) && leapyear then 1 else 0) in
    if n <? preceding then
      let m := m - 1 in
      let preceding :=
        preceding - (nth (Z.to_nat m) DAYS_IN_MONTH 0
                     + (if (m =? 2) && leapyear then 1 else 0)) in
      (y, m, n - preceding + 1)
    else (y, m, n - preceding + 1).

Definition between (lo x hi : Z) : bool := (lo <=? x) && (x <=? hi).

(** The constructor [datetime(year, month, day, hour, minute, second,
    microsecond, tzinfo)] with its range checks. *)
Definition make (y m d hh mm ss us : Z) (tz : option Z) : result datetime :=
  if between 1 y 9999 && between 1 m 12 && between 1 d (days_in_month y m)
     && between 0 hh 23 && between 0 mm 59 && between 0 ss 59
     && between 0 us 999999
  then Ok (mk_datetime (mk_civil y m d hh mm ss us) tz)
  else Raise ValueError.

(** [t + timedelta(days=n)]. *)
Definition add_days (t : datetime) (n : Z) : result datetime :=
  let c := local t in
  let o := ymd2ord (year c) (month c) (day c) + n in
  if (0 <? o) && (o <=? MAXORDINAL) then
    let '(y, m, d) := ord2ymd o in
    Ok (mk_datetime (mk_civil y m d (hour c) (minute c) (second c) (microsecond c))
                    (tzinfo t))
  else Raise OverflowError.

Definition fields (c : civil) : list Z :=
  [year c; month c; day c; hour c; minute c; second c; microsecond c].

Fixpoint lex_gtb (a b : list Z) : bool :=
  match a, b with
  | x :: a', y :: b' => (y <? x) || ((x =? y) && lex_gtb a' b')
  | _ :: _, [] => true
  | [], _ => false
  end.

(** Microseconds since the start of the day before the year 1. *)
Definition micros (c : civil) : Z :=
  (((ymd2ord (year c) (month c) (day c) * 24 + hour c) * 60 + minute c) * 60
   + second c) * 1000000 + microsecond c.

(** [a > b]: two naive values compare field by field, two aware values
    compare as instants, a naive and an aware value do not compare. *)
Definition gt (a b : datetime) : result bool :=
  match tzinfo a, tzinfo b with
  | None, None => Ok (lex_gtb (fields (local a)) (fields (local b)))
  | Some oa, Some ob => Ok (micros (local b) - ob <? micros (local a) - oa)
  | _, _ => Raise TypeError
  end.

(** [datetime.now()]: the reading of the local clock, naive. *)
Definition now (clock : civil) : datetime := mk_datetime clock None.

Definition digit_char (n : Z) : ascii := ascii_of_nat (48 + Z.to_nat (n mod 10)).

(** [t.strftime('%Y-%m-%d')], the year in four digits: this is what every
    C library writes for the years from 1000 on. *)
Definition strftime_ymd (t : datetime) : string :=
  let c := local t in
  let y := year c in let m := month c in let d := day c in
  String (digit_char (y / 1000)) (String (digit_char (y / 100))
  (String (digit_char (y / 10)) (String (digit_char y)
  (String "-" (String (digit_char (m / 10)) (String (digit_char m)
  (String "-" (String (digit_char (d / 10)) (String (digit_char d) ""))))))))).

(** *** [strptime] *)

Inductive directive : Type :=
| D_d                  (* %d *)
| D_m                  (* %m *)
| D_Y                  (* %Y *)
| D_b                  (* %b *)
| D_B                  (* %B *)
| D_ws                 (* white space in the format *)
| D_lit (c : ascii).   (* any other character *)

Definition MONTH_ABBR : list string :=
  ["jan"; "feb"; "mar"; "apr"; "may"; "jun"; "jul"; "aug"; "sep"; "oct"; "nov"; "dec"].

Definition MONTH_NAME : list string :=
  ["january"; "february"; "march"; "april"; "may"; "june"; "july"; "august";
   "september"; "october"; "november"; "december"].

(** The names as the pattern lists them: longest first. *)
Definition MONTH_NAME_BY_LENGTH : list string :=
  ["september"; "february"; "november"; "december"; "january"; "october";
   "august"; "march"; "april"; "june"; "july"; "may"].

Definition range (lo hi : ascii) : Re.regex :=
  Re.Chr (fun c => (nat_of_ascii lo <=? nat_of_ascii c)%nat
                   && (nat_of_ascii c <=? nat_of_ascii hi)%nat).

(** The groups: 1 for the day, 2 for the numeric month, 3 for the year, 4
    and 5 for the abbreviated and the full month name. *)
Definition directive_regex (d : directive) : Re.regex :=
  match d with
  | D_d =>                      (* 3[0-1]|[1-2]\d|0[1-9]|[1-9]| [1-9] *)
      Re.Group 1 (Re.alts [ Re.Cat (Re.char "3") (range "0" "1");
                            Re.Cat (range "1" "2") Re.digit;
                            Re.Cat (Re.char "0") (range "1" "9");
                            range "1" "9";
                            Re.Cat (Re.char " ") (range "1" "9") ])
  | D_m =>                      (* 1[0-2]|0[1-9]|[1-9] *)
      Re.Group 2 (Re.alts [ Re.Cat (Re.char "1") (range "0" "2");
                            Re.Cat (Re.char "0") (range "1" "9");
                            range "1" "9" ])
  | D_Y =>                      (* \d\d\d\d *)
      Re.Group 3 (Re.seq [Re.digit; Re.digit; Re.digit; Re.digit])
  | D_b => Re.Group 4 (Re.alts (List.map Re.iword MONTH_ABBR))
  | D_B => Re.Group 5 (Re.alts (List.map Re.iword MONTH_NAME_BY_LENGTH))
  | D_ws => Re.Plus Re.space    (* \s+ *)
  | D_lit c => Re.ichar c
  end.

Definition format_regex (fmt : list directive) : Re.regex :=
  Re.seq (List.map directive_regex fmt).

(** [names.index(s)], from 1. *)
Fixpoint index_from (k : Z) (s : string) (names : list string) : option Z :=
  match names with
  | [] => None
  | n :: rest => if String.eqb n s then Some k else index_from (k + 1) s rest
  end.

(** [int(s)] of a day: a leading space is skipped. *)
Definition int_of_day (s : string) : Z :=
  match s with
  | String " " s' => int_of_digits s'
  | _ => int_of_digits s
  end.

(** [datetime.strptime(data, fmt)]: the pattern of the format has to match
    at the start of [data] and to leave nothing over; fields the format
    lacks default to 1900-01-01. *)
Definition strptime (data : string) (fmt : list directive) : result datetime :=
  match Re.match_start (format_regex fmt) data with
  | None => Raise ValueError
  | Some (rest, caps) =>
      if Str.truthy rest then Raise ValueError
      else
        let y := default 1900 (int_of_digits <$> Re.group 3 caps) in
        let d := default 1 (int_of_day <$> Re.group 1 caps) in
        let m :=
          match Re.group 2 caps, Re.group 4 caps, Re.group 5 caps with
          | Some s, _, _ => int_of_digits s
          | None, Some s, _ => default 1 (index_from 1 (Str.lower s) MONTH_ABBR)
          | None, None, Some s => default 1 (index_from 1 (Str.lower s) MONTH_NAME)
          | None, None, None => 1
          end in
        make y m d 0 0 0 0 None
  end.

(** *** [fromisoformat] *)

Definition two_digits : Re.regex := Re.Cat Re.digit Re.digit.
Definition three_digits : Re.regex := Re.Cat Re.digit two_digits.

Definition iso_pattern : Re.regex :=
  Re.seq
    [ Re.Group 1 (Re.Cat two_digits two_digits); Re.char "-";
      Re.Group 2 two_digits; Re.char "-"; Re.Group 3 two_digits;
      Re.Opt (Re.seq
        [ Re.any_char;
          Re.Group 4 two_digits;
          Re.Opt (Re.seq
            [ Re.char ":"; Re.Group 5 two_digits;
              Re.Opt (Re.seq
                [ Re.char ":"; Re.Group 6 two_digits;
                  Re.Opt (Re.seq
                    [ Re.char ".";
                      Re.Group 7 (Re.Cat three_digits (Re.Opt three_digits)) ]) ]) ]);
          Re.Opt (Re.seq
            [ Re.Group 8 (Re.Alt (Re.char "+") (Re.char "-"));
              Re.Group 9 two_digits; Re.char ":"; Re.Group 10 two_digits;
              Re.Opt (Re.seq
                [ Re.char ":"; Re.Group 11 two_digits;
                  Re.Opt (Re.seq
                    [ Re.char "."; Re.Group 12 (Re.Cat three_digits three_digits) ]) ]) ]) ]) ].

(** The first way to match the whole of [s]. *)
Definition fullmatch (r : Re.regex) (s : string) : option Re.captures :=
  snd <$> List.find (fun o => negb (Str.truthy (fst o))) (Re.matches r s []).

Definition field (n : nat) (caps : Re.captures) : Z :=
  default 0 (int_of_digits <$> Re.group n caps).

Definition fraction_micros (caps : Re.captures) : Z :=
  match Re.group 7 caps with
  | Some s => if (String.length s =? 3)%nat then int_of_digits s * 1000 else int_of_digits s
  | None => 0
  end.

Definition fromisoformat (s : string) : result datetime :=
  match fullmatch iso_pattern s with
  | None => Raise ValueError
  | Some caps =>
      tz ← match Re.group 8 caps with
           | None => Ok None
           | Some sign =>
               let off := ((field 9 caps * 60 + field 10 caps) * 60 + field 11 caps)
                          * 1000000 + field 12 caps in
               if off <? 86400000000
               then Ok (Some (if String.eqb sign "-" then - off else off))
               else Raise ValueError
           end;
      make (field 1 caps) (field 2 caps) (field 3 caps)
           (field 4 caps) (field 5 caps) (field 6 caps) (fraction_micros caps) tz
  end.

End Dt.

(** ** Deadline calculator *)

Inductive deadline_status : Type :=
| Active
| Expired
| Unknown.

(** ['%d/%m/%Y', '%d-%m-%Y', '%Y-%m-%d', '%d %b %Y', '%d %B %Y']. *)
Definition DATE_FORMATS : list (list Dt.directive) :=
  [ [Dt.D_d; Dt.D_lit "/"; Dt.D_m; Dt.D_lit "/"; Dt.D_Y];
    [Dt.D_d; Dt.D_lit "-"; Dt.D_m; Dt.D_lit "-"; Dt.D_Y];
    [Dt.D_Y; Dt.D_lit "-"; Dt.D_m; Dt.D_lit "-"; Dt.D_d];
    [Dt.D_d; Dt.D_ws; Dt.D_b; Dt.D_ws; Dt.D_Y];
    [Dt.D_d; Dt.D_ws; Dt.D_B; Dt.D_ws; Dt.D_Y] ].

(** The [for fmt in ...] loop: the first format that parses; a format that
    raises is skipped. *)
Fixpoint try_formats (s : string) (fmts : list (list Dt.directive)) : option Dt.datetime :=
  match fmts with
  | [] => None
  | fmt :: rest =>
      match Dt.strptime s fmt with
      | Ok jdate => Some jdate
      | Raise _ => try_formats s rest
      end
  end.

(** [jdate] after the two branches on ['T' in journey_date_str]. *)
Definition parse_journey_date (s : string) : result (option Dt.datetime) :=
  if Str.contains "T" s then
    jdate ← Dt.fromisoformat (Str.replace_char "Z" "+00:00" s);
    Ok (Some jdate)
  else Ok (try_formats s DATE_FORMATS).

(** [CLAIM_DEADLINES.get(operator, CLAIM_DEADLINES['default'])]. *)
Definition deadline_days_of (operator : option string) : Z :=
  default (CLAIM_DEADLINES !!! "default") (operator ≫= (fun o => CLAIM_DEADLINES !! o)).

(** ['expired' if datetime.now() > deadline_date else 'active']. *)
Definition status_of (past : bool) : deadline_status :=
  if past then Expired else Active.

(** The body of the [try]: [Some] is a [return] inside it, [None] falls
    through to the end of the function. *)
Definition deadline_of_journey (deadline_days : Z) (s : string) (clock : Dt.civil)
  : result (option (option string * deadline_status)) :=
  jdate ← parse_journey_date s;
  match jdate with
  | Some jdate =>
      deadline_date ← Dt.add_days jdate deadline_days;
      past ← Dt.gt (Dt.now clock) deadline_date;
      Ok (Some (Some (Dt.strftime_ymd deadline_date), status_of past))
  | None => Ok None
  end.

Definition get_claim_deadline (operator : option string) (journey_date_str : option string)
    (clock : Dt.civil) : result (option string * deadline_status) :=
  let deadline_days := deadline_days_of operator in
  match journey_date_str with
  | None => Ok (None, Unknown)
  | Some s =>
      if negb (Str.truthy s) then Ok (None, Unknown)
      else
        returned ← catch (deadline_of_journey deadline_days s clock) (Ok None);
        Ok (default (None, Unknown) returned)
  end.

(** ** Opportunity aggregator (the part of [scan] after the fetch loop) *)

(** [email_data]: the headers, the category and the extracted fields of one
    message.  An extracted field that is absent is [None]. *)
Module Email.

Record t : Type := mk {
  date : string;
  sender : string;
  subject : string;
  booking_ref : option string;
  price : option float;
  journey_date : option string;
  delay_mins : option Z;
  origin : option string;
  destination : option string;
  operator : option string;
  category : category
}.

End Email.

Inductive confidence_level : Type :=
| High
| Medium
| Low.

Module Opp.

Record t : Type := mk {
  date : string;
  journey_date : string;
  operator : string;
  booking_ref : option string;
  origin : option string;
  destination : option string;
  price : option float;
  delay_mins : option Z;
  refund_amount : option float;
  refund_pct : option Z;
  deadline : option string;
  deadline_status : deadline_status;
  confidence : confidence_level;
  subject : string;
  category : category
}.

End Opp.

(** [bool(d.get(key))] for a string field. *)
Definition str_truthy (x : option string) : bool :=
  match x with
  | Some s => Str.truthy s
  | None => false
  end.

(** The three lists [bookings], [delays] and [refunds] of the fetch loop. *)
Definition bookings_of (emails : list Email.t) : list Email.t :=
  List.filter (fun e => bool_decide (Email.category e = Booking)) emails.

Definition delays_of (emails : list Email.t) : list Email.t :=
  List.filter (fun e => bool_decide (Email.category e ∈ [Delay; DelayClaim; Cancellation]))
    emails.

Definition refunds_of (emails : list Email.t) : list Email.t :=
  List.filter (fun e => bool_decide (Email.category e = Refund)) emails.

(** [{r.get('booking_ref', '').upper() for r in refunds if r.get('booking_ref')}]. *)
Definition refunded_refs_of (refunds : list Email.t) : gset string :=
  list_to_set
    (omap (fun r => if str_truthy (Email.booking_ref r)
                    then Some (Str.upper (default "" (Email.booking_ref r)))
                    else None)
          refunds).

(** [ref and ref in refunded_refs] with
    [ref = (delay.get('booking_ref') or '').upper()]. *)
Definition already_claimed (refunded_refs : gset string) (delay : Email.t) : bool :=
  let ref := Str.upper (default "" (Email.booking_ref delay)) in
  Str.truthy ref && bool_decide (ref ∈ refunded_refs).

(** The two [if]s that determine the confidence. *)
Definition confidence_of (delay : Email.t) (delay_mins : option Z) (price : option float)
  : confidence_level :=
  let confidence := Low in
  let confidence :=
    if str_truthy (Email.booking_ref delay) && int_truthy delay_mins
    then Medium else confidence in
  let confidence :=
    if str_truthy (Email.booking_ref delay) && int_truthy delay_mins && float_truthy price
    then High else confidence in
  confidence.

(** The body of the [for delay in delays] loop for a candidate that is not
    skipped; [clock] is the time at which it runs. *)
Definition make_opportunity (clock : Dt.civil) (delay : Email.t) : result Opp.t :=
  let price := Email.price delay in
  let delay_mins := Email.delay_mins delay in
  let operator := default "Unknown" (Email.operator delay) in
  let journey_date :=
    if str_truthy (Email.journey_date delay)
    then default "" (Email.journey_date delay) else Email.date delay in
  refund ← calculate_refund delay_mins price (Some operator);
  due ← get_claim_deadline (Some operator) (Some journey_date) clock;
  Ok (Opp.mk (Email.date delay) journey_date operator (Email.booking_ref delay)
             (Email.origin delay) (Email.destination delay) price delay_mins
             (fst refund) (snd refund) (fst due) (snd due)
             (confidence_of delay delay_mins price)
             (Str.take 80 (Email.subject delay)) (Email.category delay)).

(** The loop; [clock k] is the time at which the candidate number [k] is
    treated. *)
Fixpoint build_opportunities (refunded_refs : gset string) (clock : nat -> Dt.civil)
    (k : nat) (delays : list Email.t) : result (list Opp.t) :=
  match delays with
  | [] => Ok []
  | delay :: rest =>
      if already_claimed refunded_refs delay
      then build_opportunities refunded_refs clock (S k) rest
      else
        o ← make_opportunity (clock k) delay;
        os ← build_opportunities refunded_refs clock (S k) rest;
        Ok (o :: os)
  end.

(** Lexicographic [<] on tuples of integers. *)
Fixpoint lex_ltb (a b : list Z) : bool :=
  match a, b with
  | x :: a', y :: b' => (x <? y) || ((x =? y) && lex_ltb a' b')
  | [], _ :: _ => true
  | _, [] => false
  end.

(** The sort key [(-(refund_amount or 0), 0|1|2, 0|1)]. *)
Definition neg_amount (o : Opp.t) : float :=
  match Opp.refund_amount o with
  | Some a => if F64.truthy a then F64.neg a else F64.zero
  | None => F64.zero
  end.

Definition confidence_rank (c : confidence_level) : Z :=
  match c with
  | High => 0
  | Medium => 1
  | Low => 2
  end.

Definition status_rank (s : deadline_status) : Z :=
  match s with
  | Active => 0
  | _ => 1
  end.

Definition sort_key (o : Opp.t) : float * Z * Z :=
  (neg_amount o, confidence_rank (Opp.confidence o), status_rank (Opp.deadline_status o)).

(** [<] on the keys: the first components that differ decide. *)
Definition key_ltb (k1 k2 : float * Z * Z) : bool :=
  let '(a1, c1, s1) := k1 in
  let '(a2, c2, s2) := k2 in
  if negb (F64.eqb a1 a2) then F64.ltb a1 a2
  else if negb (c1 =? c2) then c1 <? c2
  else s1 <? s2.

(** [opportunities.sort(key=...)]. *)
Definition sort_opportunities (opportunities : list Opp.t) : list Opp.t :=
  stable_sort (fun o1 o2 => key_ltb (sort_key o1) (sort_key o2)) opportunities.

(** The list [opportunities] of the scan summary. *)
Definition scan_opportunities (emails : list Email.t) (clock : nat -> Dt.civil)
  : result (list Opp.t) :=
  let delays := delays_of emails in
  let refunds := refunds_of emails in
  let refunded_refs := refunded_refs_of refunds in
  opportunities ← build_opportunities refunded_refs clock 0 delays;
  Ok (sort_opportunities opportunities).

(** A delay candidate is already claimed, in the words of the
    specification: its booking reference, upper-cased, is not empty and is
    the upper-cased booking reference of a refund record of the scan. *)
Definition spec_already_claimed (emails : list Email.t) (delay : Email.t) : Prop :=
  exists b r b',
    Email.booking_ref delay = Some b /\ Str.upper b <> "" /\
    r ∈ emails /\ Email.category r = Refund /\
    Email.booking_ref r = Some b' /\ Str.upper b = Str.upper b'.

(** The opportunity made from a candidate at some time of the scan. *)
Definition made_from (clock : nat -> Dt.civil) (delay : Email.t) (o : Opp.t) : Prop :=
  exists k, make_opportunity (clock k) delay = Ok o.

(** The confidence in the words of the specification, with "present" read
    as "extracted", whatever the value. *)
Definition present {A : Type} (x : option A) : bool :=
  match x with
  | Some _ => true
  | None => false
  end.

Definition spec_confidence_present (delay : Email.t) : confidence_level :=
  if present (Email.booking_ref delay) && present (Email.delay_mins delay)
     && present (Email.price delay) then High
  else if present (Email.booking_ref delay) && present (Email.delay_mins delay) then Medium
  else Low.

(** A field that is extracted and counts: a booking reference that is not
    empty, a delay and a price that are not zero. *)
Definition has_ref (delay : Email.t) : Prop :=
  exists b, Email.booking_ref delay = Some b /\ b <> "".

Definition has_delay (delay : Email.t) : Prop :=
  exists n, Email.delay_mins delay = Some n /\ n <> 0.

Definition has_price (delay : Email.t) : Prop :=
  exists p, Email.price delay = Some p /\ F64.eqb p F64.zero = false.

(** [x.get('refund_amount') or 0]. *)
Definition amount_or_zero (o : Opp.t) : float :=
  match Opp.refund_amount o with
  | Some a => if F64.truthy a then a else F64.zero
  | None => F64.zero
  end.

#[global] Instance confidence_level_eq_dec : EqDecision confidence_level.
Proof. solve_decision. Defined.

(** The order of the confidences in the words of the specification: high
    before medium, medium before low. *)
Definition spec_confidence_before (c1 c2 : confidence_level) : Prop :=
  match c1, c2 with
  | High, Medium | High, Low | Medium, Low => True
  | _, _ => False
  end.

(** The statuses in the words of the specification: active, or one of the
    others, which count the same. *)
Definition spec_is_active (s : deadline_status) : bool :=
  match s with
  | Active => true
  | Expired | Unknown => false
  end.

(** The order of the final list in the words of the specification: [o1]
    may stand before [o2] when its amount is larger, or the amounts are
    equal and its confidence comes before (high, medium, low), or these
    are equal too and it is active or the other is not. *)
Definition spec_before (o1 o2 : Opp.t) : Prop :=
  F64.ltb (amount_or_zero o2) (amount_or_zero o1) = true \/
  (F64.eqb (amount_or_zero o1) (amount_or_zero o2) = true /\
   (spec_confidence_before (Opp.confidence o1) (Opp.confidence o2) \/
    (Opp.confidence o1 = Opp.confidence o2 /\
     (Opp.deadline_status o1 = Active \/ Opp.deadline_status o2 <> Active)))).

(** Two opportunities tied on the whole key: equal amounts, the same
    confidence, and both active or both not. *)
Definition tied (o1 o2 : Opp.t) : bool :=
  F64.eqb (amount_or_zero o1) (amount_or_zero o2)
  && bool_decide (Opp.confidence o1 = Opp.confidence o2)
  && Bool.eqb (spec_is_active (Opp.deadline_status o1))
              (spec_is_active (Opp.deadline_status o2)).

(** An amount that is a number. *)
Definition amount_is_number (o : Opp.t) : Prop :=
  forall a, Opp.refund_amount o = Some a -> F64.is_nan a = false.

(** The place of a double that is not NaN in the order of the doubles, as
    a tuple of integers in lexicographic order. *)
Definition float_code (x : float) : list Z :=
  match x with
  | S754_infinity true => [-2; 0; 0]
  | S754_finite true m e => [-1; - e; Zneg m]
  | S754_zero _ => [0; 0; 0]
  | S754_finite false m e => [1; e; Zpos m]
  | S754_infinity false => [2; 0; 0]
  | S754_nan => [3; 0; 0]
  end.

Definition key_code (k : float * Z * Z) : list Z :=
  let '(a, c, s) := k in float_code a ++ [c; s].

(** ** The scan, from the messages

    A message as the fetch loop reads it: the three headers and the body
    flattened to text. *)

Module Message.

Record t : Type := mk {
  sender : string;
  subject : string;
  date : string;
  body : string
}.

End Message.

(** [email_data] of a message: the headers and the category, and the keys
    of [data]. *)
Definition enrich (msg : Message.t) : Email.t :=
  let sender := Message.sender msg in
  let subject := Message.subject msg in
  let date := Message.date msg in
  let body := Message.body msg in
  let category := categorise_email subject body sender in
  let data := extract_data subject body sender in
  Email.mk date sender subject
           (Data.booking_ref data) (Data.price data) (Data.journey_date data)
           (Data.delay_mins data) (Data.origin data) (Data.destination data)
           (Data.operator data) category.

(** [int(s)] raises [ValueError] for a string of more than 4300 digits,
    the limit of the interpreter ([sys.int_info.default_max_str_digits]);
    [int_of_digits] is its value where it returns. *)
Definition MAX_STR_DIGITS : Z := 4300.

(** The argument of [int] in the delay block: the number that the delay
    pattern found, where it found one. *)
Definition delay_number (subject body : string) : option string :=
  let text := subject +:+ " " +:+ body in
  match Re.search delay_pattern text with
  | Some (_, caps) => Some (default "" (Re.group 1 caps))
  | None => None
  end.

(** The delay block returns: there is no number, or [int] reads it. *)
Definition delay_read (subject body : string) : bool :=
  match delay_number subject body with
  | Some digits => Z.of_nat (String.length digits) <=? MAX_STR_DIGITS
  | None => true
  end.

(** The call [extract_data(subject, body, sender)]: the exception of
    [int], or the dictionary [data]. *)
Definition call_extract_data (subject body sender : string) : result Data.t :=
  if delay_read subject body then Ok (extract_data subject body sender)
  else Raise ValueError.

(** The fetch loop returns for the message. *)
Definition message_read (msg : Message.t) : bool :=
  delay_read (Message.subject msg) (Message.body msg).

(** One turn of the fetch loop, after the message is read. *)
Definition email_data_of (msg : Message.t) : result Email.t :=
  _ ← call_extract_data (Message.subject msg) (Message.body msg) (Message.sender msg);
  Ok (enrich msg).

(** The list [emails] of the fetch loop: the first exception ends it. *)
Fixpoint fetch_loop (messages : list Message.t) : result (list Email.t) :=
  match messages with
  | [] => Ok []
  | msg :: rest =>
      email_data ← email_data_of msg;
      emails ← fetch_loop rest;
      Ok (email_data :: emails)
  end.

(** The list [opportunities] of [scan] for the messages fetched, as it is
    after the sort; an exception of the fetch loop ends the scan, and the
    totals and the recommendations, which come after the sort, are not
    part of it. *)
Definition scan (messages : list Message.t) (clock : nat -> Dt.civil)
  : result (list Opp.t) :=
  emails ← fetch_loop messages;
  scan_opportunities emails clock.

(* ================================================================== *)
(** * Further definitions *)
(* ================================================================== *)

(** ** Calendar dates *)

(** A date of the calendar. *)
Definition valid_date (y m d : Z) : bool :=
  (1 <=? y) && Dt.between 1 m 12 && Dt.between 1 d (Dt.days_in_month y m).

(** The month and the day of [ord2ymd], from the day [n] of the year
    (from 0) and whether the year is a leap year. *)
Definition month_day (n : Z) (leapyear : bool) : Z * Z :=
  let m := Z.shiftr (n + 50) 5 in
  let preceding :=
    nth (Z.to_nat m) Dt.DAYS_BEFORE_MONTH 0 + (if (2 <? m) && leapyear then 1 else 0) in
  if n <? preceding then
    let m := m - 1 in
    let preceding :=
      preceding - (nth (Z.to_nat m) Dt.DAYS_IN_MONTH 0
                   + (if (m =? 2) && leapyear then 1 else 0)) in
    (m, n - preceding + 1)
  else (m, n - preceding + 1).

(** The check of one day of the year: the month and the day are a date,
    and the days before it are [n]. *)
Definition month_day_ok (leapyear : bool) (n : Z) : bool :=
  let '(m, d) := month_day n leapyear in
  Dt.between 1 m 12
  && Dt.between 1 d (if (m =? 2) && leapyear then 29
                     else nth (Z.to_nat m) Dt.DAYS_IN_MONTH 0)
  && (nth (Z.to_nat m) Dt.DAYS_BEFORE_MONTH 0
      + (if (2 <? m) && leapyear then 1 else 0) + d =? n + 1).

(** ** What a pattern matches

    [derives r w caps caps']: the pattern [r] can consume the string [w],
    turning the captures [caps] into [caps'].  A group records what it
    consumed. *)

Inductive derives : Re.regex -> string -> Re.captures -> Re.captures -> Prop :=
| derives_eps (caps : Re.captures) : derives Re.Eps "" caps caps
| derives_chr (p : ascii -> bool) (c : ascii) (caps : Re.captures) :
    p c = true -> derives (Re.Chr p) (String c "") caps caps
| derives_cat (r1 r2 : Re.regex) (w1 w2 : string) (c0 c1 c2 : Re.captures) :
    derives r1 w1 c0 c1 -> derives r2 w2 c1 c2 ->
    derives (Re.Cat r1 r2) (w1 +:+ w2) c0 c2
| derives_alt_l (r1 r2 : Re.regex) (w : string) (c0 c1 : Re.captures) :
    derives r1 w c0 c1 -> derives (Re.Alt r1 r2) w c0 c1
| derives_alt_r (r1 r2 : Re.regex) (w : string) (c0 c1 : Re.captures) :
    derives r2 w c0 c1 -> derives (Re.Alt r1 r2) w c0 c1
| derives_star_nil (r : Re.regex) (caps : Re.captures) :
    derives (Re.Star r) "" caps caps
| derives_star_cons (r : Re.regex) (w1 w2 : string) (c0 c1 c2 : Re.captures) :
    derives r w1 c0 c1 -> derives (Re.Star r) w2 c1 c2 ->
    derives (Re.Star r) (w1 +:+ w2) c0 c2
| derives_group (n : nat) (r : Re.regex) (w : string) (c0 c1 : Re.captures) :
    derives r w c0 c1 -> derives (Re.Group n r) w c0 ((n, w) :: c1).

(** Every character of [s] is in the class [p]. *)
Fixpoint all_chars (p : ascii -> bool) (s : string) : bool :=
  match s with
  | EmptyString => true
  | String c s' => p c && all_chars p s'
  end.

(** A pattern without groups. *)
Fixpoint group_free (r : Re.regex) : bool :=
  match r with
  | Re.Eps | Re.Chr _ => true
  | Re.Cat r1 r2 | Re.Alt r1 r2 => group_free r1 && group_free r2
  | Re.Star r' => group_free r'
  | Re.Group _ _ => false
  end.

(** Text of ASCII characters and pound signs: on such text the classes
    [\d], [\s] and [[A-Z]] of the patterns are the ASCII classes. *)
Definition is_plain (s : string) : bool :=
  all_chars (fun c => let n := nat_of_ascii c in
                      (n <? 128)%nat || (n =? 194)%nat || (n =? 163)%nat) s.

(** Some digit of [s] has "late" or "delay" somewhere after it, in any
    case of the letters. *)
Fixpoint late_after_digit (s : string) : bool :=
  match s with
  | EmptyString => false
  | String c post =>
      (Str.is_digit c
       && (Str.contains "late" (Str.lower post) || Str.contains "delay" (Str.lower post)))
      || late_after_digit post
  end.


(** Patterns that match at every place: the empty pattern, a star, an
    optional part, and their sequences. *)
Definition always_matches (r : Re.regex) : Prop :=
  forall s caps, Re.matches r s caps <> [].

(** The words that open the first reference pattern. *)
Definition REF_LABELS : list string := ["booking"; "reference"; "confirmation"].

(** ** Matching a text whose end is not known

    [open_matches r u caps] runs the matcher on the known start [u] of a
    text: it gives the outcomes that the matcher reaches, in its order, for
    as long as it does not have to look beyond [u], and tells whether that
    is all of them.  An outcome is the part of [u] left over. *)

Definition outcomes : Type := list (string * Re.captures) * bool.

Fixpoint open_bind (l : list (string * Re.captures)) (complete : bool)
    (f : string -> Re.captures -> outcomes) : outcomes :=
  match l with
  | [] => ([], complete)
  | (u1, c1) :: l' =>
      let '(l2, k2) := f u1 c1 in
      if k2 then let '(l3, k3) := open_bind l' complete f in (l2 ++ l3, k3)
      else (l2, false)
  end.

Fixpoint open_matches (r : Re.regex) (u : string) (caps : Re.captures) : outcomes :=
  match r with
  | Re.Eps => ([(u, caps)], true)
  | Re.Chr p =>
      match u with
      | String c u' => (if p c then [(u', caps)] else [], true)
      | EmptyString => ([], false)
      end
  | Re.Cat r1 r2 =>
      let '(l1, k1) := open_matches r1 u caps in
      open_bind l1 k1 (fun u1 c1 => open_matches r2 u1 c1)
  | Re.Alt r1 r2 =>
      let '(l1, k1) := open_matches r1 u caps in
      if k1 then let '(l2, k2) := open_matches r2 u caps in (l1 ++ l2, k2)
      else (l1, false)
  | Re.Star r' =>
      (fix star (fuel : nat) (u : string) (caps : Re.captures) : outcomes :=
         match fuel with
         | O => ([], false)
         | S fuel' =>
             let '(l1, k1) := open_matches r' u caps in
             let '(l, k) :=
               open_bind l1 k1
                 (fun u1 c1 =>
                    if (String.length u1 <? String.length u)%nat
                    then star fuel' u1 c1 else ([], true)) in
             if k then (l ++ [(u, caps)], true) else (l, false)
         end) (S (String.length u)) u caps
  | Re.Group n r' =>
      let '(l, k) := open_matches r' u caps in
      (List.map (fun '(u1, c1) => (u1, (n, Re.consumed u u1) :: c1)) l, k)
  end.

(** The loop of the matcher for a star, by its fuel. *)
Fixpoint star_loop (r : Re.regex) (fuel : nat) (s : string) (caps : Re.captures)
  : list (string * Re.captures) :=
  match fuel with
  | O => [(s, caps)]
  | S fuel' =>
      flat_map (fun '(s1, c1) =>
                  if (String.length s1 <? String.length s)%nat
                  then star_loop r fuel' s1 c1 else [])
               (Re.matches r s caps)
      ++ [(s, caps)]
  end.

(** The outcomes on the known start, as outcomes on the whole text. *)
Definition with_end (x : string) (l : list (string * Re.captures))
  : list (string * Re.captures) :=
  List.map (fun '(u1, c1) => (u1 +:+ x, c1)) l.

(** The matcher on the whole text agrees with the outcomes on its start. *)
Definition agrees (x : string) (found : list (string * Re.captures)) (o : outcomes) : Prop :=
  exists more, found = with_end x (fst o) ++ more /\ (snd o = true -> more = []).

(** The delay pattern after its number. *)
Definition delay_tail : Re.regex :=
  Re.seq [ Re.Star Re.space;
           Re.alts [Re.iword "minute"; Re.iword "min"; Re.iword "hour"; Re.iword "hr"];
           Re.Opt (Re.ichar "s");
           Re.Star Re.space;
           Re.alts [Re.iword "late"; Re.iword "delay"] ].

(** The ways to write the hours of a duration. *)
Definition HOUR_WORDS : list string := ["hour"; "hours"; "hr"; "hrs"].

Definition not_digit (c : ascii) : bool := negb (Str.is_digit c).

(** ** Dates as they are written *)

(** A number of two digits and a number of four digits, with zeros in
    front. *)
Definition two_digits (n : Z) : string :=
  String (Dt.digit_char (n / 10)) (String (Dt.digit_char n) "").

Definition four_digits (n : Z) : string :=
  String (Dt.digit_char (n / 1000)) (String (Dt.digit_char (n / 100)) (two_digits n)).

(** The day, the month and the year, with a separator. *)
Definition day_month_year (sep : ascii) (y m d : Z) : string :=
  two_digits d +:+ String sep (two_digits m +:+ String sep (four_digits y)).

(** ** The fetch loop of [scan]: headers and body of a message

    A message as the mail service returns it: the headers, a list of names
    and values, and the payload, a tree of parts.  The dictionary of a part
    may have the keys [mimeType], [body] (a dictionary that may have the
    key [data]) and [parts]. *)

Module Gmail.

Local Unset Elimination Schemes.

Inductive payload : Type :=
| Payload (mimeType : option string) (body : option (option string))
          (parts : option (list payload)).

Local Set Elimination Schemes.

Definition mimeType (p : payload) : option string :=
  let '(Payload m _ _) := p in m.

(** [p['body'].get('data')] where the key [body] is there, as
    [p.get('body', {}).get('data')]. *)
Definition data (p : payload) : option string :=
  let '(Payload _ b _) := p in b ≫= id.

Definition parts (p : payload) : option (list payload) :=
  let '(Payload _ _ ps) := p in ps.

Record message : Type := mk_message {
  headers : list (string * string);
  body : payload
}.

End Gmail.

(** [{h['name'].lower(): h['value'] for h in headers}]: a later header
    replaces an earlier one of the same name. *)
Definition headers_of (hs : list (string * string)) : gmap string string :=
  foldl (fun acc h => <[Str.lower (fst h) := snd h]> acc) ∅ hs.

(** [headers.get(name, '')]. *)
Definition header (headers : gmap string string) (name : string) : string :=
  default "" (headers !! name).

Section ExtractBody.

(** [base64.urlsafe_b64decode(data).decode('utf-8', errors='ignore')], of
    the library: the text of the data, or an exception. *)
Variable decode : string -> result string.

Fixpoint extract_body (payload : Gmail.payload) : result string :=
  match payload with
  | Gmail.Payload _ _ parts =>
      body ← (if str_truthy (Gmail.data payload)
              then decode (default "" (Gmail.data payload)) else Ok "");
      match parts with
      | None => Ok body
      | Some ps =>
          (fix parts_loop (ps : list Gmail.payload) (body : string) : result string :=
             match ps with
             | [] => Ok body
             | part :: rest =>
                 if bool_decide (Gmail.mimeType part = Some "text/plain")
                    && str_truthy (Gmail.data part)
                 then
                   text ← decode (default "" (Gmail.data part));
                   parts_loop rest (body +:+ text)
                 else
                   match Gmail.parts part with
                   | Some _ =>
                       text ← extract_body part;
                       parts_loop rest (body +:+ text)
                   | None => parts_loop rest body
                   end
             end) ps body
      end
  end.

(** The headers and the body that the loop reads from a message. *)
Definition read_message (full_msg : Gmail.message) : result Message.t :=
  let headers := headers_of (Gmail.headers full_msg) in
  let sender := header headers "from" in
  let subject := header headers "subject" in
  let date := header headers "date" in
  body ← extract_body (Gmail.body full_msg);
  Ok (Message.mk sender subject date body).

End ExtractBody.

(** The data that [extract_body] decodes: the data of the payload itself,
    whatever its type, and in its parts the data of a part of type
    [text/plain], or else what a part with the key [parts] holds. *)
Inductive decoded_in : Gmail.payload -> string -> Prop :=
| decoded_own (p : Gmail.payload) (d : string) :
    Gmail.data p = Some d -> d <> "" -> decoded_in p d
| decoded_part (p : Gmail.payload) (ps : list Gmail.payload) (part : Gmail.payload)
    (d : string) :
    Gmail.parts p = Some ps -> part ∈ ps -> decoded_of_part part d -> decoded_in p d
with decoded_of_part : Gmail.payload -> string -> Prop :=
| decoded_plain (part : Gmail.payload) (d : string) :
    Gmail.mimeType part = Some "text/plain" -> Gmail.data part = Some d -> d <> "" ->
    decoded_of_part part d
| decoded_nested (part : Gmail.payload) (d : string) :
    bool_decide (Gmail.mimeType part = Some "text/plain") && str_truthy (Gmail.data part)
    = false ->
    Gmail.parts part <> None -> decoded_in part d ->
    decoded_of_part part d.

Fixpoint concat_strings (l : list string) : string :=
  match l with
  | [] => ""
  | s :: l' => s +:+ concat_strings l'
  end.

(** The data of the payload itself, where it has any. *)
Definition own_data (p : Gmail.payload) : list string :=
  if str_truthy (Gmail.data p) then [default "" (Gmail.data p)] else [].

(** The data of a payload in the order of the message: the data of the
    payload itself, then part after part the data of a part of type
    [text/plain], or else the data of a part that has parts, in the same
    order. *)
Fixpoint body_data (payload : Gmail.payload) : list string :=
  match payload with
  | Gmail.Payload _ _ parts =>
      own_data payload
      ++ match parts with
         | None => []
         | Some ps =>
             flat_map
               (fun part =>
                  if bool_decide (Gmail.mimeType part = Some "text/plain")
                     && str_truthy (Gmail.data part)
                  then [default "" (Gmail.data part)]
                  else match Gmail.parts part with
                       | Some _ => body_data part
                       | None => []
                       end)
               ps
         end
  end.

(** What a part of a payload gives. *)
Definition part_data (part : Gmail.payload) : list string :=
  if bool_decide (Gmail.mimeType part = Some "text/plain") && str_truthy (Gmail.data part)
  then [default "" (Gmail.data part)]
  else match Gmail.parts part with
       | Some _ => body_data part
       | None => []
       end.

(** Decoding the data of a list one after the other: the first exception
    ends it. *)
Fixpoint decode_all (decode : string -> result string) (ds : list string)
  : result (list string) :=
  match ds with
  | [] => Ok []
  | d :: rest =>
      text ← decode d;
      texts ← decode_all decode rest;
      Ok (text :: texts)
  end.

(** ** The recommendation on the most delayed operator (in [scan])

    [operator_delays] is a dictionary of counts: its items come in the
    order in which the operators were first counted. *)

(** [d.get('operator', 'Unknown')]. *)
Definition operator_or_unknown (d : Email.t) : string :=
  default "Unknown" (Email.operator d).

(** [operator_delays[op] += 1]. *)
Fixpoint bump (op : string) (counts : list (string * Z)) : list (string * Z) :=
  match counts with
  | [] => [(op, 1)]
  | (k, n) :: rest =>
      if String.eqb k op then (k, n + 1) :: rest else (k, n) :: bump op rest
  end.

Definition operator_delays (delays : list Email.t) : list (string * Z) :=
  foldl (fun counts d => bump (operator_or_unknown d) counts) [] delays.

(** [max(items, key=lambda x: x[1])] after the first item: a later item
    replaces the best one when its count is larger. *)
Fixpoint max_by_count (best : string * Z) (items : list (string * Z)) : string * Z :=
  match items with
  | [] => best
  | x :: rest => max_by_count (if snd best <? snd x then x else best) rest
  end.

Definition alternatives_recommendation (delays : list Email.t) : option string :=
  match operator_delays delays with
  | [] => None
  | x :: rest =>
      let worst := max_by_count x rest in
      if 2 <=? snd worst
      then Some ("Consider alternatives to " +:+ fst worst +:+ " — "
                 +:+ pretty (snd worst) +:+ " delays recorded")
      else None
  end.

(** The number of delay records of an operator. *)
Definition delay_count (op : string) (delays : list Email.t) : Z :=
  Z.of_nat (length (List.filter (fun d => bool_decide (operator_or_unknown d = op)) delays)).

(* ================================================================== *)
(** * Properties *)
(* ================================================================== *)

(** ** Refund calculator *)

Lemma pct_values :
  pct_25 = S754_finite false 4503599627370496 (-54) /\
  pct_50 = S754_finite false 4503599627370496 (-53) /\
  pct_100 = S754_finite false 4503599627370496 (-52).
Proof. repeat split; vm_compute; reflexivity. Qed.

Lemma items_desc_tfl :
  items_desc (DELAY_REPAY_SCHEMES !!! "tfl") = [(15, pct_100)].
Proof. vm_compute. reflexivity. Qed.

Lemma items_desc_dr15 :
  items_desc (DELAY_REPAY_SCHEMES !!! "delay_repay_15")
  = [(120, pct_100); (60, pct_100); (30, pct_50); (15, pct_25)].
Proof. vm_compute. reflexivity. Qed.

Lemma items_desc_standard :
  items_desc (DELAY_REPAY_SCHEMES !!! "standard")
  = [(60, pct_100); (30, pct_50); (15, pct_25)].
Proof. vm_compute. reflexivity. Qed.

Lemma pct_int_25 : F64.to_int (F64.mul pct_25 (F64.of_Z 100)) = Ok 25.
Proof. vm_compute. reflexivity. Qed.

Lemma pct_int_50 : F64.to_int (F64.mul pct_50 (F64.of_Z 100)) = Ok 50.
Proof. vm_compute. reflexivity. Qed.

Lemma pct_int_100 : F64.to_int (F64.mul pct_100 (F64.of_Z 100)) = Ok 100.
Proof. vm_compute. reflexivity. Qed.

(** Multiplying a double by 1.0 is exact. *)
Lemma mul_one (p : float) : is_double p -> F64.mul p pct_100 = p.
Proof.
  destruct pct_values as (_ & _ & ->).
  unfold is_double. destruct p as [s | s | | s m e]; simpl; intros Hv.
  - now destruct s.
  - now destruct s.
  - reflexivity.
  - unfold F64.mul, SFmul.
    rewrite xorb_false_r.
    apply andb_prop in Hv as [Hc Hb].
    unfold canonical_mantissa in Hc. apply Z.eqb_eq in Hc.
    rewrite Pos.mul_comm.
    change (4503599627370496 * m)%positive
      with (m~0~0~0~0~0~0~0~0~0~0~0~0~0~0~0~0~0~0~0~0~0~0~0~0~0~0
             ~0~0~0~0~0~0~0~0~0~0~0~0~0~0~0~0~0~0~0~0~0~0~0~0~0~0)%positive.
    unfold binary_round_aux.
    set (m52 := (m~0~0~0~0~0~0~0~0~0~0~0~0~0~0~0~0~0~0~0~0~0~0~0~0~0~0
             ~0~0~0~0~0~0~0~0~0~0~0~0~0~0~0~0~0~0~0~0~0~0~0~0~0~0)%positive).
    assert (Hd : Zdigits2 (Z.pos m52) = Z.pos (digits2_pos m) + 52).
    { subst m52. cbn [Zdigits2 digits2_pos]. lia. }
    assert (Hs : shr_fexp F64.prec F64.emax (Z.pos m52) (e + -52) loc_Exact
                 = ({| shr_m := Z.pos m; shr_r := false; shr_s := false |}, e)).
    { unfold shr_fexp. rewrite Hd.
      replace (Z.pos (digits2_pos m) + 52 + (e + -52)) with (Z.pos (digits2_pos m) + e) by lia.
      rewrite Hc.
      replace (e - (e + -52)) with 52 by lia.
      subst m52. cbn. f_equal. lia. }
    rewrite Hs. cbn [shr_m loc_of_shr_record round_nearest_even].
    unfold shr_fexp. cbn [Zdigits2].
    rewrite Hc, Z.sub_diag. cbn [shr shr_record_of_loc shr_m].
    now rewrite Hb.
Qed.


Lemma positive_truthy (p : float) :
  F64.ltb F64.zero p = true -> F64.truthy p = true.
Proof.
  destruct p as [s | s | | s m e]; try destruct s; cbn; congruence.
Qed.

Lemma zero_falsy (p : float) :
  F64.eqb p F64.zero = true -> F64.truthy p = false.
Proof. unfold F64.truthy. now intros ->. Qed.

Lemma calculate_refund_eligible (d : Z) (p : float) (op : option string) :
  d <> 0 -> F64.truthy p = true ->
  calculate_refund (Some d) (Some p) op
  = refund_loop (items_desc (select_scheme op)) d p.
Proof.
  intros Hd Hp. unfold calculate_refund. cbn [int_truthy float_truthy].
  rewrite Hp. apply Z.eqb_neq in Hd. now rewrite Hd.
Qed.

(** The loop, run on each of the three schemes. *)
Lemma refund_loop_tfl (d : Z) (p : float) :
  15 <= d ->
  refund_loop [(15, pct_100)] d p = Ok (Some (F64.round2 (F64.mul p pct_100)), Some 100).
Proof.
  intros H. cbn [refund_loop].
  destruct (Z.leb_spec 15 d); [| lia]. now rewrite pct_int_100.
Qed.

Lemma refund_loop_dr15 (d : Z) (p : float) :
  refund_loop [(120, pct_100); (60, pct_100); (30, pct_50); (15, pct_25)] d p
  = if 60 <=? d then Ok (Some (F64.round2 (F64.mul p pct_100)), Some 100)
    else if 30 <=? d then Ok (Some (F64.round2 (F64.mul p pct_50)), Some 50)
    else if 15 <=? d then Ok (Some (F64.round2 (F64.mul p pct_25)), Some 25)
    else Ok (None, None).
Proof.
  cbn [refund_loop]. rewrite pct_int_100, pct_int_50, pct_int_25.
  destruct (Z.leb_spec 120 d), (Z.leb_spec 60 d); try reflexivity; lia.
Qed.

Lemma refund_loop_standard (d : Z) (p : float) :
  refund_loop [(60, pct_100); (30, pct_50); (15, pct_25)] d p
  = if 60 <=? d then Ok (Some (F64.round2 (F64.mul p pct_100)), Some 100)
    else if 30 <=? d then Ok (Some (F64.round2 (F64.mul p pct_50)), Some 50)
    else if 15 <=? d then Ok (Some (F64.round2 (F64.mul p pct_25)), Some 25)
    else Ok (None, None).
Proof. cbn [refund_loop]. now rewrite pct_int_100, pct_int_50, pct_int_25. Qed.

Lemma items_desc_select (op : option string) :
  items_desc (select_scheme op)
  = if bool_decide (op = Some "TfL") then [(15, pct_100)]
    else if operator_in op DR15_OPERATORS
         then [(120, pct_100); (60, pct_100); (30, pct_50); (15, pct_25)]
         else [(60, pct_100); (30, pct_50); (15, pct_25)].
Proof.
  unfold select_scheme.
  destruct (bool_decide _); [apply items_desc_tfl |].
  destruct (operator_in _ _); [apply items_desc_dr15 | apply items_desc_standard].
Qed.

Ltac tier_membership :=
  repeat match goal with
    | H : _ ∈ _ :: _ |- _ => apply elem_of_cons in H as [H | H]
    | H : _ ∈ [] |- _ => apply elem_of_nil in H; destruct H
    | H : (_, _) = (_, _) |- _ => injection H as -> ->
    end.

(** The tier chosen: it is in the scheme, the delay reaches it, no higher
    tier is reached, and its percentage is the integer given. *)
Ltac tier_goal pct_lemma :=
  refine (conj _ (conj _ (conj _ (conj pct_lemma _))));
  [ set_solver
  | lia
  | let Hin := fresh "Hin" in
    intros ? ? Hin ?; tier_membership; lia
  | reflexivity ].

(** C1 (amended).  For a delay of at least 15 minutes and a price above
    zero, [calculate_refund] pays by the scheme of the operator (flat for
    "TfL", the DR15 tiers for the operators of [DR15_OPERATORS], the
    standard tiers for all others, absent and "Unknown" included): the tier
    applied is the one with the highest threshold that the delay reaches,
    the amount is [round(price * pct, 2)] and the percentage
    [int(pct * 100)].  For "TfL" the result is [(round(P, 2), 100)], and
    for a DR15 operator at 45 minutes [(round(P * 0.5, 2), 50)]. *)
Theorem calculate_refund_by_scheme (d : Z) (p : float) (op : option string) :
  15 <= d -> F64.ltb F64.zero p = true -> is_double p ->
  (exists t pct n,
      (t, pct) ∈ spec_tiers op /\ t <= d /\
      (forall t' pct', (t', pct') ∈ spec_tiers op -> t' <= d -> t' <= t) /\
      F64.to_int (F64.mul pct (F64.of_Z 100)) = Ok n /\
      calculate_refund (Some d) (Some p) op
      = Ok (Some (F64.round2 (F64.mul p pct)), Some n)) /\
  (op = Some "TfL" ->
   calculate_refund (Some d) (Some p) op = Ok (Some (F64.round2 p), Some 100)) /\
  (operator_in op DR15_OPERATORS = true -> d = 45 ->
   calculate_refund (Some d) (Some p) op
   = Ok (Some (F64.round2 (F64.mul p pct_50)), Some 50)).
Proof.
  intros Hd Hpos Hval.
  assert (Hrun : calculate_refund (Some d) (Some p) op
                 = refund_loop (items_desc (select_scheme op)) d p).
  { apply calculate_refund_eligible; [lia | now apply positive_truthy]. }
  rewrite Hrun, items_desc_select. unfold spec_tiers.
  split; [| split].
  - destruct (bool_decide (op = Some "TfL")).
    + exists 15, pct_100, 100. rewrite refund_loop_tfl by lia.
      unfold spec_tiers_tfl. tier_goal pct_int_100.
    + destruct (operator_in op DR15_OPERATORS).
      * rewrite refund_loop_dr15. unfold spec_tiers_dr15.
        destruct (Z.leb_spec 120 d);
          [| destruct (Z.leb_spec 60 d); [| destruct (Z.leb_spec 30 d)]].
        -- exists 120, pct_100, 100.
           destruct (Z.leb_spec 60 d); [| lia]. tier_goal pct_int_100.
        -- exists 60, pct_100, 100. tier_goal pct_int_100.
        -- exists 30, pct_50, 50. tier_goal pct_int_50.
        -- exists 15, pct_25, 25.
           destruct (Z.leb_spec 15 d); [| lia]. tier_goal pct_int_25.
      * rewrite refund_loop_standard. unfold spec_tiers_standard.
        destruct (Z.leb_spec 60 d); [| destruct (Z.leb_spec 30 d)].
        -- exists 60, pct_100, 100. tier_goal pct_int_100.
        -- exists 30, pct_50, 50. tier_goal pct_int_50.
        -- exists 15, pct_25, 25.
           destruct (Z.leb_spec 15 d); [| lia]. tier_goal pct_int_25.
  - intros ->. rewrite bool_decide_eq_true_2 by reflexivity.
    rewrite refund_loop_tfl by lia. now rewrite mul_one.
  - intros Hin ->. rewrite Hin.
    destruct (bool_decide (op = Some "TfL")) eqn:Htfl.
    + apply bool_decide_eq_true_1 in Htfl. subst op. vm_compute in Hin. discriminate.
    + now rewrite refund_loop_dr15.
Qed.

(** The price 45.00 at 45 minutes on LNER pays 22.50, that is 50%. *)
Lemma calculate_refund_by_scheme_witness :
  15 <= 45 /\ F64.ltb F64.zero (F64.of_decimal 4500 2) = true /\
  is_double (F64.of_decimal 4500 2) /\
  calculate_refund (Some 45) (Some (F64.of_decimal 4500 2)) (Some "LNER")
  = Ok (Some (F64.of_decimal 2250 2), Some 50).
Proof.
  assert (H1 : 15 <= 45) by lia.
  assert (H2 : F64.ltb F64.zero (F64.of_decimal 4500 2) = true) by (vm_compute; reflexivity).
  assert (H3 : is_double (F64.of_decimal 4500 2)) by (vm_compute; reflexivity).
  refine (conj H1 (conj H2 (conj H3 _))).
  destruct (calculate_refund_by_scheme 45 (F64.of_decimal 4500 2) (Some "LNER") H1 H2 H3)
    as (_ & _ & Hdr15).
  rewrite Hdr15; [vm_compute; reflexivity | vm_compute; reflexivity | reflexivity].
Defined.

(** The claim as stated promises [(P, 100)] for "TfL"; the amount is
    rounded to two places, so the price 0.125 at 15 minutes pays 0.12. *)
Lemma calculate_refund_tfl_rounds_price :
  let P := F64.of_decimal 125 3 in
  15 <= 15 /\ F64.ltb F64.zero P = true /\ is_double P /\
  calculate_refund (Some 15) (Some P) (Some "TfL")
  = Ok (Some (F64.of_decimal 12 2), Some 100) /\
  calculate_refund (Some 15) (Some P) (Some "TfL") <> Ok (Some P, Some 100).
Proof.
  repeat split; try (vm_compute; congruence).
Qed.

(** C2.  [calculate_refund] returns [(None, None)] when the delay is absent
    or zero, when the price is absent or zero, and for every delay below 15
    minutes, whatever the operator and the price. *)
Theorem calculate_refund_not_eligible
    (delay_mins : option Z) (price : option float) (op : option string) :
  delay_mins = None \/ delay_mins = Some 0 \/
  price = None \/ (exists p, price = Some p /\ F64.eqb p F64.zero = true) \/
  (exists d, delay_mins = Some d /\ d < 15) ->
  calculate_refund delay_mins price op = Ok (None, None).
Proof.
  intros [-> | [-> | [-> | [(p & -> & Hz) | (d & -> & Hd)]]]].
  - reflexivity.
  - reflexivity.
  - unfold calculate_refund. cbn [float_truthy negb]. now rewrite orb_true_r.
  - unfold calculate_refund. cbn [float_truthy].
    rewrite (zero_falsy _ Hz). cbn [negb]. now rewrite orb_true_r.
  - unfold calculate_refund.
    destruct (negb (int_truthy (Some d)) || negb (float_truthy price)); [reflexivity |].
    destruct price as [p |]; [| reflexivity].
    rewrite items_desc_select.
    destruct (bool_decide (op = Some "TfL")).
    + cbn [refund_loop]. destruct (Z.leb_spec 15 d); [lia | reflexivity].
    + destruct (operator_in op DR15_OPERATORS);
        [rewrite refund_loop_dr15 | rewrite refund_loop_standard];
        destruct (Z.leb_spec 60 d), (Z.leb_spec 30 d), (Z.leb_spec 15 d);
        try reflexivity; lia.
Qed.

(** A delay of 14 minutes on a ticket of 45.00. *)
Lemma calculate_refund_not_eligible_witness :
  (exists d, Some 14 = Some d /\ d < 15) /\
  calculate_refund (Some 14) (Some (F64.of_decimal 4500 2)) (Some "TfL") = Ok (None, None).
Proof.
  assert (H : exists d, Some 14 = Some d /\ d < 15).
  { exists 14. split; [reflexivity | lia]. }
  split; [exact H |].
  apply calculate_refund_not_eligible.
  right. right. right. right. exact H.
Defined.

(** ** Substrings *)

Lemma append_cons (c : ascii) (s t : string) :
  String c s +:+ t = String c (s +:+ t).
Proof. reflexivity. Qed.

Lemma append_nil (t : string) : "" +:+ t = t.
Proof. reflexivity. Qed.

Lemma prefix_occurs (p s : string) :
  String.prefix p s = true <-> exists post, s = p +:+ post.
Proof.
  revert s. induction p as [| c p IH]; intros s.
  - split; [intros _; now exists s | intros _; now destruct s].
  - destruct s as [| d s]; cbn.
    + split; [discriminate | intros (post & H); discriminate].
    + destruct (Ascii.ascii_dec c d) as [-> | Hne].
      * rewrite IH. split; intros (post & H); exists post;
          rewrite append_cons in *; congruence.
      * split; [discriminate | intros (post & H); rewrite append_cons in H; congruence].
Qed.

Lemma contains_nil (kw : string) :
  Str.contains kw "" = String.prefix kw "" || false.
Proof. reflexivity. Qed.

Lemma contains_cons (kw : string) (c : ascii) (text : string) :
  Str.contains kw (String c text)
  = String.prefix kw (String c text) || Str.contains kw text.
Proof. reflexivity. Qed.

Lemma contains_occurs (kw text : string) :
  Str.contains kw text = true <-> occurs kw text.
Proof.
  unfold occurs. induction text as [| c text IH].
  - rewrite contains_nil, orb_false_r, prefix_occurs.
    split.
    + intros (post & H). now exists "", post.
    + intros (pre & post & H). destruct pre; [now exists post | discriminate].
  - rewrite contains_cons, orb_true_iff, prefix_occurs, IH.
    split.
    + intros [(post & H) | (pre & post & H)].
      * now exists "", post.
      * exists (String c pre), post. rewrite append_cons. now rewrite H.
    + intros (pre & post & H). destruct pre as [| d pre].
      * left. now exists post.
      * right. exists pre, post. rewrite append_cons in H. congruence.
Qed.

Lemma any_in_occurs (kws : list string) (text : string) :
  any_in kws text = true <-> exists kw, kw ∈ kws /\ occurs kw text.
Proof.
  unfold any_in. rewrite existsb_exists.
  split; intros (kw & Hin & H); exists kw.
  - now rewrite list_elem_of_In, <- contains_occurs.
  - now rewrite <- list_elem_of_In, contains_occurs.
Qed.

(** ** Email classifier *)

Lemma categorise_email_spec_classify (subject body sender : string) :
  categorise_email subject body sender
  = spec_classify KEYWORD_SETS (Str.lower (subject +:+ " " +:+ body)).
Proof. reflexivity. Qed.

(** What the first matching set is. *)
Lemma spec_classify_first (sets : list (category * list string)) (text : string) :
  (exists before cat kws after,
      sets = before ++ (cat, kws) :: after /\
      spec_classify sets text = cat /\
      (exists kw, kw ∈ kws /\ occurs kw text) /\
      (forall cat' kws' kw, (cat', kws') ∈ before -> kw ∈ kws' -> ~ occurs kw text)) \/
  (spec_classify sets text = Other /\
   forall cat' kws' kw, (cat', kws') ∈ sets -> kw ∈ kws' -> ~ occurs kw text).
Proof.
  induction sets as [| [cat kws] rest IH]; cbn.
  - right. split; [reflexivity |]. intros ? ? ? Hin. now apply elem_of_nil in Hin.
  - destruct (any_in kws text) eqn:Hany.
    + left. exists [], cat, kws, rest. repeat split.
      * now apply any_in_occurs.
      * intros ? ? ? Hin. now apply elem_of_nil in Hin.
    + assert (Hnone : forall kw, kw ∈ kws -> ~ occurs kw text).
      { intros kw Hin Hocc.
        assert (any_in kws text = true) by (apply any_in_occurs; eauto).
        congruence. }
      destruct IH as [(before & c & k & after & -> & Hc & Hk & Hb) | (Hc & Hall)].
      * left. exists ((cat, kws) :: before), c, k, after. repeat split; try assumption.
        intros cat' kws' kw Hin Hkw. apply elem_of_cons in Hin as [Heq | Hin].
        -- injection Heq as -> ->. now apply Hnone.
        -- now apply (Hb cat' kws').
      * right. split; [assumption |].
        intros cat' kws' kw Hin Hkw. apply elem_of_cons in Hin as [Heq | Hin].
        -- injection Heq as -> ->. now apply Hnone.
        -- now apply (Hall cat' kws').
Qed.

(** C7 (amended).  The classifier lower-cases [subject + " " + body] (the
    subject, one space, the body), tests the seven keyword sets in the order
    delay_claim, refund, cancellation, delay, booking, statement, receipt,
    and returns the category of the first set one of whose keywords occurs
    in that text, [Other] when no keyword of any set occurs; the category is
    unique. *)
Theorem categorise_email_priority (subject body sender : string) :
  let text := Str.lower (subject +:+ " " +:+ body) in
  List.map fst KEYWORD_SETS
  = [DelayClaim; Refund; Cancellation; Delay; Booking; Statement; Receipt] /\
  ((exists before cat kws after,
       KEYWORD_SETS = before ++ (cat, kws) :: after /\
       categorise_email subject body sender = cat /\
       (exists kw, kw ∈ kws /\ occurs kw text) /\
       (forall cat' kws' kw, (cat', kws') ∈ before -> kw ∈ kws' -> ~ occurs kw text)) \/
   (categorise_email subject body sender = Other /\
    forall cat' kws' kw, (cat', kws') ∈ KEYWORD_SETS -> kw ∈ kws' -> ~ occurs kw text)) /\
  (exists! cat, categorise_email subject body sender = cat).
Proof.
  intros text. split; [reflexivity | split].
  - rewrite categorise_email_spec_classify. apply spec_classify_first.
  - exists (categorise_email subject body sender). split; [reflexivity | auto].
Qed.

(** The claim as stated classifies the concatenation of subject and body:
    with subject "delay" and body "repay" the source sees "delay repay", a
    delay-claim keyword, where the plain concatenation "delayrepay" only has
    the delay keyword. *)
Lemma categorise_email_joins_with_space :
  categorise_email "delay" "repay" "" = DelayClaim /\
  spec_classify KEYWORD_SETS (Str.lower ("delay" +:+ "repay")) = Delay /\
  categorise_email "delay" "repay" ""
  <> spec_classify KEYWORD_SETS (Str.lower ("delay" +:+ "repay")).
Proof. repeat split; vm_compute; congruence. Qed.

(** ** Station and route extraction *)

Lemma filter_none {A : Type} (f : A -> bool) (l : list A) :
  (forall x, x ∈ l -> f x = false) -> List.filter f l = [].
Proof.
  induction l as [| a l IH]; intros H; [reflexivity |].
  cbn. rewrite (H a) by apply list_elem_of_here.
  apply IH. intros x Hx. apply H. now apply list_elem_of_further.
Qed.

Lemma filter_sublist_of {A : Type} (f : A -> bool) (l : list A) :
  sublist (List.filter f l) l.
Proof.
  induction l as [| a l IH]; cbn; [constructor |].
  destruct (f a); now constructor.
Qed.

Lemma found_stations_spec (text st : string) :
  st ∈ found_stations text <-> st ∈ UK_STATIONS /\ occurs_nocase st text.
Proof.
  unfold found_stations, occurs_nocase.
  now rewrite list_elem_of_In, filter_In, <- list_elem_of_In, contains_occurs.
Qed.

Lemma station_absent (text st : string) :
  ~ occurs_nocase st text ->
  Str.contains (Str.lower st) (Str.lower text) = false.
Proof.
  intros H. apply not_true_is_false. intros Hc. apply H.
  now apply contains_occurs.
Qed.

Lemma uk_station_mem (st : string) :
  existsb (String.eqb st) UK_STATIONS = true -> st ∈ UK_STATIONS.
Proof.
  intros H. apply existsb_exists in H as (x & Hin & Heq).
  apply String.eqb_eq in Heq as ->. now apply list_elem_of_In.
Qed.

(** When the only stations of the gazetteer occurring in the text are
    among [keep], every other station of a part [l] of the gazetteer is
    skipped by the loop. *)
Lemma filter_skips (text : string) (keep l : list string) :
  (forall st, st ∈ UK_STATIONS -> occurs_nocase st text -> st ∈ keep) ->
  forallb (fun st => existsb (String.eqb st) UK_STATIONS
                     && negb (existsb (String.eqb st) keep)) l = true ->
  List.filter (fun station => Str.contains (Str.lower station) (Str.lower text)) l = [].
Proof.
  intros Honly Hl. apply filter_none. intros st Hst.
  apply station_absent. intros Hocc.
  rewrite forallb_forall in Hl.
  specialize (Hl st (proj1 (list_elem_of_In _ _) Hst)).
  apply andb_prop in Hl as [Hmem Hnot].
  apply uk_station_mem in Hmem.
  specialize (Honly st Hmem Hocc).
  apply negb_true_iff in Hnot.
  assert (existsb (String.eqb st) keep = true); [| congruence].
  apply existsb_exists. exists st. split; [now apply list_elem_of_In | apply String.eqb_refl].
Qed.

Lemma filter_hit {A : Type} (f : A -> bool) (a : A) (l : list A) :
  f a = true -> List.filter f (a :: l) = a :: List.filter f l.
Proof. intros H. unfold List.filter at 1. rewrite H. reflexivity. Qed.

(** C8 (amended).  The origin and the destination that [extract_data]
    sets are those of the stations found; the stations found are exactly
    the gazetteer stations occurring case-insensitively in the text
    [subject + " " + body], in the order of the gazetteer;
    with two or more found the first is the origin and the second the
    destination, with exactly one it is the origin and there is no
    destination.  A text in which "London Paddington" and "Bristol Temple
    Meads" occur and no other station of the gazetteer does has that origin
    and that destination; a text in which "Leeds" occurs and no other
    station does has origin "Leeds" and no destination. *)
Theorem extract_route_gazetteer_order (subject body : string) :
  let text := subject +:+ " " +:+ body in
  (forall sender,
      (Data.origin (extract_data subject body sender),
       Data.destination (extract_data subject body sender))
      = extract_route subject body) /\
  (forall st, st ∈ found_stations text <-> st ∈ UK_STATIONS /\ occurs_nocase st text) /\
  sublist (found_stations text) UK_STATIONS /\
  (forall first second rest,
      found_stations text = first :: second :: rest ->
      extract_route subject body = (Some first, Some second)) /\
  (forall only,
      found_stations text = [only] -> extract_route subject body = (Some only, None)) /\
  (occurs_nocase "London Paddington" text ->
   occurs_nocase "Bristol Temple Meads" text ->
   (forall st, st ∈ UK_STATIONS -> occurs_nocase st text ->
               st ∈ ["London Paddington"; "Bristol Temple Meads"]) ->
   extract_route subject body = (Some "London Paddington", Some "Bristol Temple Meads")) /\
  (occurs_nocase "Leeds" text ->
   (forall st, st ∈ UK_STATIONS -> occurs_nocase st text -> st ∈ ["Leeds"]) ->
   extract_route subject body = (Some "Leeds", None)).
Proof.
  intros text.
  split; [intros sender; cbn [extract_data Data.origin Data.destination];
          now destruct (extract_route subject body) |].
  split; [apply found_stations_spec |].
  split; [apply filter_sublist_of |].
  split; [intros first second rest H; unfold extract_route; fold text; rewrite H; reflexivity |].
  split; [intros only H; unfold extract_route; fold text; rewrite H; reflexivity |].
  split.
  - intros Hlp Hbtm Hothers.
    apply contains_occurs in Hlp. apply contains_occurs in Hbtm.
    unfold extract_route. fold text. unfold found_stations.
    change UK_STATIONS with
      (["London Euston"; "London Kings Cross"; "London St Pancras"]
       ++ "London Paddington"
       :: ["London Victoria"; "London Waterloo"; "London Liverpool Street";
           "London Bridge"; "Manchester Piccadilly"; "Birmingham New Street";
           "Leeds"; "Glasgow Central"; "Edinburgh Waverley"]
       ++ "Bristol Temple Meads"
       :: ["Liverpool Lime Street"; "Newcastle"; "Sheffield"; "Nottingham";
           "Leicester"; "Cambridge"; "Oxford"; "Brighton"; "Reading";
           "Cardiff Central"; "York"; "Peterborough"; "Milton Keynes"; "Crewe";
           "Preston"]).
    rewrite List.filter_app.
    rewrite (filter_skips text _ _ Hothers) by (vm_compute; reflexivity).
    rewrite app_nil_l, (filter_hit (fun station => Str.contains (Str.lower station) (Str.lower text)) "London Paddington" _ Hlp).
    rewrite List.filter_app.
    rewrite (filter_skips text _ _ Hothers) by (vm_compute; reflexivity).
    rewrite app_nil_l, (filter_hit (fun station => Str.contains (Str.lower station) (Str.lower text)) "Bristol Temple Meads" _ Hbtm).
    reflexivity.
  - intros Hleeds Hothers.
    apply contains_occurs in Hleeds.
    unfold extract_route. fold text. unfold found_stations.
    change UK_STATIONS with
      (["London Euston"; "London Kings Cross"; "London St Pancras"; "London Paddington";
        "London Victoria"; "London Waterloo"; "London Liverpool Street";
        "London Bridge"; "Manchester Piccadilly"; "Birmingham New Street"]
       ++ "Leeds"
       :: ["Glasgow Central"; "Edinburgh Waverley"; "Bristol Temple Meads";
           "Liverpool Lime Street"; "Newcastle"; "Sheffield"; "Nottingham";
           "Leicester"; "Cambridge"; "Oxford"; "Brighton"; "Reading";
           "Cardiff Central"; "York"; "Peterborough"; "Milton Keynes"; "Crewe";
           "Preston"]).
    rewrite List.filter_app.
    rewrite (filter_skips text _ _ Hothers) by (vm_compute; reflexivity).
    rewrite app_nil_l, (filter_hit (fun station => Str.contains (Str.lower station) (Str.lower text)) "Leeds" _ Hleeds).
    rewrite (filter_skips text _ _ Hothers) by (vm_compute; reflexivity).
    reflexivity.
Qed.

(** Which stations occur in a given text is decided by running the loop. *)
Lemma only_stations_check (text : string) (keep : list string) :
  forallb (fun st => implb (Str.contains (Str.lower st) (Str.lower text))
                           (existsb (String.eqb st) keep)) UK_STATIONS = true ->
  forall st, st ∈ UK_STATIONS -> occurs_nocase st text -> st ∈ keep.
Proof.
  intros H st Hst Hocc. rewrite forallb_forall in H.
  specialize (H st (proj1 (list_elem_of_In _ _) Hst)).
  apply contains_occurs in Hocc. rewrite Hocc in H. cbn in H.
  apply existsb_exists in H as (x & Hx & Heq).
  apply String.eqb_eq in Heq as ->. now apply list_elem_of_In.
Qed.

(** "London Paddington to Bristol Temple Meads", and a late train to Leeds. *)
Lemma extract_route_gazetteer_order_witness :
  extract_route "Your journey" "London Paddington to Bristol Temple Meads"
  = (Some "London Paddington", Some "Bristol Temple Meads") /\
  extract_route "Delay" "Your train to Leeds is late" = (Some "Leeds", None).
Proof.
  split.
  - destruct (extract_route_gazetteer_order "Your journey"
                "London Paddington to Bristol Temple Meads")
      as (_ & _ & _ & _ & _ & Htwo & _).
    apply Htwo.
    + apply contains_occurs. vm_compute. reflexivity.
    + apply contains_occurs. vm_compute. reflexivity.
    + apply only_stations_check. vm_compute. reflexivity.
  - destruct (extract_route_gazetteer_order "Delay" "Your train to Leeds is late")
      as (_ & _ & _ & _ & _ & _ & Hone).
    apply Hone.
    + apply contains_occurs. vm_compute. reflexivity.
    + apply only_stations_check. vm_compute. reflexivity.
Defined.

(** The claim as stated gives origin and destination for every text that
    contains the two names; a text that also names a station listed earlier
    in the gazetteer gets that station as its origin. *)
Lemma extract_route_third_station :
  let subject := "Your journey" in
  let body := "London Euston to Bristol Temple Meads via London Paddington" in
  occurs_nocase "London Paddington" (subject +:+ " " +:+ body) /\
  occurs_nocase "Bristol Temple Meads" (subject +:+ " " +:+ body) /\
  extract_route subject body = (Some "London Euston", Some "London Paddington") /\
  extract_route subject body <> (Some "London Paddington", Some "Bristol Temple Meads").
Proof.
  intros subject body. repeat split.
  - apply contains_occurs. vm_compute. reflexivity.
  - apply contains_occurs. vm_compute. reflexivity.
  - vm_compute. discriminate.
Qed.

(** ** Delay duration *)

(** C6 (the code differs).  The pattern accepts the units minute, min, hour
    and hr, and the conversion to minutes looks for the text "hour" in the
    match: a delay in "hours" is multiplied by 60, a delay in "hrs" is not. *)
Theorem extract_delay_mins_hr_not_converted (sender : string) :
  Data.delay_mins (extract_data "Delay" "Your train was 2 hrs late" sender) = Some 2 /\
  Data.delay_mins (extract_data "Delay" "Your train was 2 hours late" sender) = Some 120 /\
  Data.delay_mins (extract_data "Delay" "Your train was 45 minutes late" sender) = Some 45.
Proof. repeat split; vm_compute; reflexivity. Qed.

(** ** Deadline calculator *)

Lemma claim_deadlines_default : CLAIM_DEADLINES !!! "default" = 28.
Proof. vm_compute. reflexivity. Qed.

(** The window: 30 days for National Express, 28 for every other operator,
    named in the table or not, and for an absent one. *)
Lemma deadline_days_by_operator (operator : option string) :
  deadline_days_of operator
  = if bool_decide (operator = Some "National Express") then 30 else 28.
Proof.
  unfold deadline_days_of. rewrite claim_deadlines_default.
  destruct operator as [o |]; [| reflexivity].
  cbn [mbind option_bind]. unfold CLAIM_DEADLINES.
  rewrite !lookup_insert, lookup_empty.
  repeat case_decide; subst; case_bool_decide; try reflexivity; congruence.
Qed.

Lemma get_claim_deadline_absent (operator : option string) (clock : Dt.civil) :
  get_claim_deadline operator None clock = Ok (None, Unknown) /\
  get_claim_deadline operator (Some "") clock = Ok (None, Unknown).
Proof. split; reflexivity. Qed.

Lemma get_claim_deadline_unparsed
    (operator : option string) (s : string) (clock : Dt.civil) :
  (parse_journey_date s = Ok None \/ exists e, parse_journey_date s = Raise e) ->
  get_claim_deadline operator (Some s) clock = Ok (None, Unknown).
Proof.
  intros H. unfold get_claim_deadline, deadline_of_journey.
  destruct (Str.truthy s); [| reflexivity]. cbn [negb].
  destruct H as [-> | (e & ->)]; reflexivity.
Qed.

(** No exception leaves [get_claim_deadline]. *)
Lemma get_claim_deadline_returns
    (operator : option string) (journey_date_str : option string) (clock : Dt.civil) :
  exists r, get_claim_deadline operator journey_date_str clock = Ok r.
Proof.
  unfold get_claim_deadline.
  destruct journey_date_str as [s |]; [| eauto].
  destruct (negb (Str.truthy s)); [eauto |].
  destruct (deadline_of_journey _ s clock) as [[r |] | e]; cbn; eauto.
Qed.

(** A naive journey date within range: the deadline is the journey date
    plus the window, expired exactly when the clock is past it. *)
Lemma get_claim_deadline_naive
    (operator : option string) (s : string) (clock : Dt.civil)
    (jdate deadline_date : Dt.datetime) :
  Str.truthy s = true ->
  parse_journey_date s = Ok (Some jdate) ->
  Dt.tzinfo jdate = None ->
  Dt.add_days jdate (deadline_days_of operator) = Ok deadline_date ->
  get_claim_deadline operator (Some s) clock
  = Ok (Some (Dt.strftime_ymd deadline_date),
        if Dt.lex_gtb (Dt.fields clock) (Dt.fields (Dt.local deadline_date))
        then Expired else Active).
Proof.
  intros Hs Hparse Hnaive Hadd.
  unfold get_claim_deadline, deadline_of_journey. rewrite Hs, Hparse. cbn [negb].
  cbn [mbind result_bind]. rewrite Hadd.
  assert (Htz : Dt.tzinfo deadline_date = None).
  { unfold Dt.add_days in Hadd.
    destruct (_ && _); [| discriminate].
    destruct (Dt.ord2ymd _) as [[y m] d]. injection Hadd as <-. exact Hnaive. }
  unfold Dt.gt, Dt.now. cbn [Dt.tzinfo Dt.local mbind result_bind]. rewrite Htz.
  cbn [catch mbind result_bind default status_of].
  now destruct (Dt.lex_gtb _ _).
Qed.

(** An aware journey date: comparing the naive clock with the aware
    deadline raises, and the handler turns that into "unknown". *)
Lemma get_claim_deadline_aware
    (operator : option string) (s : string) (clock : Dt.civil)
    (jdate : Dt.datetime) (offset : Z) :
  parse_journey_date s = Ok (Some jdate) ->
  Dt.tzinfo jdate = Some offset ->
  get_claim_deadline operator (Some s) clock = Ok (None, Unknown).
Proof.
  intros Hparse Haware.
  unfold get_claim_deadline, deadline_of_journey. rewrite Hparse.
  destruct (negb (Str.truthy s)); [reflexivity |].
  cbn [mbind result_bind].
  destruct (Dt.add_days jdate _) as [deadline_date | e] eqn:Hadd; [| reflexivity].
  assert (Htz : Dt.tzinfo deadline_date = Some offset).
  { unfold Dt.add_days in Hadd.
    destruct (_ && _); [| discriminate].
    destruct (Dt.ord2ymd _) as [[y m] d]. injection Hadd as <-. exact Haware. }
  unfold Dt.gt, Dt.now. cbn [Dt.tzinfo Dt.local mbind result_bind]. rewrite Htz.
  reflexivity.
Qed.

(** C5 (the code differs).  The timestamp "2024-03-15T10:00:00Z" is parsed,
    with the "Z" read as UTC, into 15 March 2024 10:00 UTC; for every
    operator and at every time of the clock the result is none the less
    [(None, Unknown)] and not the deadline 28 (or 30) days later.  The same
    timestamp without the "Z" gives the deadline. *)
Theorem get_claim_deadline_utc_timestamp_unknown
    (operator : option string) (clock : Dt.civil) :
  parse_journey_date "2024-03-15T10:00:00Z"
  = Ok (Some (Dt.mk_datetime (Dt.mk_civil 2024 3 15 10 0 0 0) (Some 0))) /\
  get_claim_deadline operator (Some "2024-03-15T10:00:00Z") clock = Ok (None, Unknown) /\
  get_claim_deadline (Some "LNER") (Some "2024-03-15T10:00:00")
    (Dt.mk_civil 2024 4 1 9 0 0 0) = Ok (Some "2024-04-12", Active).
Proof.
  assert (Hparse : parse_journey_date "2024-03-15T10:00:00Z"
                   = Ok (Some (Dt.mk_datetime (Dt.mk_civil 2024 3 15 10 0 0 0) (Some 0))))
    by (vm_compute; reflexivity).
  split; [exact Hparse | split].
  - eapply get_claim_deadline_aware; [exact Hparse | reflexivity].
  - vm_compute. reflexivity.
Qed.

(** ** Stable sort: the result is a rearrangement *)

Section StableSortPerm.
Context {A : Type} (ltb : A -> A -> bool).

Lemma insert_sorted_perm (x : A) (l : list A) :
  insert_sorted ltb x l ≡ₚ x :: l.
Proof.
  induction l as [| y l IH]; cbn; [reflexivity |].
  destruct (ltb y x); [| reflexivity].
  rewrite IH. apply Permutation_swap.
Qed.

Lemma stable_sort_perm (l : list A) : stable_sort ltb l ≡ₚ l.
Proof.
  induction l as [| x l IH]; cbn; [reflexivity |].
  now rewrite insert_sorted_perm, IH.
Qed.

End StableSortPerm.

(** ** Opportunity aggregator *)

Lemma truthy_nonempty (s : string) : Str.truthy s = true <-> s <> "".
Proof. destruct s; cbn; split; congruence. Qed.

Lemma upper_empty (s : string) : Str.upper s = "" <-> s = "".
Proof. destruct s; cbn; split; congruence. Qed.

Lemma refunds_of_spec (emails : list Email.t) (r : Email.t) :
  r ∈ refunds_of emails <-> r ∈ emails /\ Email.category r = Refund.
Proof.
  unfold refunds_of.
  rewrite list_elem_of_In, filter_In, <- list_elem_of_In, bool_decide_eq_true.
  reflexivity.
Qed.

Lemma refunded_refs_spec (refunds : list Email.t) (ref : string) :
  ref ∈ refunded_refs_of refunds <->
  exists r b', r ∈ refunds /\ Email.booking_ref r = Some b' /\ b' <> "" /\
               ref = Str.upper b'.
Proof.
  unfold refunded_refs_of. rewrite elem_of_list_to_set, list_elem_of_omap.
  split.
  - intros (r & Hr & Hsome). exists r.
    destruct (Email.booking_ref r) as [b' |]; cbn in Hsome; [| discriminate].
    destruct (Str.truthy b') eqn:Ht; [| discriminate].
    exists b'. injection Hsome as <-.
    repeat split; try assumption. now apply truthy_nonempty.
  - intros (r & b' & Hr & Hb & Hne & ->). exists r. split; [assumption |].
    rewrite Hb. cbn. apply truthy_nonempty in Hne. now rewrite Hne.
Qed.

Lemma already_claimed_spec (emails : list Email.t) (delay : Email.t) :
  already_claimed (refunded_refs_of (refunds_of emails)) delay = true
  <-> spec_already_claimed emails delay.
Proof.
  unfold already_claimed, spec_already_claimed.
  rewrite andb_true_iff, bool_decide_eq_true, truthy_nonempty, refunded_refs_spec.
  split.
  - intros (Hne & r & b' & Hr & Hb' & _ & Heq).
    destruct (Email.booking_ref delay) as [b |]; [| now cbn in Hne].
    apply refunds_of_spec in Hr as [Hr Hcat].
    exists b, r, b'. cbn in Hne, Heq. repeat split; assumption.
  - intros (b & r & b' & Hb & Hne & Hr & Hcat & Hb' & Heq).
    rewrite Hb. cbn. split; [assumption |].
    exists r, b'. repeat split; try assumption.
    + apply refunds_of_spec. now split.
    + intros ->. now rewrite Heq in Hne.
Qed.

(** [calculate_refund] returns, either nothing or one of the three
    percentages with the amount rounded from it. *)
Lemma calculate_refund_cases
    (delay_mins : option Z) (price : option float) (operator : option string) :
  calculate_refund delay_mins price operator = Ok (None, None) \/
  exists p pct n,
    price = Some p /\
    (pct, n) ∈ [(pct_25, 25); (pct_50, 50); (pct_100, 100)] /\
    calculate_refund delay_mins price operator
    = Ok (Some (F64.round2 (F64.mul p pct)), Some n).
Proof.
  unfold calculate_refund.
  destruct (negb _ || negb _); [now left |].
  destruct delay_mins as [d |]; [| now left].
  destruct price as [p |]; [| now left].
  rewrite items_desc_select.
  destruct (bool_decide _); [| destruct (operator_in _ _)].
  - cbn [refund_loop]. rewrite pct_int_100.
    destruct (15 <=? d); [| now left].
    right. exists p, pct_100, 100. repeat split. set_solver.
  - rewrite refund_loop_dr15.
    destruct (60 <=? d); [| destruct (30 <=? d); [| destruct (15 <=? d)]].
    + right. exists p, pct_100, 100. repeat split. set_solver.
    + right. exists p, pct_50, 50. repeat split. set_solver.
    + right. exists p, pct_25, 25. repeat split. set_solver.
    + now left.
  - rewrite refund_loop_standard.
    destruct (60 <=? d); [| destruct (30 <=? d); [| destruct (15 <=? d)]].
    + right. exists p, pct_100, 100. repeat split. set_solver.
    + right. exists p, pct_50, 50. repeat split. set_solver.
    + right. exists p, pct_25, 25. repeat split. set_solver.
    + now left.
Qed.

Lemma calculate_refund_returns
    (delay_mins : option Z) (price : option float) (operator : option string) :
  exists r, calculate_refund delay_mins price operator = Ok r.
Proof.
  destruct (calculate_refund_cases delay_mins price operator)
    as [-> | (p & pct & n & _ & _ & ->)]; eauto.
Qed.

(** The opportunity of a candidate: what each field is. *)
Lemma make_opportunity_fields (clock : Dt.civil) (delay : Email.t) :
  exists refund due,
    calculate_refund (Email.delay_mins delay) (Email.price delay)
      (Some (default "Unknown" (Email.operator delay))) = Ok refund /\
    make_opportunity clock delay
    = Ok (Opp.mk (Email.date delay)
            (if str_truthy (Email.journey_date delay)
             then default "" (Email.journey_date delay) else Email.date delay)
            (default "Unknown" (Email.operator delay)) (Email.booking_ref delay)
            (Email.origin delay) (Email.destination delay)
            (Email.price delay) (Email.delay_mins delay)
            (fst refund) (snd refund) (fst due) (snd due)
            (confidence_of delay (Email.delay_mins delay) (Email.price delay))
            (Str.take 80 (Email.subject delay)) (Email.category delay)).
Proof.
  unfold make_opportunity.
  destruct (calculate_refund_returns (Email.delay_mins delay) (Email.price delay)
              (Some (default "Unknown" (Email.operator delay)))) as [refund Hr].
  rewrite Hr. cbn [mbind result_bind].
  match goal with
  | |- context [get_claim_deadline ?o ?j ?c] =>
      destruct (get_claim_deadline_returns o j c) as [due Hd]; rewrite Hd
  end.
  exists refund, due. split; reflexivity.
Qed.

(** The loop returns, with one opportunity for each candidate that is not
    already claimed, in the order of the candidates. *)
Lemma build_opportunities_spec
    (refs : gset string) (clock : nat -> Dt.civil) (k : nat) (delays : list Email.t) :
  exists made,
    build_opportunities refs clock k delays = Ok made /\
    Forall2 (made_from clock)
      (List.filter (fun d => negb (already_claimed refs d)) delays) made.
Proof.
  revert k. induction delays as [| d delays IH]; intros k; cbn.
  - exists []. split; [reflexivity | constructor].
  - destruct (already_claimed refs d); cbn [negb].
    + apply IH.
    + destruct (IH (S k)) as (made & Hb & Hall).
      destruct (make_opportunity_fields (clock k) d) as (refund & due & _ & Hm).
      rewrite Hm, Hb. cbn [mbind result_bind].
      eexists. split; [reflexivity |].
      constructor; [| exact Hall]. now exists k.
Qed.

Lemma Forall2_source {A B : Type} (R : A -> B -> Prop) (l1 : list A) (l2 : list B) (y : B) :
  Forall2 R l1 l2 -> y ∈ l2 -> exists x, x ∈ l1 /\ R x y.
Proof.
  induction 1 as [| x y' l1 l2 HR _ IH]; intros Hy.
  - now apply elem_of_nil in Hy.
  - apply elem_of_cons in Hy as [-> | Hy].
    + exists x. split; [apply list_elem_of_here | assumption].
    + destruct (IH Hy) as (x' & Hx' & HR'). exists x'.
      split; [now apply list_elem_of_further | assumption].
Qed.

(** The scan returns: the sorted list of the opportunities made from the
    candidates that are not already claimed. *)
Lemma scan_opportunities_spec (emails : list Email.t) (clock : nat -> Dt.civil) :
  exists made,
    scan_opportunities emails clock = Ok (sort_opportunities made) /\
    Forall2 (made_from clock)
      (List.filter
         (fun d => negb (already_claimed (refunded_refs_of (refunds_of emails)) d))
         (delays_of emails))
      made.
Proof.
  unfold scan_opportunities.
  destruct (build_opportunities_spec (refunded_refs_of (refunds_of emails)) clock 0
              (delays_of emails)) as (made & Hb & Hall).
  exists made. rewrite Hb. split; [reflexivity | exact Hall].
Qed.

Lemma sort_opportunities_perm (l : list Opp.t) : sort_opportunities l ≡ₚ l.
Proof. apply stable_sort_perm. Qed.

(** C3.  The scan returns the opportunities made, one each, from the delay
    candidates that are not already claimed, where a candidate is already
    claimed exactly when its booking reference, upper-cased and not empty,
    is the upper-cased booking reference of a refund record of the same
    scan; no opportunity of the result carries such a booking reference. *)
Theorem scan_excludes_refunded (emails : list Email.t) (clock : nat -> Dt.civil) :
  let claimed := already_claimed (refunded_refs_of (refunds_of emails)) in
  (forall d, claimed d = true <-> spec_already_claimed emails d) /\
  exists opportunities made,
    scan_opportunities emails clock = Ok opportunities /\
    opportunities ≡ₚ made /\
    Forall2 (made_from clock)
      (List.filter (fun d => negb (claimed d)) (delays_of emails)) made /\
    forall o b r b',
      o ∈ opportunities -> Opp.booking_ref o = Some b -> Str.upper b <> "" ->
      r ∈ emails -> Email.category r = Refund -> Email.booking_ref r = Some b' ->
      Str.upper b <> Str.upper b'.
Proof.
  intros claimed. split; [intros d; apply already_claimed_spec |].
  destruct (scan_opportunities_spec emails clock) as (made & Hscan & Hall).
  exists (sort_opportunities made), made.
  split; [exact Hscan |]. split; [apply sort_opportunities_perm |].
  split; [exact Hall |].
  intros o b r b' Ho Hb Hne Hr Hcat Hb' Heq.
  rewrite sort_opportunities_perm in Ho.
  destruct (Forall2_source _ _ _ _ Hall Ho) as (d & Hd & (k & Hmade)).
  apply list_elem_of_In, filter_In in Hd as [_ Hnot].
  apply negb_true_iff in Hnot.
  assert (Hclaimed : claimed d = true).
  { apply already_claimed_spec. exists b, r, b'.
    destruct (make_opportunity_fields (clock k) d) as (refund & due & _ & Hm).
    rewrite Hm in Hmade. injection Hmade as <-. cbn in Hb.
    repeat split; assumption. }
  unfold claimed in Hclaimed. congruence.
Qed.

(** The delay with reference "ABC1234" and the refund with reference
    "abc1234": nothing is offered. *)
Example scan_dedup_case_insensitive :
  let delay := Email.mk "" "" "Delayed" (Some "ABC1234") None None (Some 45)
                 None None None Delay in
  let refund := Email.mk "" "" "Refund" (Some "abc1234") None None None
                  None None None Refund in
  forall clock, scan_opportunities [delay; refund] clock = Ok [].
Proof. intros delay refund clock. reflexivity. Qed.

Lemma str_truthy_has_ref (delay : Email.t) :
  str_truthy (Email.booking_ref delay) = true <-> has_ref delay.
Proof.
  unfold has_ref. destruct (Email.booking_ref delay) as [b |]; cbn.
  - rewrite truthy_nonempty. split; [eauto | intros (b' & [= <-] & H); exact H].
  - split; [discriminate | intros (b' & H & _); discriminate].
Qed.

Lemma int_truthy_has_delay (delay : Email.t) :
  int_truthy (Email.delay_mins delay) = true <-> has_delay delay.
Proof.
  unfold has_delay. destruct (Email.delay_mins delay) as [n |]; cbn.
  - rewrite negb_true_iff, Z.eqb_neq.
    split; [eauto | intros (n' & [= <-] & H); exact H].
  - split; [discriminate | intros (n' & H & _); discriminate].
Qed.

Lemma float_truthy_has_price (delay : Email.t) :
  float_truthy (Email.price delay) = true <-> has_price delay.
Proof.
  unfold has_price. destruct (Email.price delay) as [p |]; cbn.
  - unfold F64.truthy. rewrite negb_true_iff.
    split; [eauto | intros (p' & [= <-] & H); exact H].
  - split; [discriminate | intros (p' & H & _); discriminate].
Qed.

(** C9 (amended).  The confidence of the opportunity made from a candidate
    is high exactly when the candidate has a booking reference that is not
    empty, a delay that is not zero and a price that is not zero; medium
    exactly when it has such a booking reference and such a delay but no
    such price; low otherwise.  A field that is extracted with the value
    zero counts as absent. *)
Theorem confidence_by_truthiness (clock : nat -> Dt.civil) (delay : Email.t) (o : Opp.t) :
  made_from clock delay o ->
  (Opp.confidence o = High <-> has_ref delay /\ has_delay delay /\ has_price delay) /\
  (Opp.confidence o = Medium <-> has_ref delay /\ has_delay delay /\ ~ has_price delay) /\
  (Opp.confidence o = Low <-> ~ (has_ref delay /\ has_delay delay)).
Proof.
  intros (k & Hmade).
  destruct (make_opportunity_fields (clock k) delay) as (refund & due & _ & Hm).
  rewrite Hm in Hmade. injection Hmade as <-. clear Hm. cbn [Opp.confidence].
  rewrite <- str_truthy_has_ref, <- int_truthy_has_delay, <- float_truthy_has_price.
  unfold confidence_of.
  destruct (str_truthy (Email.booking_ref delay)),
    (int_truthy (Email.delay_mins delay)), (float_truthy (Email.price delay)); cbn;
    intuition congruence.
Qed.

(** A candidate with the reference "LN123456", 45 minutes and 45.00. *)
Lemma confidence_by_truthiness_witness :
  let delay := Email.mk "Fri, 15 Mar 2024 10:00:00 +0000" "info@lner.co.uk" "Delayed"
                 (Some "LN123456") (Some (F64.of_decimal 4500 2)) (Some "15/03/2024")
                 (Some 45) None None (Some "LNER") Delay in
  let clock := fun _ : nat => Dt.mk_civil 2024 4 1 9 0 0 0 in
  exists o, made_from clock delay o /\ Opp.confidence o = High.
Proof.
  intros delay clock.
  destruct (make_opportunity_fields (clock 0%nat) delay) as (refund & due & _ & Hm).
  eexists. 
  assert (Hmade : made_from clock delay _) by (exists 0%nat; exact Hm).
  split; [exact Hmade |].
  apply (confidence_by_truthiness clock delay _ Hmade).
  repeat split.
  - exists "LN123456". split; [reflexivity | discriminate].
  - exists 45. split; [reflexivity | lia].
  - exists (F64.of_decimal 4500 2). split; reflexivity.
Defined.

(** The claim as stated counts a field that is extracted with the value
    zero: in a notice with a reference, "45 minutes late" and "Paid £0.00"
    all three fields are extracted, and the confidence is medium, not
    high. *)
Lemma confidence_zero_price_is_medium :
  let msg := Message.mk "LNER <info@lner.co.uk>" "Your train was delayed"
               "Fri, 15 Mar 2024 10:00:00 +0000"
               "Ref: LN123456. Your journey 15/03/2024 was 45 minutes late. Paid £0.00" in
  let clock := fun _ : nat => Dt.mk_civil 2024 4 1 9 0 0 0 in
  Email.booking_ref (enrich msg) = Some "LN123456" /\
  Email.delay_mins (enrich msg) = Some 45 /\
  Email.price (enrich msg) = Some (F64.of_decimal 0 2) /\
  spec_confidence_present (enrich msg) = High /\
  exists o, scan [msg] clock = Ok [o] /\ made_from clock (enrich msg) o /\
            Opp.confidence o = Medium /\
            Opp.confidence o <> spec_confidence_present (enrich msg).
Proof.
  intros msg clock.
  repeat (split; [vm_compute; reflexivity |]).
  eexists. split; [vm_compute; reflexivity |].
  split; [exists 0%nat; vm_compute; reflexivity |].
  split; [reflexivity | vm_compute; discriminate].
Qed.

Lemma int_truediv_percentages :
  F64.int_truediv 25 100 = pct_25 /\
  F64.int_truediv 50 100 = pct_50 /\
  F64.int_truediv 100 100 = pct_100.
Proof. repeat split; vm_compute; reflexivity. Qed.

(** C10.  In every opportunity of a scan [refund_amount] and [refund_pct]
    are both absent or both present; when present, the percentage is 25, 50
    or 100, the price is present, and the amount is
    [round(price * (refund_pct / 100), 2)]. *)
Theorem refund_amount_pct_paired (emails : list Email.t) (clock : nat -> Dt.civil) :
  exists opportunities,
    scan_opportunities emails clock = Ok opportunities /\
    forall o, o ∈ opportunities ->
      (Opp.refund_amount o = None /\ Opp.refund_pct o = None) \/
      (exists a n p,
          Opp.refund_amount o = Some a /\ Opp.refund_pct o = Some n /\
          n ∈ [25; 50; 100] /\ Opp.price o = Some p /\
          a = F64.round2 (F64.mul p (F64.int_truediv n 100))).
Proof.
  destruct (scan_opportunities_spec emails clock) as (made & Hscan & Hall).
  exists (sort_opportunities made). split; [exact Hscan |].
  intros o Ho. rewrite sort_opportunities_perm in Ho.
  destruct (Forall2_source _ _ _ _ Hall Ho) as (d & _ & (k & Hmade)).
  destruct (make_opportunity_fields (clock k) d) as (refund & due & Hr & Hm).
  rewrite Hm in Hmade. injection Hmade as <-. clear Hm.
  cbn [Opp.refund_amount Opp.refund_pct Opp.price].
  destruct (calculate_refund_cases (Email.delay_mins d) (Email.price d)
              (Some (default "Unknown" (Email.operator d))))
    as [Hnone | (p & pct & n & Hp & Hin & Hsome)].
  - left. rewrite Hnone in Hr. injection Hr as <-. split; reflexivity.
  - right. rewrite Hsome in Hr. injection Hr as <-. cbn [fst snd].
    destruct int_truediv_percentages as (H25 & H50 & H100).
    exists (F64.round2 (F64.mul p pct)), n, p.
    tier_membership.
    + rewrite H25. repeat split; [set_solver | assumption].
    + rewrite H50. repeat split; [set_solver | assumption].
    + rewrite H100. repeat split; [set_solver | assumption].
Qed.

(** ** Lexicographic order on tuples of integers *)

Lemma lex_ltb_irrefl (a : list Z) : lex_ltb a a = false.
Proof.
  induction a as [| x a IH]; cbn; [reflexivity |].
  now rewrite Z.ltb_irrefl, Z.eqb_refl, IH.
Qed.

Lemma lex_ltb_asym (a b : list Z) : lex_ltb a b = true -> lex_ltb b a = false.
Proof.
  revert b. induction a as [| x a IH]; intros [| y b]; cbn; try congruence.
  intros H. apply orb_true_iff in H as [H | H].
  - apply Z.ltb_lt in H.
    rewrite (proj2 (Z.ltb_ge y x)) by lia. rewrite (proj2 (Z.eqb_neq y x)) by lia.
    reflexivity.
  - apply andb_true_iff in H as [Hxy H]. apply Z.eqb_eq in Hxy as ->.
    rewrite Z.ltb_irrefl, Z.eqb_refl. cbn. now apply IH.
Qed.

(** "Not greater" is transitive. *)
Lemma lex_leb_trans (a b c : list Z) :
  lex_ltb b a = false -> lex_ltb c b = false -> lex_ltb c a = false.
Proof.
  revert b c. induction a as [| x a IH]; intros [| y b] [| z c]; cbn; try congruence.
  intros Hba Hcb.
  apply orb_false_iff in Hba as [Hyx Hba]. apply orb_false_iff in Hcb as [Hzy Hcb].
  apply Z.ltb_ge in Hyx, Hzy.
  apply orb_false_iff. split; [apply Z.ltb_ge; lia |].
  destruct (Z.eqb_spec z x) as [-> | Hne]; [| reflexivity].
  assert (y = x) as -> by lia. rewrite Z.eqb_refl in Hba, Hcb. cbn in *.
  now apply (IH b c).
Qed.

Lemma lex_ltb_total (a b : list Z) :
  length a = length b -> lex_ltb a b = false -> lex_ltb b a = false -> a = b.
Proof.
  revert b. induction a as [| x a IH]; intros [| y b]; cbn; try congruence.
  intros Hlen Hab Hba.
  apply orb_false_iff in Hab as [Hxy Hab]. apply orb_false_iff in Hba as [Hyx Hba].
  apply Z.ltb_ge in Hxy, Hyx. assert (x = y) as -> by lia.
  rewrite Z.eqb_refl in Hab, Hba. cbn in *. f_equal. apply IH; congruence.
Qed.

Lemma lex_ltb_app (p1 p2 r1 r2 : list Z) :
  length p1 = length p2 ->
  lex_ltb (p1 ++ r1) (p2 ++ r2)
  = lex_ltb p1 p2 || (negb (lex_ltb p1 p2) && negb (lex_ltb p2 p1) && lex_ltb r1 r2).
Proof.
  revert p2. induction p1 as [| x p1 IH]; intros [| y p2]; cbn; try congruence.
  intros Hlen. rewrite IH by congruence.
  destruct (Z.ltb_spec x y), (Z.ltb_spec y x), (Z.eqb_spec x y), (Z.eqb_spec y x);
    try lia; cbn; try reflexivity;
    destruct (lex_ltb p1 p2), (lex_ltb p2 p1); reflexivity.
Qed.

Lemma lex_ltb_opp (a b : list Z) :
  length a = length b ->
  lex_ltb (List.map Z.opp a) (List.map Z.opp b) = lex_ltb b a.
Proof.
  revert b. induction a as [| x a IH]; intros [| y b]; cbn; try congruence.
  intros Hlen. rewrite IH by congruence.
  destruct (Z.ltb_spec (- x) (- y)), (Z.ltb_spec y x); try lia;
    destruct (Z.eqb_spec (- x) (- y)), (Z.eqb_spec y x); try lia; reflexivity.
Qed.

(** ** The order of the doubles *)

Ltac z_compare :=
  repeat match goal with
    | |- context [Pos.compare_cont Eq ?a ?b] =>
        change (Pos.compare_cont Eq a b) with (Pos.compare a b)
    | |- context [(?a ?= ?b)%positive] =>
        destruct (Pos.compare_spec a b); try subst; try lia
    | |- context [?a ?= ?b] => destruct (Z.compare_spec a b); try subst; try lia
    | |- context [?a <? ?b] => destruct (Z.ltb_spec a b); try lia
    | |- context [?a =? ?b] => destruct (Z.eqb_spec a b); try lia
    end;
  cbn; try reflexivity; try lia.

Lemma float_code_length (x : float) : length (float_code x) = 3%nat.
Proof. destruct x as [[] | [] | | [] m e]; reflexivity. Qed.

Lemma float_ltb_code (x y : float) :
  F64.is_nan x = false -> F64.is_nan y = false ->
  F64.ltb x y = lex_ltb (float_code x) (float_code y).
Proof.
  destruct x as [[] | [] | | [] m e]; try discriminate;
    destruct y as [[] | [] | | [] m' e']; try discriminate; intros _ _;
    try reflexivity;
    unfold F64.ltb, SFltb, SFcompare; cbn [float_code lex_ltb]; z_compare.
Qed.

Lemma float_eqb_code (x y : float) :
  F64.is_nan x = false -> F64.is_nan y = false ->
  F64.eqb x y
  = negb (lex_ltb (float_code x) (float_code y))
    && negb (lex_ltb (float_code y) (float_code x)).
Proof.
  destruct x as [[] | [] | | [] m e]; try discriminate;
    destruct y as [[] | [] | | [] m' e']; try discriminate; intros _ _;
    try reflexivity;
    unfold F64.eqb, SFeqb, SFcompare; cbn [float_code lex_ltb]; z_compare.
Qed.

Lemma float_code_neg (x : float) :
  F64.is_nan x = false -> float_code (F64.neg x) = List.map Z.opp (float_code x).
Proof.
  destruct x as [[] | [] | | [] m e]; try discriminate; intros _; cbn;
    try reflexivity; now rewrite ?Z.opp_involutive.
Qed.

(** ** Rounding never yields NaN *)

Lemma shr_1_nonneg (mrs : shr_record) : 0 <= shr_m mrs -> 0 <= shr_m (shr_1 mrs).
Proof.
  destruct mrs as [m r s]. cbn. destruct m as [| [p | p |] | p]; cbn; lia.
Qed.

Lemma iter_shr_1_nonneg (p : positive) (mrs : shr_record) :
  0 <= shr_m mrs -> 0 <= shr_m (SpecFloat.iter_pos shr_1 p mrs).
Proof.
  revert mrs. induction p as [p IH | p IH |]; intros mrs H; cbn.
  - apply IH, IH. now apply shr_1_nonneg.
  - now apply IH, IH.
  - now apply shr_1_nonneg.
Qed.

Lemma shr_fexp_nonneg (m e : Z) (l : location) :
  0 <= m -> 0 <= shr_m (fst (shr_fexp F64.prec F64.emax m e l)).
Proof.
  intros H. unfold shr_fexp, shr.
  assert (H0 : 0 <= shr_m (shr_record_of_loc m l)).
  { destruct l as [| []]; exact H. }
  destruct (fexp _ _ _ - e); cbn [fst]; try assumption.
  now apply iter_shr_1_nonneg.
Qed.

Lemma round_nearest_even_nonneg (m : Z) (l : location) :
  0 <= m -> 0 <= round_nearest_even m l.
Proof.
  intros H. destruct l as [| []]; cbn; try lia. destruct (Z.even m); lia.
Qed.

Lemma binary_round_aux_not_nan (s : bool) (m e : Z) (l : location) :
  0 <= m -> F64.is_nan (binary_round_aux F64.prec F64.emax s m e l) = false.
Proof.
  intros H. unfold binary_round_aux.
  pose proof (shr_fexp_nonneg m e l H) as H1.
  destruct (shr_fexp F64.prec F64.emax m e l) as [mrs' e']. cbn [fst] in H1.
  pose proof (shr_fexp_nonneg _ e' loc_Exact
                (round_nearest_even_nonneg _ (loc_of_shr_record mrs') H1)) as H2.
  destruct (shr_fexp F64.prec F64.emax _ e' loc_Exact) as [mrs'' e'']. cbn [fst] in H2.
  destruct (shr_m mrs''); [reflexivity | | lia].
  now destruct (_ <=? _).
Qed.

Lemma of_quotient_not_nan (s : bool) (n d : positive) :
  F64.is_nan (F64.of_quotient s n d) = false.
Proof.
  unfold F64.of_quotient, SFdiv_core_binary.
  set (m' := match _ with Z.pos _ => _ | _ => _ end).
  assert (Hm : 0 <= m').
  { subst m'. destruct (_ - _ - _); try lia. apply Z.shiftl_nonneg. lia. }
  pose proof (Z.div_pos m' (Z.pos d) Hm ltac:(lia)) as Hq.
  unfold Z.div in Hq. destruct (Z.div_eucl m' (Z.pos d)) as [q r].
  now apply binary_round_aux_not_nan.
Qed.

Lemma round2_not_nan (x : float) :
  F64.is_nan x = false -> F64.is_nan (F64.round2 x) = false.
Proof.
  destruct x as [s | s | | s m e]; cbn; try congruence. intros _.
  destruct (F64.hundredths m e); try reflexivity. apply of_quotient_not_nan.
Qed.

Lemma mul_pct_not_nan (p pct : float) :
  F64.is_nan p = false -> pct ∈ [pct_25; pct_50; pct_100] ->
  F64.is_nan (F64.mul p pct) = false.
Proof.
  intros Hp Hin. destruct pct_values as (H25 & H50 & H100).
  rewrite H25, H50, H100 in Hin.
  assert (exists m e, pct = S754_finite false m e) as (m & e & ->).
  { repeat (apply elem_of_cons in Hin as [-> | Hin]; [eauto |]).
    now apply elem_of_nil in Hin. }
  destruct p as [s | s | | s m' e']; try discriminate; try reflexivity.
  unfold F64.mul, SFmul. apply binary_round_aux_not_nan. lia.
Qed.

(** ** Stable sort: the result is sorted, and ties keep their order *)

Section StableSortOrder.
Context {A : Type} (ltb : A -> A -> bool) (P : A -> Prop).

(** [ltb] is a strict weak order on the elements that satisfy [P]. *)
Hypothesis ltb_asym : forall x y, P x -> P y -> ltb x y = true -> ltb y x = false.
Hypothesis leb_trans :
  forall x y z, P x -> P y -> P z ->
                ltb y x = false -> ltb z y = false -> ltb z x = false.

Lemma insert_sorted_Forall (Q : A -> Prop) (x : A) (l : list A) :
  Q x -> Forall Q l -> Forall Q (insert_sorted ltb x l).
Proof.
  intros Hx Hl.
  eapply Permutation_Forall; [symmetry; apply insert_sorted_perm | now constructor].
Qed.

Lemma stable_sort_Forall (Q : A -> Prop) (l : list A) :
  Forall Q l -> Forall Q (stable_sort ltb l).
Proof.
  intros Hl.
  eapply Permutation_Forall; [symmetry; apply stable_sort_perm | exact Hl].
Qed.

Lemma insert_sorted_sorted (x : A) (l : list A) :
  P x -> Forall P l -> StronglySorted (not_after ltb) l ->
  StronglySorted (not_after ltb) (insert_sorted ltb x l).
Proof.
  intros Hx. induction l as [| y l IH]; intros HP Hs; cbn.
  - constructor; constructor.
  - apply Forall_cons_1 in HP as [Hy HP]. apply StronglySorted_inv in Hs as [Hs Hy_le].
    destruct (ltb y x) eqn:Hyx.
    + constructor; [now apply IH |].
      apply insert_sorted_Forall; [| exact Hy_le].
      unfold not_after. now apply ltb_asym.
    + constructor; [now constructor |].
      constructor; [exact Hyx |].
      rewrite Forall_forall in Hy_le, HP |- *. intros z Hz.
      unfold not_after. apply (leb_trans x y z); auto. now apply Hy_le.
Qed.

Lemma stable_sort_sorted (l : list A) :
  Forall P l -> StronglySorted (not_after ltb) (stable_sort ltb l).
Proof.
  induction l as [| x l IH]; intros HP; cbn; [constructor |].
  apply Forall_cons_1 in HP as [Hx HP].
  apply insert_sorted_sorted; [assumption | now apply stable_sort_Forall | now apply IH].
Qed.

Lemma insert_sorted_stable (z x : A) (l : list A) :
  P z -> P x -> Forall P l ->
  List.filter (equivb ltb z) (insert_sorted ltb x l)
  = List.filter (equivb ltb z) (x :: l).
Proof.
  intros Hz Hx. induction l as [| y l IH]; intros HP; [reflexivity |].
  apply Forall_cons_1 in HP as [Hy HP].
  cbn [insert_sorted]. destruct (ltb y x) eqn:Hyx; [| reflexivity].
  cbn [List.filter]. rewrite (IH HP). cbn [List.filter].
  destruct (equivb ltb z y) eqn:Ezy, (equivb ltb z x) eqn:Ezx; try reflexivity.
  unfold equivb in Ezy, Ezx.
  apply andb_true_iff in Ezy as [_ Hyz], Ezx as [Hzx _].
  apply negb_true_iff in Hyz, Hzx.
  rewrite (leb_trans x z y) in Hyx by assumption. discriminate.
Qed.

Lemma stable_sort_stable (z : A) (l : list A) :
  P z -> Forall P l ->
  List.filter (equivb ltb z) (stable_sort ltb l) = List.filter (equivb ltb z) l.
Proof.
  intros Hz. induction l as [| x l IH]; intros HP; [reflexivity |].
  apply Forall_cons_1 in HP as [Hx HP]. cbn [stable_sort].
  rewrite insert_sorted_stable by (try assumption; now apply stable_sort_Forall).
  cbn [List.filter]. now rewrite (IH HP).
Qed.

End StableSortOrder.

(** ** The sort key *)

Lemma neg_amount_number (o : Opp.t) :
  amount_is_number o -> F64.is_nan (neg_amount o) = false.
Proof.
  unfold amount_is_number, neg_amount. intros H.
  destruct (Opp.refund_amount o) as [a |]; [| reflexivity].
  specialize (H a eq_refl). destruct (F64.truthy a); [| reflexivity].
  now destruct a.
Qed.

Lemma amount_or_zero_number (o : Opp.t) :
  amount_is_number o -> F64.is_nan (amount_or_zero o) = false.
Proof.
  unfold amount_is_number, amount_or_zero. intros H.
  destruct (Opp.refund_amount o) as [a |]; [| reflexivity].
  specialize (H a eq_refl). now destruct (F64.truthy a).
Qed.

Lemma neg_amount_code (o : Opp.t) :
  amount_is_number o ->
  float_code (neg_amount o) = List.map Z.opp (float_code (amount_or_zero o)).
Proof.
  unfold amount_is_number, neg_amount, amount_or_zero. intros H.
  destruct (Opp.refund_amount o) as [a |]; [| reflexivity].
  specialize (H a eq_refl). destruct (F64.truthy a); [| reflexivity].
  now apply float_code_neg.
Qed.

Lemma neg_amount_ltb (o1 o2 : Opp.t) :
  amount_is_number o1 -> amount_is_number o2 ->
  F64.ltb (neg_amount o1) (neg_amount o2)
  = F64.ltb (amount_or_zero o2) (amount_or_zero o1).
Proof.
  intros H1 H2.
  rewrite !float_ltb_code by auto using neg_amount_number, amount_or_zero_number.
  rewrite !neg_amount_code by assumption.
  apply lex_ltb_opp. now rewrite !float_code_length.
Qed.

Lemma neg_amount_eqb (o1 o2 : Opp.t) :
  amount_is_number o1 -> amount_is_number o2 ->
  F64.eqb (neg_amount o1) (neg_amount o2)
  = F64.eqb (amount_or_zero o1) (amount_or_zero o2).
Proof.
  intros H1 H2.
  rewrite !float_eqb_code by auto using neg_amount_number, amount_or_zero_number.
  rewrite !neg_amount_code by assumption.
  rewrite !lex_ltb_opp by now rewrite !float_code_length.
  apply andb_comm.
Qed.

Lemma float_eqb_sym (x y : float) :
  F64.is_nan x = false -> F64.is_nan y = false -> F64.eqb x y = F64.eqb y x.
Proof. intros Hx Hy. rewrite !float_eqb_code by assumption. apply andb_comm. Qed.

Lemma float_ltb_total (x y : float) :
  F64.is_nan x = false -> F64.is_nan y = false ->
  F64.eqb x y = false -> F64.ltb x y = false -> F64.ltb y x = true.
Proof.
  intros Hx Hy. rewrite float_eqb_code, !float_ltb_code by assumption.
  intros He Hl. rewrite Hl in He. cbn in He. now apply negb_false_iff in He.
Qed.

Lemma float_ltb_not_eqb (x y : float) :
  F64.is_nan x = false -> F64.is_nan y = false ->
  F64.ltb x y = true -> F64.eqb x y = false.
Proof.
  intros Hx Hy. rewrite float_eqb_code, !float_ltb_code by assumption.
  now intros ->.
Qed.

(** The comparison of two keys is the lexicographic comparison of their
    codes. *)
Lemma key_ltb_code (o1 o2 : Opp.t) :
  amount_is_number o1 -> amount_is_number o2 ->
  key_ltb (sort_key o1) (sort_key o2)
  = lex_ltb (key_code (sort_key o1)) (key_code (sort_key o2)).
Proof.
  intros H1 H2. unfold sort_key, key_ltb, key_code.
  rewrite lex_ltb_app by now rewrite !float_code_length.
  rewrite float_eqb_code, float_ltb_code by now apply neg_amount_number.
  cbn [lex_ltb].
  set (c1 := confidence_rank (Opp.confidence o1)).
  set (c2 := confidence_rank (Opp.confidence o2)).
  set (s1 := status_rank (Opp.deadline_status o1)).
  set (s2 := status_rank (Opp.deadline_status o2)).
  destruct (lex_ltb (float_code (neg_amount o1)) (float_code (neg_amount o2))) eqn:L12.
  - reflexivity.
  - destruct (lex_ltb (float_code (neg_amount o2)) (float_code (neg_amount o1)));
      cbn; [reflexivity |].
    destruct (Z.eqb_spec c1 c2), (Z.ltb_spec c1 c2), (Z.ltb_spec s1 s2),
      (Z.eqb_spec s1 s2); cbn; try reflexivity; lia.
Qed.

Lemma key_ltb_asym (o1 o2 : Opp.t) :
  amount_is_number o1 -> amount_is_number o2 ->
  key_ltb (sort_key o1) (sort_key o2) = true ->
  key_ltb (sort_key o2) (sort_key o1) = false.
Proof.
  intros H1 H2. rewrite !key_ltb_code by assumption. apply lex_ltb_asym.
Qed.

Lemma key_leb_trans (o1 o2 o3 : Opp.t) :
  amount_is_number o1 -> amount_is_number o2 -> amount_is_number o3 ->
  key_ltb (sort_key o2) (sort_key o1) = false ->
  key_ltb (sort_key o3) (sort_key o2) = false ->
  key_ltb (sort_key o3) (sort_key o1) = false.
Proof.
  intros H1 H2 H3. rewrite !key_ltb_code by assumption. apply lex_leb_trans.
Qed.

(** Not being after in the order of the keys is the order of the
    specification. *)
Lemma not_after_spec_before (o1 o2 : Opp.t) :
  amount_is_number o1 -> amount_is_number o2 ->
  key_ltb (sort_key o2) (sort_key o1) = false -> spec_before o1 o2.
Proof.
  intros H1 H2. unfold sort_key, key_ltb, spec_before.
  rewrite neg_amount_eqb, neg_amount_ltb by assumption.
  pose proof (amount_or_zero_number o1 H1) as N1.
  pose proof (amount_or_zero_number o2 H2) as N2.
  rewrite (float_eqb_sym _ _ N2 N1).
  destruct (F64.eqb (amount_or_zero o1) (amount_or_zero o2)) eqn:E; cbn [negb].
  - intros H. right. split; [reflexivity |].
    destruct (Opp.confidence o1), (Opp.confidence o2);
      cbn in H |- *; try discriminate H; auto;
      right; (split; [reflexivity |]);
      destruct (Opp.deadline_status o1), (Opp.deadline_status o2);
      cbn in H; try discriminate H; auto; right; discriminate.
  - intros H. left. now apply float_ltb_total.
Qed.

(** Being tied, in the order of the keys and in the words of the
    specification. *)
Lemma equivb_tied (o1 o2 : Opp.t) :
  amount_is_number o1 -> amount_is_number o2 ->
  equivb (fun a b => key_ltb (sort_key a) (sort_key b)) o1 o2 = tied o1 o2.
Proof.
  intros H1 H2. unfold equivb, sort_key, key_ltb, tied.
  rewrite !neg_amount_eqb, !neg_amount_ltb by assumption.
  pose proof (amount_or_zero_number o1 H1) as N1.
  pose proof (amount_or_zero_number o2 H2) as N2.
  rewrite (float_eqb_sym _ _ N2 N1).
  destruct (F64.eqb (amount_or_zero o1) (amount_or_zero o2)) eqn:E; cbn [negb andb].
  - destruct (Opp.confidence o1), (Opp.confidence o2),
      (Opp.deadline_status o1), (Opp.deadline_status o2); reflexivity.
  - destruct (F64.ltb (amount_or_zero o2) (amount_or_zero o1)) eqn:L21; [reflexivity |].
    rewrite (float_eqb_sym _ _ N1 N2) in E.
    now rewrite (float_ltb_total _ _ N2 N1 E L21).
Qed.

Lemma tied_nan (o1 o2 : Opp.t) :
  F64.is_nan (amount_or_zero o1) = true -> tied o1 o2 = false.
Proof.
  unfold tied. destruct (amount_or_zero o1); try discriminate. reflexivity.
Qed.

Lemma amount_number_dec (o : Opp.t) :
  amount_is_number o \/ F64.is_nan (amount_or_zero o) = true.
Proof.
  unfold amount_is_number, amount_or_zero.
  destruct (Opp.refund_amount o) as [a |].
  - destruct (F64.is_nan a) eqn:Hn.
    + right. now destruct a.
    + left. now intros ? [= <-].
  - left. discriminate.
Qed.

(** Sorting opportunities whose amounts are numbers. *)
Lemma sort_opportunities_sorted (l : list Opp.t) :
  Forall amount_is_number l ->
  sort_opportunities l ≡ₚ l /\
  StronglySorted spec_before (sort_opportunities l) /\
  forall o, List.filter (tied o) (sort_opportunities l) = List.filter (tied o) l.
Proof.
  intros HP. split; [apply sort_opportunities_perm | split].
  - pose proof (stable_sort_sorted _ amount_is_number key_ltb_asym key_leb_trans l HP)
      as Hs.
    pose proof (stable_sort_Forall (fun a b => key_ltb (sort_key a) (sort_key b))
                  amount_is_number l HP) as HPs.
    fold (sort_opportunities l) in Hs, HPs.
    induction Hs as [| o l' Hs IH Hall]; constructor.
    + apply IH. now apply Forall_inv_tail in HPs.
    + apply Forall_cons_1 in HPs as [Ho HPs].
      rewrite Forall_forall in Hall, HPs |- *. intros o' Ho'.
      apply not_after_spec_before; auto. now apply Hall.
  - intros o.
    pose proof (stable_sort_Forall (fun a b => key_ltb (sort_key a) (sort_key b))
                  amount_is_number l HP) as HPs.
    fold (sort_opportunities l) in HPs.
    set (lt := fun a b => key_ltb (sort_key a) (sort_key b)).
    destruct (amount_number_dec o) as [Ho | Hnan].
    + rewrite <- (filter_ext_in (equivb lt o) (tied o) (sort_opportunities l)).
      2:{ intros x Hx. apply equivb_tied; [assumption |].
          rewrite Forall_forall in HPs. now apply HPs, list_elem_of_In. }
      rewrite <- (filter_ext_in (equivb lt o) (tied o) l).
      2:{ intros x Hx. apply equivb_tied; [assumption |].
          rewrite Forall_forall in HP. now apply HP, list_elem_of_In. }
      apply (stable_sort_stable lt amount_is_number key_leb_trans); assumption.
    + rewrite !(filter_ext (tied o) (fun _ => false))
        by (intros x; now apply tied_nan).
      clear. generalize (sort_opportunities l).
      intros l1. induction l1; induction l; cbn; auto.
Qed.

Lemma delays_of_subset (emails : list Email.t) (d : Email.t) :
  d ∈ delays_of emails -> d ∈ emails.
Proof.
  unfold delays_of. rewrite !list_elem_of_In, filter_In. tauto.
Qed.

(** The amount of an opportunity made from a candidate whose price is a
    number is a number. *)
Lemma made_amount_is_number (clock : nat -> Dt.civil) (d : Email.t) (o : Opp.t) :
  (forall p, Email.price d = Some p -> F64.is_nan p = false) ->
  made_from clock d o -> amount_is_number o.
Proof.
  intros Hprice (k & Hmade).
  destruct (make_opportunity_fields (clock k) d) as (refund & due & Hr & Hm).
  rewrite Hm in Hmade. injection Hmade as <-. clear Hm.
  unfold amount_is_number. cbn [Opp.refund_amount].
  destruct (calculate_refund_cases (Email.delay_mins d) (Email.price d)
              (Some (default "Unknown" (Email.operator d))))
    as [Hnone | (p & pct & n & Hp & Hin & Hsome)].
  - rewrite Hnone in Hr. injection Hr as <-. discriminate.
  - rewrite Hsome in Hr. injection Hr as <-. cbn [fst].
    intros a [= <-]. apply round2_not_nan, mul_pct_not_nan; [now apply Hprice |].
    tier_membership; set_solver.
Qed.

(** The opportunities made from email records whose prices are numbers are
    returned sorted, ties in the order in which they were made. *)
Lemma scan_opportunities_sorted (emails : list Email.t) (clock : nat -> Dt.civil) :
  (forall e p, e ∈ emails -> Email.price e = Some p -> F64.is_nan p = false) ->
  exists made,
    Forall2 (made_from clock)
      (List.filter
         (fun d => negb (already_claimed (refunded_refs_of (refunds_of emails)) d))
         (delays_of emails))
      made /\
    scan_opportunities emails clock = Ok (sort_opportunities made) /\
    sort_opportunities made ≡ₚ made /\
    StronglySorted spec_before (sort_opportunities made) /\
    forall o, List.filter (tied o) (sort_opportunities made) = List.filter (tied o) made.
Proof.
  intros Hprices.
  destruct (scan_opportunities_spec emails clock) as (made & Hscan & Hall).
  exists made. split; [exact Hall |]. split; [exact Hscan |].
  apply sort_opportunities_sorted.
  rewrite Forall_forall. intros o Ho.
  destruct (Forall2_source _ _ _ _ Hall Ho) as (d & Hd & Hmade).
  apply (made_amount_is_number clock d); [| exact Hmade].
  intros p Hp. apply (Hprices d); [| exact Hp].
  apply delays_of_subset. apply list_elem_of_In, filter_In in Hd as [Hd _].
  now apply list_elem_of_In.
Qed.

(** Amounts 50, none, 100 with confidence medium, high, low: the amount
    decides, the order is 100, 50, none. *)
Example sort_amount_dominates :
  let opp := fun amount confidence =>
    Opp.mk "" "" "Unknown" None None None None None amount None None Unknown
      confidence "" Delay in
  sort_opportunities
    [ opp (Some (F64.of_decimal 5000 2)) Medium;
      opp None High;
      opp (Some (F64.of_decimal 10000 2)) Low ]
  = [ opp (Some (F64.of_decimal 10000 2)) Low;
      opp (Some (F64.of_decimal 5000 2)) Medium;
      opp None High ].
Proof. vm_compute. reflexivity. Qed.

(** ** The scan, from the messages *)

Lemma of_decimal_not_nan (digits : Z) (places : nat) :
  F64.is_nan (F64.of_decimal digits places) = false.
Proof.
  unfold F64.of_decimal. destruct digits; [reflexivity | |]; apply of_quotient_not_nan.
Qed.

Lemma read_decimal_not_nan (s : string) (digits : Z) (places : nat) (seen : bool) :
  F64.is_nan (read_decimal digits places seen s) = false.
Proof.
  revert digits places seen. induction s as [| c s IH]; intros digits places seen; cbn.
  - apply of_decimal_not_nan.
  - destruct (Ascii.eqb c "."); apply IH.
Qed.

(** A price that [extract_data] sets is a number. *)
Lemma enrich_price_number (msg : Message.t) (p : float) :
  Email.price (enrich msg) = Some p -> F64.is_nan p = false.
Proof.
  unfold enrich, extract_data. cbn [Email.price Data.price].
  destruct (first_group price_patterns _) as [s |]; cbn; [| discriminate].
  intros [= <-]. apply read_decimal_not_nan.
Qed.

(** Where [int] reads the delay of every message, the fetch loop returns
    the records of the messages. *)
Lemma fetch_loop_read (messages : list Message.t) :
  forallb message_read messages = true ->
  fetch_loop messages = Ok (List.map enrich messages).
Proof.
  induction messages as [| msg rest IH]; [reflexivity |].
  cbn [forallb fetch_loop List.map]. intros [Hmsg Hrest]%andb_prop.
  unfold email_data_of, call_extract_data. unfold message_read in Hmsg.
  rewrite Hmsg. cbn [mbind result_bind]. now rewrite (IH Hrest).
Qed.

Lemma scan_read (messages : list Message.t) (clock : nat -> Dt.civil) :
  forallb message_read messages = true ->
  scan messages clock = scan_opportunities (List.map enrich messages) clock.
Proof. intros H. unfold scan. now rewrite (fetch_loop_read messages H). Qed.

(** C4.  For messages whose delays [int] reads (numbers of at most 4300
    digits), the opportunities of a scan are the opportunities made from
    the delay candidates that are not already claimed, rearranged so that
    an opportunity stands before another only when its amount is larger (a
    missing amount counting as 0), or the amounts are equal and its
    confidence comes first in the order high, medium, low, or these are
    equal too and its status is active or the other's is not; the
    opportunities tied on all three keep the order in which they were
    made. *)
Theorem scan_sorted (messages : list Message.t) (clock : nat -> Dt.civil) :
  forallb message_read messages = true ->
  let emails := List.map enrich messages in
  exists made,
    Forall2 (made_from clock)
      (List.filter
         (fun d => negb (already_claimed (refunded_refs_of (refunds_of emails)) d))
         (delays_of emails))
      made /\
    scan messages clock = Ok (sort_opportunities made) /\
    sort_opportunities made ≡ₚ made /\
    StronglySorted spec_before (sort_opportunities made) /\
    forall o, List.filter (tied o) (sort_opportunities made) = List.filter (tied o) made.
Proof.
  intros Hread emails. rewrite (scan_read messages clock Hread).
  apply scan_opportunities_sorted.
  intros e p He Hp. apply list_elem_of_In, in_map_iff in He as (msg & <- & _).
  now apply (enrich_price_number msg).
Qed.

(** Three delay notices: the notice of the largest refund comes first, and
    of two notices without a refund and of the same confidence the active
    one comes before the expired one. *)
Lemma scan_sorted_witness :
  let messages :=
    [ Message.mk "GWR <info@gwr.com>" "Your train was delayed"
        "Sat, 16 Mar 2024 10:00:00 +0000"
        "Ref: GW123456. Your journey 16/01/2024 was 10 minutes late. Paid £20.00";
      Message.mk "GWR <info@gwr.com>" "Your train was delayed"
        "Sat, 16 Mar 2024 10:00:00 +0000"
        "Ref: GW654321. Your journey 16/03/2024 was 10 minutes late. Paid £20.00";
      Message.mk "LNER <info@lner.co.uk>" "Your train was delayed"
        "Fri, 15 Mar 2024 10:00:00 +0000"
        "Your journey 15/03/2024 was 45 minutes late. Paid £45.00" ] in
  let clock := fun _ : nat => Dt.mk_civil 2024 4 1 9 0 0 0 in
  forallb message_read messages = true /\
  (exists o1 o2 o3,
      scan messages clock = Ok [o1; o2; o3] /\
      (Opp.refund_amount o1, Opp.confidence o1, Opp.deadline_status o1)
      = (Some (F64.of_decimal 2250 2), Low, Active) /\
      (Opp.refund_amount o2, Opp.confidence o2, Opp.deadline_status o2)
      = (None, High, Active) /\
      (Opp.refund_amount o3, Opp.confidence o3, Opp.deadline_status o3)
      = (None, High, Expired)) /\
  exists made,
    scan messages clock = Ok (sort_opportunities made) /\
    StronglySorted spec_before (sort_opportunities made).
Proof.
  intros messages clock.
  assert (Hread : forallb message_read messages = true) by (vm_compute; reflexivity).
  split; [exact Hread |]. split.
  - do 3 eexists. split; [vm_compute; reflexivity |].
    repeat split; vm_compute; reflexivity.
  - destruct (scan_sorted messages clock Hread) as (made & _ & Hscan & _ & Hsorted & _).
    exists made. split; assumption.
Defined.

(** Three delay notices, of 45 minutes on LNER for 45.00, of 10 minutes on
    GWR for 20.00 and of 20 minutes on TfL for 30.00: the refunds are 22.50,
    none and 30.00, and the scan lists them as 30.00, 22.50, none. *)
Example scan_three_delays :
  let messages :=
    [ Message.mk "LNER <info@lner.co.uk>" "Your train was delayed"
        "Fri, 15 Mar 2024 10:00:00 +0000"
        "Ref: LN123456. Your journey 15/03/2024 was 45 minutes late. Paid £45.00";
      Message.mk "GWR <info@gwr.com>" "Your train was delayed"
        "Sat, 16 Mar 2024 10:00:00 +0000"
        "Ref: GW123456. Your journey 16/03/2024 was 10 minutes late. Paid £20.00";
      Message.mk "TfL <no-reply@tfl.gov.uk>" "Service delay"
        "Sun, 17 Mar 2024 10:00:00 +0000"
        "Your journey 17/03/2024 was 20 min late. Paid £30.00" ] in
  let clock := fun _ : nat => Dt.mk_civil 2024 4 1 9 0 0 0 in
  exists o1 o2 o3,
    scan messages clock = Ok [o1; o2; o3] /\
    (Opp.operator o1, Opp.refund_amount o1, Opp.refund_pct o1, Opp.confidence o1)
    = ("TfL", Some (F64.of_decimal 3000 2), Some 100, Low) /\
    (Opp.operator o2, Opp.refund_amount o2, Opp.refund_pct o2, Opp.confidence o2)
    = ("LNER", Some (F64.of_decimal 2250 2), Some 50, High) /\
    (Opp.operator o3, Opp.refund_amount o3, Opp.refund_pct o3, Opp.confidence o3)
    = ("GWR", None, None, High) /\
    (Opp.deadline o2, Opp.deadline_status o2) = (Some "2024-04-12", Active).
Proof.
  intros messages clock. do 3 eexists.
  split; [vm_compute; reflexivity |].
  repeat split; vm_compute; reflexivity.
Qed.

(* ================================================================== *)
(** * Further properties *)
(* ================================================================== *)

(** ** Refund calculator: the operator and the delay *)

(** X1.  The scheme of the operators with Delay Repay 15 pays what the
    standard scheme pays, for every delay and every price: the operator
    changes the refund only by being "TfL" or not. *)
Theorem calculate_refund_operator_only_tfl
    (delay_mins : option Z) (price : option float) (op1 op2 : option string) :
  op1 <> Some "TfL" -> op2 <> Some "TfL" ->
  calculate_refund delay_mins price op1 = calculate_refund delay_mins price op2.
Proof.
  intros H1 H2. unfold calculate_refund.
  destruct (negb _ || negb _); [reflexivity |].
  destruct delay_mins as [d |], price as [p |]; try reflexivity.
  rewrite !items_desc_select.
  rewrite !bool_decide_eq_false_2 by assumption.
  destruct (operator_in op1 _), (operator_in op2 _);
    rewrite ?refund_loop_dr15, ?refund_loop_standard; reflexivity.
Qed.

(** Two hours and ten minutes on a ticket of 50.00: LNER, an operator of
    the Delay Repay 15 list, and Northern, which is not on it. *)
Lemma calculate_refund_operator_only_tfl_witness :
  Some "LNER" <> Some "TfL" /\ Some "Northern" <> Some "TfL" /\
  calculate_refund (Some 130) (Some (F64.of_decimal 5000 2)) (Some "LNER")
  = calculate_refund (Some 130) (Some (F64.of_decimal 5000 2)) (Some "Northern").
Proof.
  assert (H1 : Some "LNER" <> Some "TfL") by discriminate.
  assert (H2 : Some "Northern" <> Some "TfL") by discriminate.
  refine (conj H1 (conj H2 _)).
  exact (calculate_refund_operator_only_tfl _ _ _ _ H1 H2).
Defined.

(** The refund as a step function of the delay. *)
Lemma calculate_refund_tiers (d : Z) (p : float) (op : option string) :
  d <> 0 -> F64.truthy p = true ->
  calculate_refund (Some d) (Some p) op
  = if bool_decide (op = Some "TfL") then
      if 15 <=? d then Ok (Some (F64.round2 (F64.mul p pct_100)), Some 100)
      else Ok (None, None)
    else if 60 <=? d then Ok (Some (F64.round2 (F64.mul p pct_100)), Some 100)
    else if 30 <=? d then Ok (Some (F64.round2 (F64.mul p pct_50)), Some 50)
    else if 15 <=? d then Ok (Some (F64.round2 (F64.mul p pct_25)), Some 25)
    else Ok (None, None).
Proof.
  intros Hd Hp. rewrite calculate_refund_eligible by assumption.
  rewrite items_desc_select.
  destruct (bool_decide (op = Some "TfL")).
  - cbn [refund_loop]. now rewrite pct_int_100.
  - destruct (operator_in op DR15_OPERATORS);
      [apply refund_loop_dr15 | apply refund_loop_standard].
Qed.

Lemma calculate_refund_some_inv
    (delay_mins : option Z) (price : option float) (op : option string)
    (a : option float) (n : Z) :
  calculate_refund delay_mins price op = Ok (a, Some n) ->
  exists d p, delay_mins = Some d /\ price = Some p /\ d <> 0 /\ F64.truthy p = true.
Proof.
  unfold calculate_refund.
  destruct delay_mins as [d |], price as [p |]; cbn [int_truthy float_truthy negb orb];
    rewrite ?orb_true_r; try discriminate.
  destruct (Z.eqb_spec d 0) as [| Hd]; cbn [negb orb]; [discriminate |].
  destruct (F64.truthy p) eqn:Hp; cbn [negb]; [| discriminate].
  intros _. exists d, p. repeat split; assumption.
Qed.

(** X2.  A longer delay never pays a smaller percentage: when a delay pays
    [n1] percent, every delay at least as long pays, and pays at least
    [n1] percent, whatever the operator. *)
Theorem refund_pct_monotone
    (d1 d2 : Z) (price : option float) (op : option string)
    (a1 : option float) (n1 : Z) :
  d1 <= d2 ->
  calculate_refund (Some d1) price op = Ok (a1, Some n1) ->
  exists a2 n2,
    calculate_refund (Some d2) price op = Ok (Some a2, Some n2) /\ n1 <= n2.
Proof.
  intros Hle Hr.
  destruct (calculate_refund_some_inv _ _ _ _ _ Hr) as (d & p & [= <-] & -> & Hd1 & Hp).
  rewrite calculate_refund_tiers in Hr by assumption.
  assert (H15 : 15 <= d1).
  { destruct (bool_decide _), (Z.leb_spec 60 d1), (Z.leb_spec 30 d1), (Z.leb_spec 15 d1);
      try discriminate; lia. }
  rewrite calculate_refund_tiers by (assumption || lia).
  destruct (bool_decide _).
  - destruct (Z.leb_spec 15 d1); [| lia]. injection Hr as _ <-.
    destruct (Z.leb_spec 15 d2); [| lia]. eexists _, _. split; [reflexivity | lia].
  - destruct (Z.leb_spec 60 d1), (Z.leb_spec 30 d1), (Z.leb_spec 15 d1); try lia;
      injection Hr as _ <-;
      destruct (Z.leb_spec 60 d2), (Z.leb_spec 30 d2), (Z.leb_spec 15 d2); try lia;
      (eexists _, _; split; [reflexivity | lia]).
Qed.

(** 20 minutes pay 25 percent, 45 minutes pay 50 percent. *)
Lemma refund_pct_monotone_witness :
  20 <= 45 /\
  calculate_refund (Some 20) (Some (F64.of_decimal 4500 2)) (Some "LNER")
  = Ok (Some (F64.of_decimal 1125 2), Some 25) /\
  exists a2 n2,
    calculate_refund (Some 45) (Some (F64.of_decimal 4500 2)) (Some "LNER")
    = Ok (Some a2, Some n2) /\ 25 <= n2.
Proof.
  assert (H1 : 20 <= 45) by lia.
  assert (H2 : calculate_refund (Some 20) (Some (F64.of_decimal 4500 2)) (Some "LNER")
               = Ok (Some (F64.of_decimal 1125 2), Some 25)) by (vm_compute; reflexivity).
  refine (conj H1 (conj H2 _)).
  exact (refund_pct_monotone 20 45 _ _ _ _ H1 H2).
Defined.

(** ** Deadline calculator: what is returned *)

(** X3.  [get_claim_deadline] returns a pair, and the deadline is [None]
    exactly when the status is "unknown": an "active" or "expired" status
    always comes with a date, and a date never comes with "unknown". *)
Theorem get_claim_deadline_date_iff_known
    (operator : option string) (journey_date_str : option string) (clock : Dt.civil) :
  exists deadline status,
    get_claim_deadline operator journey_date_str clock = Ok (deadline, status) /\
    (deadline = None <-> status = Unknown).
Proof.
  unfold get_claim_deadline.
  destruct journey_date_str as [s |]; [| now exists None, Unknown].
  destruct (negb (Str.truthy s)); [now exists None, Unknown |].
  unfold deadline_of_journey.
  destruct (parse_journey_date s) as [[jdate |] | e]; cbn [mbind result_bind catch];
    try (now exists None, Unknown).
  destruct (Dt.add_days jdate _) as [deadline_date | e]; cbn [mbind result_bind catch];
    [| now exists None, Unknown].
  destruct (Dt.gt _ _) as [past | e]; cbn [mbind result_bind catch default];
    [| now exists None, Unknown].
  eexists _, _. split; [reflexivity |].
  destruct past; cbn; split; discriminate.
Qed.

(** A string that starts with a letter is no ISO timestamp. *)
Lemma fromisoformat_letter (c : ascii) (s : string) :
  Str.is_digit c = false -> Dt.fromisoformat (String c s) = Raise ValueError.
Proof.
  intros Hc. unfold Dt.fromisoformat, Dt.fullmatch.
  replace (Re.matches Dt.iso_pattern (String c s) []) with (@nil (string * Re.captures));
    [reflexivity |].
  unfold Dt.iso_pattern, Dt.two_digits. cbn [Re.seq Re.matches Re.digit flat_map List.map].
  now rewrite Hc.
Qed.

(** A string that starts with a letter is in none of the five formats. *)
Lemma try_formats_letter (c : ascii) (s : string) :
  (Str.is_upper c || Str.is_lower c) = true ->
  try_formats (String c s) DATE_FORMATS = None.
Proof.
  intros Hc.
  destruct c as [[] [] [] [] [] [] [] []]; try discriminate Hc; vm_compute; reflexivity.
Qed.

Lemma letter_not_digit (c : ascii) :
  (Str.is_upper c || Str.is_lower c) = true -> Str.is_digit c = false.
Proof.
  destruct c as [[] [] [] [] [] [] [] []]; intros Hc; try discriminate Hc; reflexivity.
Qed.

Lemma parse_journey_date_letter (c : ascii) (s : string) :
  (Str.is_upper c || Str.is_lower c) = true ->
  parse_journey_date (String c s) = Ok None
  \/ exists e, parse_journey_date (String c s) = Raise e.
Proof.
  intros Hc. unfold parse_journey_date.
  destruct (Str.contains "T" (String c s)).
  - right. exists ValueError. cbn [Str.replace_char].
    destruct (Ascii.eqb c "Z").
    + rewrite append_cons. now rewrite fromisoformat_letter.
    + rewrite fromisoformat_letter; [reflexivity | now apply letter_not_digit].
  - left. now rewrite try_formats_letter.
Qed.

(** X4.  A journey date that starts with a letter gives no deadline: such a
    string is no ISO timestamp and is in none of the five formats, whatever
    follows the letter. *)
Theorem get_claim_deadline_leading_letter
    (operator : option string) (c : ascii) (s : string) (clock : Dt.civil) :
  (Str.is_upper c || Str.is_lower c) = true ->
  get_claim_deadline operator (Some (String c s)) clock = Ok (None, Unknown).
Proof.
  intros Hc. apply get_claim_deadline_unparsed. now apply parse_journey_date_letter.
Qed.

(** The date header of a message, as mail programs write it. *)
Lemma get_claim_deadline_leading_letter_witness :
  (Str.is_upper "F" || Str.is_lower "F") = true /\
  get_claim_deadline (Some "LNER") (Some "Fri, 15 Mar 2024 10:00:00 +0000")
    (Dt.mk_civil 2024 4 1 9 0 0 0) = Ok (None, Unknown).
Proof.
  assert (H : (Str.is_upper "F" || Str.is_lower "F") = true) by reflexivity.
  split; [exact H |].
  exact (get_claim_deadline_leading_letter (Some "LNER") "F" "ri, 15 Mar 2024 10:00:00 +0000"
           (Dt.mk_civil 2024 4 1 9 0 0 0) H).
Defined.



(** ** Calendar: ordinals and dates *)

Lemma month_day_checked (leapyear : bool) (n : Z) :
  0 <= n < 365 -> month_day_ok leapyear n = true.
Proof.
  intros Hn.
  assert (Hall : forallb (month_day_ok leapyear) (seqZ 0 365) = true)
    by (destruct leapyear; vm_compute; reflexivity).
  rewrite forallb_forall in Hall. apply Hall.
  apply list_elem_of_In, elem_of_seqZ. lia.
Qed.

(** The years: the days before a year, and which years are leap years,
    in the terms [ord2ymd] counts in. *)
Lemma days_before_year_split (q n100 n4 n1 : Z) :
  0 <= q -> 0 <= n100 <= 3 -> 0 <= n4 <= 24 -> 0 <= n1 <= 3 ->
  Dt.days_before_year (q * 400 + 1 + n100 * 100 + n4 * 4 + n1)
  = q * 146097 + n100 * 36524 + n4 * 1461 + n1 * 365.
Proof.
  intros Hq H100 H4 H1. unfold Dt.days_before_year.
  replace (q * 400 + 1 + n100 * 100 + n4 * 4 + n1 - 1)
    with (q * 400 + n100 * 100 + n4 * 4 + n1) by lia.
  set (y' := q * 400 + n100 * 100 + n4 * 4 + n1).
  assert (E4 : y' / 4 = q * 100 + n100 * 25 + n4)
    by (subst y'; symmetry; apply Z.div_unique with n1; lia).
  assert (E100 : y' / 100 = q * 4 + n100)
    by (subst y'; symmetry; apply Z.div_unique with (n4 * 4 + n1); lia).
  assert (E400 : y' / 400 = q)
    by (subst y'; symmetry; apply Z.div_unique with (n100 * 100 + n4 * 4 + n1); lia).
  rewrite E4, E100, E400. subst y'. lia.
Qed.

Lemma is_leap_split (q n100 n4 n1 : Z) :
  0 <= q -> 0 <= n100 <= 3 -> 0 <= n4 <= 24 -> 0 <= n1 <= 3 ->
  Dt.is_leap (q * 400 + 1 + n100 * 100 + n4 * 4 + n1)
  = (n1 =? 3) && (negb (n4 =? 24) || (n100 =? 3)).
Proof.
  intros Hq H100 H4 H1. unfold Dt.is_leap.
  set (y := q * 400 + 1 + n100 * 100 + n4 * 4 + n1).
  assert (E4 : y mod 4 = (n1 + 1) mod 4).
  { subst y. replace (q * 400 + 1 + n100 * 100 + n4 * 4 + n1)
      with (n1 + 1 + (q * 100 + n100 * 25 + n4) * 4) by lia.
    apply Z.mod_add. lia. }
  assert (E100 : y mod 100 = (n4 * 4 + n1 + 1) mod 100).
  { subst y. replace (q * 400 + 1 + n100 * 100 + n4 * 4 + n1)
      with (n4 * 4 + n1 + 1 + (q * 4 + n100) * 100) by lia.
    apply Z.mod_add. lia. }
  assert (E400 : y mod 400 = (n100 * 100 + n4 * 4 + n1 + 1) mod 400).
  { subst y. replace (q * 400 + 1 + n100 * 100 + n4 * 4 + n1)
      with (n100 * 100 + n4 * 4 + n1 + 1 + q * 400) by lia.
    apply Z.mod_add. lia. }
  rewrite E4, E100, E400.
  destruct (Z.eqb_spec n1 3) as [-> | Hn1].
  - change ((3 + 1) mod 4) with 0. cbn [Z.eqb andb].
    destruct (Z.eqb_spec n4 24) as [-> | Hn4].
    + replace (24 * 4 + 3 + 1) with 100 by lia. change (100 mod 100) with 0.
      cbn [Z.eqb negb orb].
      destruct (Z.eqb_spec n100 3) as [-> | Hn100]; [reflexivity |].
      replace (n100 * 100 + 24 * 4 + 3 + 1) with ((n100 + 1) * 100) by lia.
      destruct (Z.eqb_spec (((n100 + 1) * 100) mod 400) 0) as [E | _]; [| reflexivity].
      exfalso. rewrite Z.mod_small in E by lia. lia.
    + cbn [negb orb].
      destruct (Z.eqb_spec ((n4 * 4 + 3 + 1) mod 100) 0) as [E | _]; [| reflexivity].
      exfalso. rewrite Z.mod_small in E by lia. lia.
  - destruct (Z.eqb_spec ((n1 + 1) mod 4) 0) as [E | _]; [| reflexivity].
    exfalso. rewrite Z.mod_small in E by lia. lia.
Qed.

(** [ord2ymd], with its steps named. *)
Lemma ord2ymd_steps (o : Z) :
  let n0 := o - 1 in
  let q := n0 / Dt.DI400Y in
  let n100 := (n0 mod Dt.DI400Y) / Dt.DI100Y in
  let n4 := ((n0 mod Dt.DI400Y) mod Dt.DI100Y) / Dt.DI4Y in
  let n1 := (((n0 mod Dt.DI400Y) mod Dt.DI100Y) mod Dt.DI4Y) / 365 in
  let n := (((n0 mod Dt.DI400Y) mod Dt.DI100Y) mod Dt.DI4Y) mod 365 in
  let y := q * 400 + 1 + n100 * 100 + n4 * 4 + n1 in
  Dt.ord2ymd o
  = if (n1 =? 4) || (n100 =? 4) then (y - 1, 12, 31)
    else (y, fst (month_day n ((n1 =? 3) && (negb (n4 =? 24) || (n100 =? 3)))),
          snd (month_day n ((n1 =? 3) && (negb (n4 =? 24) || (n100 =? 3))))).
Proof.
  intros n0 q n100 n4 n1 n y. unfold Dt.ord2ymd, month_day.
  fold n0. fold q. fold n100. fold n4. fold n1. fold n. fold y.
  destruct ((n1 =? 4) || (n100 =? 4)); [reflexivity |].
  destruct (n <? _); reflexivity.
Qed.

(** The date of an ordinal is a date of the calendar, and the ordinal of
    that date is the ordinal. *)
Lemma ord2ymd_ymd2ord (o : Z) :
  1 <= o ->
  let '(y, m, d) := Dt.ord2ymd o in
  valid_date y m d = true /\ Dt.ymd2ord y m d = o.
Proof.
  intros Ho. rewrite ord2ymd_steps.
  set (n0 := o - 1). set (q := n0 / Dt.DI400Y). set (r := n0 mod Dt.DI400Y).
  set (n100 := r / Dt.DI100Y). set (r1 := r mod Dt.DI100Y).
  set (n4 := r1 / Dt.DI4Y). set (r2 := r1 mod Dt.DI4Y).
  set (n1 := r2 / 365). set (n := r2 mod 365).
  unfold Dt.DI400Y, Dt.DI100Y, Dt.DI4Y in *.
  assert (Hq : 0 <= q) by (subst q; apply Z.div_pos; lia).
  assert (Hr : 0 <= r < 146097) by (subst r; apply Z.mod_pos_bound; lia).
  assert (En0 : n0 = 146097 * q + r) by (subst q r; apply Z.div_mod; lia).
  assert (H100 : 0 <= n100 <= 4).
  { subst n100. split; [apply Z.div_pos; lia |].
    apply Z.lt_succ_r. apply Z.div_lt_upper_bound; lia. }
  assert (Hr1 : 0 <= r1 < 36524) by (subst r1; apply Z.mod_pos_bound; lia).
  assert (Er : r = 36524 * n100 + r1) by (subst n100 r1; apply Z.div_mod; lia).
  assert (H4 : 0 <= n4 <= 24).
  { subst n4. split; [apply Z.div_pos; lia |].
    apply Z.lt_succ_r. apply Z.div_lt_upper_bound; lia. }
  assert (Hr2 : 0 <= r2 < 1461) by (subst r2; apply Z.mod_pos_bound; lia).
  assert (Er1 : r1 = 1461 * n4 + r2) by (subst n4 r2; apply Z.div_mod; lia).
  assert (H1 : 0 <= n1 <= 4).
  { subst n1. split; [apply Z.div_pos; lia |].
    apply Z.lt_succ_r. apply Z.div_lt_upper_bound; lia. }
  assert (Hn : 0 <= n < 365) by (subst n; apply Z.mod_pos_bound; lia).
  assert (Er2 : r2 = 365 * n1 + n) by (subst n1 n; apply Z.div_mod; lia).
  assert (Eo : o = n0 + 1) by (subst n0; lia).
  clearbody n0 q r n100 r1 n4 r2 n1 n.
  destruct (Z.eqb_spec n1 4) as [E1 | E1]; cbn [orb].
  - (* the last day of a leap year that ends four years *)
    assert (n = 0) by lia. assert (n4 <= 23) by lia. assert (n100 <= 3) by lia.
    replace (q * 400 + 1 + n100 * 100 + n4 * 4 + n1 - 1)
      with (q * 400 + 1 + n100 * 100 + n4 * 4 + 3) by lia.
    unfold valid_date, Dt.ymd2ord, Dt.days_in_month, Dt.days_before_month.
    rewrite is_leap_split, days_before_year_split by lia.
    change (nth (Z.to_nat 12) Dt.DAYS_BEFORE_MONTH 0) with 334.
    change (nth (Z.to_nat 12) Dt.DAYS_IN_MONTH 0) with 31.
    destruct (Z.eqb_spec n4 24); [lia |]. cbn.
    split; [| lia].
    destruct (Z.leb_spec 1 (q * 400 + 1 + n100 * 100 + n4 * 4 + 3)); [reflexivity | lia].
  - destruct (Z.eqb_spec n100 4) as [E100 | E100].
    + (* the last day of 400 years *)
      assert (r1 = 0) by lia. assert (n4 = 0) by lia. assert (r2 = 0) by lia.
      assert (n1 = 0) by lia. assert (n = 0) by lia. subst n100 n4 n1 n r1 r2.
      replace (q * 400 + 1 + 4 * 100 + 0 * 4 + 0 - 1)
        with ((q + 1) * 400 + 1 + (-1) * 100 + 24 * 4 + 3) by lia.
      replace ((q + 1) * 400 + 1 + (-1) * 100 + 24 * 4 + 3)
        with (q * 400 + 1 + 3 * 100 + 24 * 4 + 3) by lia.
      unfold valid_date, Dt.ymd2ord, Dt.days_in_month, Dt.days_before_month.
      rewrite is_leap_split, days_before_year_split by lia.
      change (nth (Z.to_nat 12) Dt.DAYS_BEFORE_MONTH 0) with 334.
      change (nth (Z.to_nat 12) Dt.DAYS_IN_MONTH 0) with 31. cbn.
      split; [| lia].
      destruct (Z.leb_spec 1 (q * 400 + 1 + 3 * 100 + 24 * 4 + 3)); [reflexivity | lia].
    + pose proof (month_day_checked ((n1 =? 3) && (negb (n4 =? 24) || (n100 =? 3))) n Hn)
        as Hok.
      unfold month_day_ok in Hok.
      destruct (month_day n _) as [m d]. cbn [fst snd].
      apply andb_prop in Hok as [Hok Hsum]. apply andb_prop in Hok as [Hm Hd].
      apply Z.eqb_eq in Hsum.
      unfold valid_date, Dt.ymd2ord, Dt.days_in_month, Dt.days_before_month.
      rewrite is_leap_split, days_before_year_split by lia.
      rewrite Hm, Hd. split; [| lia].
      destruct (Z.leb_spec 1 (q * 400 + 1 + n100 * 100 + n4 * 4 + n1)); [reflexivity | lia].
Qed.

(** ** Strings *)

Lemma append_assoc (a b c : string) : (a +:+ b) +:+ c = a +:+ (b +:+ c).
Proof. induction a as [| x a IH]; [reflexivity |]. rewrite !append_cons. now rewrite IH. Qed.

Lemma append_nil_r (a : string) : a +:+ "" = a.
Proof. induction a as [| x a IH]; [reflexivity |]. rewrite append_cons. now rewrite IH. Qed.

Lemma length_append (a b : string) :
  String.length (a +:+ b) = (String.length a + String.length b)%nat.
Proof. induction a as [| x a IH]; [reflexivity |]. rewrite append_cons. cbn. now rewrite IH. Qed.

Lemma substring_append (w rest : string) :
  String.substring 0 (String.length w) (w +:+ rest) = w.
Proof.
  induction w as [| x w IH]; [now destruct rest |].
  rewrite append_cons. cbn. now rewrite IH.
Qed.

(** What was consumed between a string and a rest of it. *)
Lemma consumed_append (w rest : string) : Re.consumed (w +:+ rest) rest = w.
Proof.
  unfold Re.consumed. rewrite length_append.
  replace (String.length w + String.length rest - String.length rest)%nat
    with (String.length w) by lia.
  apply substring_append.
Qed.

Lemma all_chars_append (p : ascii -> bool) (a b : string) :
  all_chars p (a +:+ b) = all_chars p a && all_chars p b.
Proof.
  induction a as [| x a IH]; [reflexivity |].
  rewrite append_cons. cbn. now rewrite IH, andb_assoc.
Qed.

Lemma all_chars_impl (p q : ascii -> bool) (s : string) :
  (forall c, p c = true -> q c = true) -> all_chars p s = true -> all_chars q s = true.
Proof.
  intros Hpq. induction s as [| x s IH]; [reflexivity |]. cbn.
  intros H. apply andb_prop in H as [Hx Hs]. now rewrite (Hpq _ Hx), IH.
Qed.

Lemma all_chars_map (p : ascii -> bool) (f : ascii -> ascii) (s : string) :
  all_chars p (Str.map f s) = all_chars (fun c => p (f c)) s.
Proof. induction s as [| x s IH]; [reflexivity |]. cbn. now rewrite IH. Qed.

Lemma length_map (f : ascii -> ascii) (s : string) :
  String.length (Str.map f s) = String.length s.
Proof. induction s as [| x s IH]; [reflexivity |]. cbn. now rewrite IH. Qed.

Lemma map_append (f : ascii -> ascii) (a b : string) :
  Str.map f (a +:+ b) = Str.map f a +:+ Str.map f b.
Proof.
  induction a as [| x a IH]; [reflexivity |].
  rewrite append_cons. cbn. now rewrite IH.
Qed.

(** ** The matcher finds only what the pattern matches *)

Lemma matches_sound (r : Re.regex) :
  forall (s : string) (caps : Re.captures) (rest : string) (caps' : Re.captures),
    In (rest, caps') (Re.matches r s caps) ->
    exists w, s = w +:+ rest /\ derives r w caps caps'.
Proof.
  induction r as [| p | r1 IH1 r2 IH2 | r1 IH1 r2 IH2 | r IH | n r IH];
    intros s caps rest caps' Hin.
  - cbn in Hin. destruct Hin as [[= <- <-] | []].
    exists "". split; [reflexivity | constructor].
  - cbn in Hin. destruct s as [| c s]; [destruct Hin |].
    destruct (p c) eqn:Hp; [| destruct Hin].
    destruct Hin as [[= <- <-] | []].
    exists (String c ""). split; [reflexivity | now constructor].
  - cbn [Re.matches] in Hin. apply in_flat_map in Hin as ([s1 c1] & H1 & H2).
    apply IH1 in H1 as (w1 & -> & D1). apply IH2 in H2 as (w2 & -> & D2).
    exists (w1 +:+ w2). split; [now rewrite append_assoc | econstructor; eassumption].
  - cbn [Re.matches] in Hin. apply in_app_or in Hin as [H | H].
    + apply IH1 in H as (w & -> & D). exists w. split; [reflexivity | now apply derives_alt_l].
    + apply IH2 in H as (w & -> & D). exists w. split; [reflexivity | now apply derives_alt_r].
  - cbn [Re.matches] in Hin. revert Hin.
    generalize (String.length s) as fuel. intros fuel. revert s caps.
    induction fuel as [| fuel IHf]; intros s caps Hin.
    + destruct Hin as [[= <- <-] | []]. exists "". split; [reflexivity | constructor].
    + apply in_app_or in Hin as [H | H].
      * apply in_flat_map in H as ([s1 c1] & H1 & H2).
        destruct (String.length s1 <? String.length s)%nat; [| destruct H2].
        apply IH in H1 as (w1 & -> & D1). apply IHf in H2 as (w2 & -> & D2).
        exists (w1 +:+ w2). split; [now rewrite append_assoc | econstructor; eassumption].
      * destruct H as [[= <- <-] | []]. exists "". split; [reflexivity | constructor].
  - cbn [Re.matches] in Hin. apply in_map_iff in Hin as ([s1 c1] & [= <- <-] & H).
    apply IH in H as (w & -> & D). exists w. split; [reflexivity |].
    rewrite consumed_append. now constructor.
Qed.

Lemma matches_head_sound
    (r : Re.regex) (s rest : string) (caps' : Re.captures) (l : list (string * Re.captures)) :
  Re.matches r s [] = (rest, caps') :: l ->
  s = Re.consumed s rest +:+ rest /\ derives r (Re.consumed s rest) [] caps'.
Proof.
  intros Hm.
  destruct (matches_sound r s [] rest caps') as (w & -> & D); [rewrite Hm; now left |].
  now rewrite consumed_append.
Qed.

(** [re.search]: the match is in the text, and the pattern matches it. *)
Lemma search_sound (r : Re.regex) (s group0 : string) (caps : Re.captures) :
  Re.search r s = Some (group0, caps) ->
  exists pre rest, s = pre +:+ group0 +:+ rest /\ derives r group0 [] caps.
Proof.
  induction s as [| c s IH]; cbn [Re.search].
  - destruct (Re.matches r "" []) as [| [rest caps'] l] eqn:Hm; [discriminate |].
    intros [= <- <-]. apply matches_head_sound in Hm as [Hs D].
    exists "", rest. now split.
  - destruct (Re.matches r (String c s) []) as [| [rest caps'] l] eqn:Hm.
    + intros H. apply IH in H as (pre & rest & -> & D).
      exists (String c pre), rest. now split.
    + intros [= <- <-]. apply matches_head_sound in Hm as [Hs D].
      exists "", rest. now split.
Qed.

(** The loops over the patterns: the value is group 1 of a match of one of
    the patterns. *)
Lemma first_group_sound (patterns : list Re.regex) (text v : string) :
  first_group patterns text = Some v ->
  exists pattern pre group0 rest caps,
    pattern ∈ patterns /\ text = pre +:+ group0 +:+ rest /\
    derives pattern group0 [] caps /\ v = default "" (Re.group 1 caps).
Proof.
  induction patterns as [| pattern patterns IH]; cbn [first_group]; [discriminate |].
  destruct (Re.search pattern text) as [[group0 caps] |] eqn:Hs.
  - intros [= <-]. apply search_sound in Hs as (pre & rest & -> & D).
    exists pattern, pre, group0, rest, caps. repeat split; [apply list_elem_of_here | assumption].
  - intros H. apply IH in H as (p & pre & g & rest & caps & Hin & -> & D & ->).
    exists p, pre, g, rest, caps. repeat split; [now apply list_elem_of_further | assumption].
Qed.

(** Repetitions of a character class. *)
Lemma derives_repeat (p : ascii -> bool) (n : nat) (w : string) (c0 c1 : Re.captures) :
  derives (Re.repeat n (Re.Chr p)) w c0 c1 ->
  String.length w = n /\ all_chars p w = true /\ c1 = c0.
Proof.
  revert w c0 c1. induction n as [| n IH]; intros w c0 c1 D; cbn [Re.repeat] in D.
  - inversion D; subst. now repeat split.
  - inversion D as [| | r1 r2 w1 w2 k0 k1 k2 D1 D2 | | | | |]; subst.
    inversion D1; subst. apply IH in D2 as (Hl & Ha & ->).
    rewrite append_cons, append_nil. cbn. rewrite Hl, Ha.
    repeat split. now rewrite andb_true_r.
Qed.

Lemma derives_upto (p : ascii -> bool) (n : nat) (w : string) (c0 c1 : Re.captures) :
  derives (Re.upto n (Re.Chr p)) w c0 c1 ->
  (String.length w <= n)%nat /\ all_chars p w = true /\ c1 = c0.
Proof.
  revert w c0 c1. induction n as [| n IH]; intros w c0 c1 D; cbn [Re.upto] in D.
  - inversion D; subst. now repeat split.
  - unfold Re.Opt in D.
    inversion D as [| | | r1 r2 w' k0 k1 D' | r1 r2 w' k0 k1 D' | | |]; subst.
    + inversion D' as [| | r1 r2 w1 w2 k0 k1 k2 D1 D2 | | | | |]; subst.
      inversion D1; subst. apply IH in D2 as (Hl & Ha & ->).
      rewrite append_cons, append_nil. cbn. rewrite Ha.
      repeat split; [lia | now rewrite andb_true_r].
    + inversion D'; subst. repeat split. cbn. lia.
Qed.

Lemma derives_repeat_range
    (p : ascii -> bool) (m n : nat) (w : string) (c0 c1 : Re.captures) :
  (m <= n)%nat ->
  derives (Re.repeat_range m n (Re.Chr p)) w c0 c1 ->
  (m <= String.length w <= n)%nat /\ all_chars p w = true /\ c1 = c0.
Proof.
  intros Hmn D. unfold Re.repeat_range in D.
  inversion D as [| | r1 r2 w1 w2 k0 k1 k2 D1 D2 | | | | |]; subst.
  apply derives_repeat in D1 as (Hl1 & Ha1 & ->).
  apply derives_upto in D2 as (Hl2 & Ha2 & ->).
  rewrite length_append, all_chars_append, Ha1, Ha2. repeat split; lia.
Qed.

Lemma derives_star_chr (p : ascii -> bool) (w : string) (c0 c1 : Re.captures) :
  derives (Re.Star (Re.Chr p)) w c0 c1 -> all_chars p w = true /\ c1 = c0.
Proof.
  remember (Re.Star (Re.Chr p)) as r eqn:Hr. intros D.
  induction D as [| | | | | r' caps | r' w1 w2 k0 k1 k2 D1 _ D2 IH2 |]; try discriminate.
  - now split.
  - injection Hr as ->. inversion D1; subst.
    destruct (IH2 eq_refl) as (Ha & ->).
    rewrite append_cons, append_nil. cbn. rewrite Ha. split; [now rewrite andb_true_r | reflexivity].
Qed.

Lemma derives_plus_chr (p : ascii -> bool) (w : string) (c0 c1 : Re.captures) :
  derives (Re.Plus (Re.Chr p)) w c0 c1 ->
  all_chars p w = true /\ w <> "" /\ c1 = c0.
Proof.
  unfold Re.Plus. intros D.
  inversion D as [| | r1 r2 w1 w2 k0 k1 k2 D1 D2 | | | | |]; subst.
  inversion D1; subst. apply derives_star_chr in D2 as (Ha & ->).
  rewrite append_cons, append_nil. cbn. rewrite Ha.
  repeat split; [now rewrite andb_true_r | discriminate].
Qed.

(** A literal word under [re.IGNORECASE]: what it matches is the word up to
    the case of the letters. *)
Lemma derives_iword (word w : string) (c0 c1 : Re.captures) :
  derives (Re.iword word) w c0 c1 -> Str.lower w = Str.lower word /\ c1 = c0.
Proof.
  revert w c0 c1. induction word as [| x word IH]; intros w c0 c1 D; cbn [Re.iword] in D.
  - inversion D; subst. now split.
  - inversion D as [| | r1 r2 w1 w2 k0 k1 k2 D1 D2 | | | | |]; subst.
    unfold Re.ichar in D1. inversion D1 as [| p c k Hp | | | | | |]; subst.
    apply IH in D2 as (Hw & ->).
    rewrite append_cons, append_nil. unfold Str.lower in *. cbn [Str.map]. rewrite Hw.
    apply Ascii.eqb_eq in Hp. now rewrite Hp.
Qed.

(** ** Reading what a pattern matched *)

Lemma derives_group_free (r : Re.regex) (w : string) (c0 c1 : Re.captures) :
  derives r w c0 c1 -> group_free r = true -> c1 = c0.
Proof.
  induction 1 as [| | r1 r2 w1 w2 k0 k1 k2 _ IH1 _ IH2 | r1 r2 w k0 k1 _ IH
                 | r1 r2 w k0 k1 _ IH | | r w1 w2 k0 k1 k2 _ IH1 _ IH2 |];
    cbn [group_free]; intros G; try reflexivity.
  - apply andb_prop in G as [G1 G2]. now rewrite (IH2 G2), (IH1 G1).
  - apply andb_prop in G as [G1 G2]. now apply IH.
  - apply andb_prop in G as [G1 G2]. now apply IH.
  - now rewrite (IH2 G), (IH1 G).
  - discriminate.
Qed.

Ltac invert_derives :=
  repeat match goal with
         | H : derives (Re.Cat _ _) _ _ _ |- _ => inversion H; subst; clear H
         | H : derives (Re.Group _ _) _ _ _ |- _ => inversion H; subst; clear H
         | H : derives Re.Eps _ _ _ |- _ => inversion H; subst; clear H
         end.

Lemma occurs_inside (a x v y b : string) : occurs v (a +:+ (x +:+ v +:+ y) +:+ b).
Proof.
  exists (a +:+ x), (y +:+ b). now rewrite !append_assoc.
Qed.

(** ** Booking reference *)

Lemma upper_char_alnum (c : ascii) :
  Str.is_upper c || Str.is_lower c || Str.is_digit c = true ->
  Str.is_upper (Str.upper_char c) || Str.is_digit (Str.upper_char c) = true.
Proof.
  destruct c as [[] [] [] [] [] [] [] []]; intros H; try discriminate H; reflexivity.
Qed.

Lemma upper_alnum (v : string) :
  all_chars (fun c => Str.is_upper c || Str.is_lower c || Str.is_digit c) v = true ->
  all_chars (fun c => Str.is_upper c || Str.is_digit c) (Str.upper v) = true.
Proof.
  intros H. unfold Str.upper. rewrite all_chars_map.
  revert H. apply all_chars_impl. apply upper_char_alnum.
Qed.

(** What each of the three reference patterns captures: 6 to 11 letters
    and digits. *)
Lemma ref_pattern_captures (pattern : Re.regex) (group0 : string) (caps : Re.captures) :
  pattern ∈ ref_patterns -> derives pattern group0 [] caps ->
  exists a v b,
    group0 = a +:+ v +:+ b /\ Re.group 1 caps = Some v /\
    (6 <= String.length v <= 11)%nat /\
    all_chars (fun c => Str.is_upper c || Str.is_lower c || Str.is_digit c) v = true.
Proof.
  intros Hin D. unfold ref_patterns in Hin.
  repeat (apply elem_of_cons in Hin as [-> | Hin]); [| | | now apply elem_of_nil in Hin].
  - cbn [Re.seq] in D. invert_derives.
    match goal with H : derives (Re.repeat_range _ _ _) _ _ _ |- _ =>
      apply derives_repeat_range in H as (Hl & Ha & ->); [| lia] end.
    eexists _, _, "". split; [rewrite <- append_assoc; reflexivity |].
    repeat split; try assumption; lia.
  - cbn [Re.seq] in D. invert_derives.
    match goal with H : derives (Re.repeat_range _ _ _) _ _ _ |- _ =>
      apply derives_repeat_range in H as (Hl & Ha & ->); [| lia] end.
    eexists _, _, "". split; [rewrite <- append_assoc; reflexivity |].
    repeat split; try assumption; lia.
  - invert_derives.
    match goal with
      H1 : derives (Re.repeat_range 2 3 _) _ _ _,
      H2 : derives (Re.repeat_range 6 8 _) _ _ _ |- _ =>
        apply derives_repeat_range in H1 as (Hl1 & Ha1 & ->); [| lia];
        apply derives_repeat_range in H2 as (Hl2 & Ha2 & ->); [| lia]
    end.
    eexists "", _, "". split; [now rewrite append_nil_r |].
    rewrite length_append, all_chars_append.
    repeat split; try lia.
    apply andb_true_intro. split.
    + revert Ha1. apply all_chars_impl. intros c ->. reflexivity.
    + revert Ha2. apply all_chars_impl. intros c ->. now rewrite orb_true_r.
Qed.

(** X6.  A booking reference that [extract_data] sets has 6 to 11
    characters, all of them upper-case letters and digits, and is the
    upper-cased form of a part of the text. *)
Theorem booking_ref_shape (subject body sender b : string) :
  is_plain subject = true -> is_plain body = true ->
  Data.booking_ref (extract_data subject body sender) = Some b ->
  (6 <= String.length b <= 11)%nat /\
  all_chars (fun c => Str.is_upper c || Str.is_digit c) b = true /\
  exists v, occurs v (subject +:+ " " +:+ body) /\ b = Str.upper v.
Proof.
  intros _ _. unfold extract_data. cbn [Data.booking_ref].
  destruct (first_group ref_patterns _) as [v |] eqn:Hf; [| discriminate].
  intros [= <-].
  apply first_group_sound in Hf as (pattern & pre & group0 & rest & caps & Hin & Ht & D & ->).
  destruct (ref_pattern_captures pattern group0 caps Hin D) as (a & v & b & -> & -> & Hl & Ha).
  change (default "" (Some v)) with v.
  split; [unfold Str.upper; now rewrite length_map | split; [now apply upper_alnum |]].
  exists v. split; [| reflexivity]. rewrite Ht. apply occurs_inside.
Qed.

Lemma booking_ref_shape_witness :
  let subject := "Your train was delayed" in
  let body := "Ref: ln123456. Your train was 45 minutes late. Paid £45.00" in
  is_plain subject = true /\ is_plain body = true /\
  Data.booking_ref (extract_data subject body "info@lner.co.uk") = Some "LN123456" /\
  (6 <= String.length "LN123456" <= 11)%nat.
Proof.
  intros subject body.
  assert (H1 : is_plain subject = true) by reflexivity.
  assert (H2 : is_plain body = true) by reflexivity.
  assert (H3 : Data.booking_ref (extract_data subject body "info@lner.co.uk") = Some "LN123456")
    by (vm_compute; reflexivity).
  refine (conj H1 (conj H2 (conj H3 _))).
  exact (proj1 (booking_ref_shape subject body "info@lner.co.uk" "LN123456" H1 H2 H3)).
Defined.

(** ** Price *)



Lemma digit_value (c : ascii) :
  Str.is_digit c = true -> 0 <= Z.of_nat (nat_of_ascii c) - 48 <= 9.
Proof.
  unfold Str.is_digit. intros H. apply andb_prop in H as [H1 H2].
  apply Nat.leb_le in H1, H2. lia.
Qed.






(** *** When a price is found *)

Lemma search_none (r : Re.regex) (s : string) :
  Re.search r s = None ->
  forall pre s', s = pre +:+ s' -> Re.matches r s' [] = [].
Proof.
  induction s as [| c s IH]; cbn [Re.search].
  - destruct (Re.matches r "" []) as [| [rest caps] l] eqn:Hm; [| discriminate].
    intros _ pre s' H. destruct pre; [| discriminate]. rewrite append_nil in H. now subst s'.
  - destruct (Re.matches r (String c s) []) as [| [rest caps] l] eqn:Hm; [| discriminate].
    intros H pre s' Hs. destruct pre as [| d pre].
    + rewrite append_nil in Hs. now subst s'.
    + rewrite append_cons in Hs. injection Hs as -> ->. now apply (IH H pre).
Qed.

Lemma first_group_none (patterns : list Re.regex) (text : string) :
  first_group patterns text = None ->
  forall pattern, pattern ∈ patterns -> Re.search pattern text = None.
Proof.
  induction patterns as [| p patterns IH]; cbn [first_group]; intros H pattern Hin.
  - now apply elem_of_nil in Hin.
  - destruct (Re.search p text) as [[g caps] |] eqn:Hs; [discriminate |].
    apply elem_of_cons in Hin as [-> | Hin]; [assumption | now apply IH].
Qed.

Lemma always_eps : always_matches Re.Eps.
Proof. intros s caps. discriminate. Qed.

Lemma always_star (r : Re.regex) : always_matches (Re.Star r).
Proof.
  intros s caps. cbn [Re.matches]. destruct (String.length s); [discriminate |].
  intros H. apply app_eq_nil in H as [_ H]. discriminate.
Qed.

Lemma always_opt (r : Re.regex) : always_matches (Re.Opt r).
Proof.
  intros s caps. unfold Re.Opt. cbn [Re.matches].
  intros H. apply app_eq_nil in H as [_ H]. discriminate.
Qed.

Lemma matches_cat_nonempty
    (r1 r2 : Re.regex) (s : string) (caps : Re.captures) :
  Re.matches r1 s caps <> [] -> always_matches r2 -> Re.matches (Re.Cat r1 r2) s caps <> [].
Proof.
  intros H1 H2. cbn [Re.matches].
  destruct (Re.matches r1 s caps) as [| [s1 c1] l]; [congruence |].
  cbn [flat_map]. intros H. apply app_eq_nil in H as [H _]. now apply (H2 s1 c1).
Qed.

Lemma always_cat (r1 r2 : Re.regex) :
  always_matches r1 -> always_matches r2 -> always_matches (Re.Cat r1 r2).
Proof. intros H1 H2 s caps. now apply matches_cat_nonempty. Qed.

(** The second price pattern matches at a pound sign that a digit
    follows. *)
Lemma pound_digit_matches (d : ascii) (post : string) :
  Str.is_digit d = true ->
  Re.matches (Re.Cat pound (Re.Group 1 decimal_number)) ("£" +:+ String d post) [] <> [].
Proof.
  intros Hd.
  assert (Hp : Re.matches pound ("£" +:+ String d post) [] = [(String d post, [])])
    by reflexivity.
  change (Re.matches (Re.Cat pound (Re.Group 1 decimal_number)) ("£" +:+ String d post) [])
    with (flat_map (fun '(s1, c1) => Re.matches (Re.Group 1 decimal_number) s1 c1)
            (Re.matches pound ("£" +:+ String d post) [])).
  rewrite Hp. cbn [flat_map]. rewrite app_nil_r.
  cbn [Re.matches]. intros H. apply map_eq_nil in H. revert H.
  unfold decimal_number. cbn [Re.seq].
  apply matches_cat_nonempty.
  - unfold Re.Plus. apply matches_cat_nonempty; [| apply always_star].
    unfold Re.digit. cbn [Re.matches]. now rewrite Hd.
  - apply always_cat; [apply always_opt | apply always_cat; [apply always_star | apply always_eps]].
Qed.

(** X8.  A price is found whenever the text has a pound sign directly
    followed by a digit, wherever that is and whatever else the text
    holds. *)
Theorem price_found_at_pound_digit
    (subject body sender pre : string) (d : ascii) (post : string) :
  subject +:+ " " +:+ body = pre +:+ "£" +:+ String d post ->
  Str.is_digit d = true ->
  Data.price (extract_data subject body sender) <> None.
Proof.
  intros Ht Hd. unfold extract_data. cbn [Data.price].
  destruct (first_group price_patterns _) as [v |] eqn:Hf; [discriminate |].
  exfalso.
  pose proof (first_group_none _ _ Hf (Re.Cat pound (Re.Group 1 decimal_number))) as Hs.
  assert (Hin : Re.Cat pound (Re.Group 1 decimal_number) ∈ price_patterns).
  { unfold price_patterns. apply list_elem_of_further, list_elem_of_here. }
  apply (pound_digit_matches d post Hd).
  now apply (search_none _ _ (Hs Hin) pre).
Qed.

Lemma price_found_at_pound_digit_witness :
  "Fare" +:+ " " +:+ "You paid £7 today" = "Fare You paid " +:+ "£" +:+ String "7" " today" /\
  Str.is_digit "7" = true /\
  Data.price (extract_data "Fare" "You paid £7 today" "") <> None.
Proof.
  assert (H1 : "Fare" +:+ " " +:+ "You paid £7 today"
               = "Fare You paid " +:+ "£" +:+ String "7" " today") by reflexivity.
  assert (H2 : Str.is_digit "7" = true) by reflexivity.
  refine (conj H1 (conj H2 _)).
  exact (price_found_at_pound_digit "Fare" "You paid £7 today" "" "Fare You paid " "7"
           " today" H1 H2).
Defined.

(** ** Delay duration *)

Lemma int_of_digits_go_nonneg (s : string) (acc : Z) :
  all_chars Str.is_digit s = true -> 0 <= acc ->
  0 <= (fix go (acc : Z) (s : string) : Z :=
          match s with
          | EmptyString => acc
          | String c s' => go (10 * acc + (Z.of_nat (nat_of_ascii c) - 48)) s'
          end) acc s.
Proof.
  revert acc. induction s as [| c s IH]; intros acc Ha Hacc; [exact Hacc |].
  cbn [all_chars] in Ha. apply andb_prop in Ha as [Hc Hs].
  apply IH; [assumption |]. pose proof (digit_value c Hc). lia.
Qed.

Lemma int_of_digits_nonneg (s : string) :
  all_chars Str.is_digit s = true -> 0 <= int_of_digits s.
Proof. intros H. unfold int_of_digits. apply int_of_digits_go_nonneg; [assumption | lia]. Qed.

Lemma lower_append (a b : string) : Str.lower (a +:+ b) = Str.lower a +:+ Str.lower b.
Proof. apply map_append. Qed.

Lemma late_after_digit_intro (pre : string) (c : ascii) (post : string) :
  Str.is_digit c = true ->
  Str.contains "late" (Str.lower post) || Str.contains "delay" (Str.lower post) = true ->
  late_after_digit (pre +:+ String c post) = true.
Proof.
  intros Hc Hp. induction pre as [| x pre IH].
  - rewrite append_nil. cbn [late_after_digit]. now rewrite Hc, Hp.
  - rewrite append_cons. cbn [late_after_digit]. now rewrite IH, orb_true_r.
Qed.

Lemma derives_seq6 (r1 r2 r3 r4 r5 r6 : Re.regex) (w : string) (c0 c6 : Re.captures) :
  derives (Re.seq [r1; r2; r3; r4; r5; r6]) w c0 c6 ->
  exists w1 w2 w3 w4 w5 w6 c1 c2 c3 c4 c5,
    w = w1 +:+ w2 +:+ w3 +:+ w4 +:+ w5 +:+ w6 /\
    derives r1 w1 c0 c1 /\ derives r2 w2 c1 c2 /\ derives r3 w3 c2 c3 /\
    derives r4 w4 c3 c4 /\ derives r5 w5 c4 c5 /\ derives r6 w6 c5 c6.
Proof.
  cbn [Re.seq]. intros D.
  repeat match goal with
         | H : derives (Re.Cat _ _) _ _ _ |- _ => inversion H; subst; clear H
         | H : derives Re.Eps _ _ _ |- _ => inversion H; subst; clear H
         end.
  do 11 eexists. rewrite append_nil_r. repeat split; eassumption.
Qed.

(** What the delay pattern matches: digits, captured, and later the word
    "late" or "delay". *)
Lemma delay_pattern_captures (group0 : string) (caps : Re.captures) :
  derives delay_pattern group0 [] caps ->
  exists c digits middle word,
    group0 = String c digits +:+ middle +:+ word /\
    caps = [(1%nat, String c digits)] /\
    all_chars Str.is_digit (String c digits) = true /\
    (Str.lower word = "late" \/ Str.lower word = "delay").
Proof.
  unfold delay_pattern. intros D.
  apply derives_seq6 in D
    as (w1 & w2 & w3 & w4 & w5 & w6 & c1 & c2 & c3 & c4 & c5 & -> & D1 & D2 & D3 & D4 & D5 & D6).
  inversion D1 as [| | | | | | | n r w k0 k1 D1']; subst.
  apply derives_plus_chr in D1' as (Hd & Hne & ->).
  apply derives_group_free in D2; [| reflexivity].
  apply derives_group_free in D3; [| reflexivity].
  apply derives_group_free in D4; [| reflexivity].
  apply derives_group_free in D5; [| reflexivity].
  subst.
  assert (Hw : (Str.lower w6 = "late" \/ Str.lower w6 = "delay") /\ caps = [(1%nat, w1)]).
  { cbn [Re.alts] in D6.
    inversion D6 as [| | | ? ? ? ? ? D' | ? ? ? ? ? D' | | |]; subst.
    - apply (derives_iword "late") in D' as [Hl ->]. auto.
    - apply (derives_iword "delay") in D' as [Hl ->]. auto. }
  destruct Hw as [Hw ->].
  destruct w1 as [| c digits]; [congruence |].
  exists c, digits, (w2 +:+ w3 +:+ w4 +:+ w5), w6.
  rewrite !append_assoc. now repeat split.
Qed.

(** X9.  A delay that [extract_data] sets is not negative, and is set only
    when some digit of the text has the word "late" or "delay" somewhere
    after it: a duration that is not followed by one of the two words, as
    in "delayed by 45 minutes", is not found. *)
Theorem delay_mins_needs_late_after_number (subject body sender : string) (n : Z) :
  is_plain subject = true -> is_plain body = true ->
  Data.delay_mins (extract_data subject body sender) = Some n ->
  0 <= n /\ late_after_digit (subject +:+ " " +:+ body) = true.
Proof.
  intros _ _. unfold extract_data. cbn [Data.delay_mins]. unfold extract_delay_mins.
  destruct (Re.search delay_pattern _) as [[group0 caps] |] eqn:Hs; [| discriminate].
  apply search_sound in Hs as (pre & rest & Ht & D).
  apply delay_pattern_captures in D as (c & digits & middle & word & -> & -> & Hd & Hw).
  cbn [Re.group Nat.eqb]. change (default "" (Some (String c digits))) with (String c digits).
  pose proof (int_of_digits_nonneg _ Hd) as Hn.
  intros H. split.
  - destruct (Str.contains "hour" _); injection H as <-; lia.
  - rewrite Ht. rewrite !append_cons.
    cbn [all_chars] in Hd. apply andb_prop in Hd as [Hc _].
    apply late_after_digit_intro; [exact Hc |].
    rewrite !lower_append.
    destruct Hw as [-> | ->]; apply orb_true_iff; [left | right];
      apply contains_occurs;
      exists (Str.lower digits +:+ Str.lower middle), (Str.lower rest);
      now rewrite !append_assoc.
Qed.

Lemma delay_mins_needs_late_after_number_witness :
  let subject := "Delay" in
  let body := "Your train was 2 hours late" in
  is_plain subject = true /\ is_plain body = true /\
  Data.delay_mins (extract_data subject body "") = Some 120 /\
  0 <= 120 /\ late_after_digit (subject +:+ " " +:+ body) = true.
Proof.
  intros subject body.
  assert (H1 : is_plain subject = true) by reflexivity.
  assert (H2 : is_plain body = true) by reflexivity.
  assert (H3 : Data.delay_mins (extract_data subject body "") = Some 120)
    by (vm_compute; reflexivity).
  refine (conj H1 (conj H2 (conj H3 _))).
  exact (delay_mins_needs_late_after_number subject body "" 120 H1 H2 H3).
Defined.

(** ** Running the matcher *)

Lemma matches_cat_eq (r1 r2 : Re.regex) (s : string) (caps : Re.captures) :
  Re.matches (Re.Cat r1 r2) s caps
  = flat_map (fun '(s1, c1) => Re.matches r2 s1 c1) (Re.matches r1 s caps).
Proof. reflexivity. Qed.

Lemma matches_group_eq (n : nat) (r : Re.regex) (s : string) (caps : Re.captures) :
  Re.matches (Re.Group n r) s caps
  = List.map (fun '(s1, c1) => (s1, (n, Re.consumed s s1) :: c1)) (Re.matches r s caps).
Proof. reflexivity. Qed.

(** A star over a character class takes the characters of the class one
    by one, the longest run first. *)
Lemma matches_star_chr_cons (p : ascii -> bool) (c : ascii) (s : string) (caps : Re.captures) :
  Re.matches (Re.Star (Re.Chr p)) (String c s) caps
  = if p c then Re.matches (Re.Star (Re.Chr p)) s caps ++ [(String c s, caps)]
    else [(String c s, caps)].
Proof.
  cbn [Re.matches String.length]. destruct (p c); [| reflexivity].
  cbn [flat_map]. rewrite app_nil_r.
  assert (H : (String.length s <? S (String.length s))%nat = true) by (apply Nat.ltb_lt; lia).
  now rewrite H.
Qed.

(** [re.search] goes on to the next place when there is no match. *)
Lemma search_skip (r : Re.regex) (pre s : string) :
  (forall a c b, pre = a +:+ String c b -> Re.matches r (String c b +:+ s) [] = []) ->
  Re.search r (pre +:+ s) = Re.search r s.
Proof.
  induction pre as [| c pre IH]; intros H; [reflexivity |].
  rewrite append_cons.
  change (Re.search r (String c (pre +:+ s)))
    with (match Re.matches r (String c (pre +:+ s)) [] with
          | (rest, caps) :: _ => Some (Re.consumed (String c (pre +:+ s)) rest, caps)
          | [] => Re.search r (pre +:+ s)
          end).
  rewrite <- append_cons, (H "" c pre eq_refl).
  apply IH. intros a d b ->. apply (H (String c a) d b). reflexivity.
Qed.

Lemma search_here
    (r : Re.regex) (s rest : string) (caps : Re.captures) (l : list (string * Re.captures)) :
  Re.matches r s [] = (rest, caps) :: l ->
  Re.search r s = Some (Re.consumed s rest, caps).
Proof. intros H. destruct s; cbn [Re.search]; now rewrite H. Qed.

(** A word under [re.IGNORECASE] matches only where the text starts with
    the word, in any case of the letters. *)
Lemma matches_iword_prefix (word s : string) (caps : Re.captures) :
  Re.matches (Re.iword word) s caps <> [] ->
  String.prefix (Str.lower word) (Str.lower s) = true.
Proof.
  intros H. destruct (Re.matches (Re.iword word) s caps) as [| [rest caps'] l] eqn:Hm;
    [congruence |].
  destruct (matches_sound (Re.iword word) s caps rest caps') as (w & -> & D);
    [rewrite Hm; now left |].
  apply derives_iword in D as [Hw _].
  apply prefix_occurs. exists (Str.lower rest). now rewrite lower_append, Hw.
Qed.

Lemma matches_alt_nil (r1 r2 : Re.regex) (s : string) (caps : Re.captures) :
  Re.matches r1 s caps = [] -> Re.matches r2 s caps = [] ->
  Re.matches (Re.Alt r1 r2) s caps = [].
Proof. intros H1 H2. cbn [Re.matches]. now rewrite H1, H2. Qed.

Lemma matches_cat_nil (r1 r2 : Re.regex) (s : string) (caps : Re.captures) :
  Re.matches r1 s caps = [] -> Re.matches (Re.Cat r1 r2) s caps = [].
Proof. intros H. rewrite matches_cat_eq. now rewrite H. Qed.

Lemma matches_iword_nil (word s : string) (caps : Re.captures) :
  String.prefix (Str.lower word) (Str.lower s) = false ->
  Re.matches (Re.iword word) s caps = [].
Proof.
  intros H. destruct (Re.matches (Re.iword word) s caps) eqn:Hm; [reflexivity |].
  rewrite (matches_iword_prefix word s caps) in H; [discriminate | rewrite Hm; discriminate].
Qed.

(** A word without a space that starts before a space ends before it. *)
Lemma prefix_before_space (word x y : string) :
  all_chars (fun c => negb (Ascii.eqb c " ")) word = true ->
  String.prefix word (x +:+ String " " y) = true ->
  String.prefix word x = true.
Proof.
  revert x. induction word as [| c word IH]; intros x Hw Hp; [now destruct x |].
  cbn [all_chars] in Hw. apply andb_prop in Hw as [Hc Hw].
  destruct x as [| d x].
  - rewrite append_nil in Hp. cbn in Hp.
    destruct (Ascii.ascii_dec c " ") as [-> | Hne]; [discriminate Hc | discriminate Hp].
  - rewrite append_cons in Hp. cbn in Hp |- *.
    destruct (Ascii.ascii_dec c d); [now apply IH | discriminate].
Qed.

Lemma prefix_contains (word s : string) (a : string) :
  String.prefix word s = true -> Str.contains word (a +:+ s) = true.
Proof.
  intros H. apply contains_occurs. apply prefix_occurs in H as (post & ->).
  now exists a, post.
Qed.

(** ** The reference after its label *)

Lemma suffix_before_space (a : string) (c : ascii) (b subject : string) :
  subject +:+ " " = a +:+ String c b ->
  exists x, String c b = x +:+ " " /\ subject = a +:+ x.
Proof.
  revert subject. induction a as [| d a IH]; intros subject H.
  - rewrite append_nil in H. exists subject. now split.
  - destruct subject as [| e subject].
    + rewrite append_nil, append_cons in H. injection H as _ H. now destruct a.
    + rewrite !append_cons in H. injection H as -> H.
      apply IH in H as (x & Hx & ->). exists x. now split.
Qed.

Lemma lower_space (x s : string) :
  Str.lower (x +:+ " " +:+ s) = Str.lower x +:+ String " " (Str.lower s).
Proof. now rewrite !lower_append. Qed.

(** No match of the first reference pattern starts in a subject that has
    none of its three words. *)
Lemma ref_label_not_in_subject (subject : string) (a : string) (c : ascii) (b s : string) :
  any_in REF_LABELS (Str.lower subject) = false ->
  subject +:+ " " = a +:+ String c b ->
  forall r, Re.matches (Re.Cat (Re.alts (List.map Re.iword REF_LABELS)) r)
              (String c b +:+ s) [] = [].
Proof.
  intros Hany Hsplit r.
  apply suffix_before_space in Hsplit as (x & Hx & ->).
  apply matches_cat_nil. rewrite Hx, append_assoc.
  assert (Hno : forall word, word ∈ REF_LABELS ->
                  Re.matches (Re.iword word) (x +:+ " " +:+ s) [] = []).
  { intros word Hin. apply matches_iword_nil.
    destruct (String.prefix _ _) eqn:Hp; [| reflexivity].
    rewrite lower_space in Hp.
    assert (Hw : Str.lower word = word /\
                 all_chars (fun c => negb (Ascii.eqb c " ")) word = true).
    { unfold REF_LABELS in Hin.
      repeat (apply elem_of_cons in Hin as [-> | Hin]; [now split |]).
      now apply elem_of_nil in Hin. }
    destruct Hw as [Hl Hw]. rewrite Hl in Hp.
    apply prefix_before_space in Hp; [| exact Hw].
    apply (prefix_contains _ _ (Str.lower a)) in Hp. rewrite <- lower_append in Hp.
    assert (any_in REF_LABELS (Str.lower (a +:+ x)) = true); [| congruence].
    apply any_in_occurs. exists word. split; [exact Hin | now apply contains_occurs]. }
  cbn [REF_LABELS List.map Re.alts].
  repeat apply matches_alt_nil; apply Hno; unfold REF_LABELS.
  - apply list_elem_of_here.
  - apply list_elem_of_further, list_elem_of_here.
  - apply list_elem_of_further, list_elem_of_further, list_elem_of_here.
Qed.

(** At "Booking reference:" the first pattern takes "Booking" for the
    label and the word "reference" for the reference. *)
Lemma ref_pattern_at_label (rest : string) :
  exists l,
    Re.matches (Re.seq [ Re.alts (List.map Re.iword REF_LABELS);
                         Re.Star label_sep;
                         Re.Group 1 (Re.repeat_range 6 10 alnum) ])
      ("Booking reference:" +:+ rest) []
    = (String ":" rest, [(1%nat, "reference")]) :: l.
Proof.
  cbn [Re.seq]. rewrite matches_cat_eq.
  assert (H1 : Re.matches (Re.alts (List.map Re.iword REF_LABELS))
                 ("Booking reference:" +:+ rest) []
               = [(" reference:" +:+ rest, [])]) by (vm_compute; reflexivity).
  rewrite H1. cbn [flat_map]. rewrite app_nil_r, matches_cat_eq.
  assert (H2 : Re.matches (Re.Star label_sep) (" reference:" +:+ rest) []
               = [("reference:" +:+ rest, []); (" reference:" +:+ rest, [])]).
  { unfold label_sep. rewrite !append_cons, append_nil.
    rewrite matches_star_chr_cons. cbn [Ascii.eqb Bool.eqb Str.is_space orb andb].
    change (Ascii.eqb " " ":" || Str.is_space " " || Ascii.eqb " " "#") with true.
    cbv iota. rewrite matches_star_chr_cons.
    change (Ascii.eqb "r" ":" || Str.is_space "r" || Ascii.eqb "r" "#") with false.
    reflexivity. }
  rewrite H2. cbn [flat_map]. rewrite matches_cat_eq, matches_group_eq.
  assert (H3 : Re.matches (Re.repeat_range 6 10 alnum) ("reference:" +:+ rest) []
               = [ (":" +:+ rest, []); ("e:" +:+ rest, []);
                   ("ce:" +:+ rest, []); ("nce:" +:+ rest, []) ])
    by (vm_compute; reflexivity).
  rewrite H3. cbn [List.map flat_map Re.matches app].
  pose proof (consumed_append "reference" (":" +:+ rest)) as Hc.
  repeat rewrite ?append_cons, ?append_nil in Hc.
  repeat rewrite ?append_cons, ?append_nil. rewrite Hc.
  eexists. reflexivity.
Qed.

Lemma booking_ref_after_label_eq (subject rest sender : string) :
  any_in REF_LABELS (Str.lower subject) = false ->
  Data.booking_ref (extract_data subject ("Booking reference:" +:+ rest) sender)
  = Some "REFERENCE".
Proof.
  intros Hany. unfold extract_data. cbn [Data.booking_ref].
  unfold ref_patterns. cbn [first_group].
  rewrite <- append_assoc.
  change (Re.alts [Re.iword "booking"; Re.iword "reference"; Re.iword "confirmation"])
    with (Re.alts (List.map Re.iword REF_LABELS)).
  rewrite search_skip.
  - destruct (ref_pattern_at_label rest) as [l Hl].
    rewrite (search_here _ _ _ _ _ Hl). reflexivity.
  - intros a c b Hsplit. cbn [Re.seq]. now apply (ref_label_not_in_subject subject a).
Qed.

(** X10.  When the subject has none of the words "booking", "reference"
    and "confirmation", and the body starts with "Booking reference:", the
    booking reference that [extract_data] sets is the word "REFERENCE",
    whatever reference follows the colon. *)
Theorem booking_ref_after_label (subject rest sender : string) :
  is_plain subject = true ->
  any_in REF_LABELS (Str.lower subject) = false ->
  Data.booking_ref (extract_data subject ("Booking reference:" +:+ rest) sender)
  = Some "REFERENCE".
Proof. intros _. apply booking_ref_after_label_eq. Qed.

Lemma booking_ref_after_label_witness :
  is_plain "Your train was delayed" = true /\
  any_in REF_LABELS (Str.lower "Your train was delayed") = false /\
  Data.booking_ref
    (extract_data "Your train was delayed"
       ("Booking reference:" +:+ " LN123456. Your train was 45 minutes late.") "")
  = Some "REFERENCE".
Proof.
  assert (H1 : is_plain "Your train was delayed" = true) by reflexivity.
  assert (H2 : any_in REF_LABELS (Str.lower "Your train was delayed") = false)
    by reflexivity.
  refine (conj H1 (conj H2 _)).
  exact (booking_ref_after_label "Your train was delayed"
           " LN123456. Your train was 45 minutes late." "" H1 H2).
Defined.

(** ** References that collide *)

(** No opportunity of a scan has the reference of a refund record. *)
Lemma scan_opportunities_not_refunded
    (emails : list Email.t) (clock : nat -> Dt.civil) (r : Email.t) (b : string) :
  r ∈ emails -> Email.category r = Refund -> Email.booking_ref r = Some b -> b <> "" ->
  exists opportunities,
    scan_opportunities emails clock = Ok opportunities /\
    forall o, o ∈ opportunities -> Opp.booking_ref o <> Some b.
Proof.
  intros Hr Hcat Hb Hne.
  destruct (scan_opportunities_spec emails clock) as (made & Hscan & Hall).
  exists (sort_opportunities made). split; [exact Hscan |].
  intros o Ho Hob. rewrite sort_opportunities_perm in Ho.
  destruct (Forall2_source _ _ _ _ Hall Ho) as (d & Hd & (k & Hmade)).
  apply list_elem_of_In, filter_In in Hd as [_ Hnot].
  apply negb_true_iff in Hnot.
  assert (Hclaimed : already_claimed (refunded_refs_of (refunds_of emails)) d = true);
    [| congruence].
  apply already_claimed_spec. exists b, r, b.
  destruct (make_opportunity_fields (clock k) d) as (refund & due & _ & Hm).
  rewrite Hm in Hmade. injection Hmade as <-. cbn in Hob.
  repeat split; try assumption. now rewrite upper_empty.
Qed.

(** X11.  For messages whose delays [int] reads (numbers of at most 4300
    digits), one refund message that gives its reference after the words
    "Booking reference:" withdraws every candidate whose reference was read
    as "REFERENCE", that is every delay notice that gives its reference in
    the same way: the scan builds its list of opportunities, and no
    opportunity of the list has that reference, whatever the references
    written in the messages are. *)
Theorem reference_label_collision
    (messages : list Message.t) (clock : nat -> Dt.civil) (r : Message.t) (rest : string) :
  forallb message_read messages = true ->
  r ∈ messages ->
  is_plain (Message.subject r) = true ->
  any_in REF_LABELS (Str.lower (Message.subject r)) = false ->
  Message.body r = "Booking reference:" +:+ rest ->
  categorise_email (Message.subject r) (Message.body r) (Message.sender r) = Refund ->
  exists opportunities,
    scan messages clock = Ok opportunities /\
    forall o, o ∈ opportunities -> Opp.booking_ref o <> Some "REFERENCE".
Proof.
  intros Hread Hr Hplain Hany Hbody Hcat. rewrite (scan_read messages clock Hread).
  apply (scan_opportunities_not_refunded _ clock (enrich r)).
  - apply list_elem_of_In, in_map, list_elem_of_In, Hr.
  - exact Hcat.
  - unfold enrich. cbn [Email.booking_ref]. rewrite Hbody.
    now apply booking_ref_after_label_eq.
  - discriminate.
Qed.

(** A delay notice and the refund of another booking. *)
Lemma reference_label_collision_witness :
  let delay := Message.mk "LNER <info@lner.co.uk>" "Your train was delayed"
                 "Fri, 15 Mar 2024 10:00:00 +0000"
                 "Booking reference: LN123456. Your train was 45 minutes late. Paid £45.00" in
  let refund := Message.mk "GWR <info@gwr.com>" "Your money is on its way"
                  "Mon, 4 Mar 2024 10:00:00 +0000"
                  "Booking reference: GW777777. We have credited £12.00 to your card." in
  let clock := fun _ : nat => Dt.mk_civil 2024 4 1 9 0 0 0 in
  forallb message_read [delay; refund] = true /\
  Email.booking_ref (enrich delay) = Some "REFERENCE" /\
  Email.category (enrich delay) = Delay /\
  scan [delay] clock <> Ok [] /\
  exists opportunities,
    scan [delay; refund] clock = Ok opportunities /\
    forall o, o ∈ opportunities -> Opp.booking_ref o <> Some "REFERENCE".
Proof.
  intros delay refund clock.
  assert (Hread : forallb message_read [delay; refund] = true) by (vm_compute; reflexivity).
  split; [exact Hread |].
  split; [vm_compute; reflexivity |].
  split; [vm_compute; reflexivity |].
  split; [vm_compute; discriminate |].
  apply (reference_label_collision [delay; refund] clock refund
           " GW777777. We have credited £12.00 to your card.").
  - exact Hread.
  - apply list_elem_of_further, list_elem_of_here.
  - reflexivity.
  - reflexivity.
  - reflexivity.
  - vm_compute. reflexivity.
Defined.

(** ** The matcher on a text whose end is not known *)

Lemma matches_star_loop (r : Re.regex) (s : string) (caps : Re.captures) :
  Re.matches (Re.Star r) s caps = star_loop r (String.length s) s caps.
Proof.
  cbn [Re.matches]. generalize (String.length s) as fuel. intros fuel. revert s caps.
  induction fuel as [| fuel IH]; intros s caps; [reflexivity |].
  cbn [star_loop]. f_equal. apply flat_map_ext. intros [s1 c1].
  destruct (_ <? _)%nat; [apply IH | reflexivity].
Qed.

Lemma flat_map_nil_ext {A B : Type} (f : A -> list B) (l : list A) :
  (forall x, In x l -> f x = []) -> flat_map f l = [].
Proof.
  induction l as [| x l IH]; intros H; [reflexivity |].
  cbn. rewrite (H x (or_introl eq_refl)), IH; [reflexivity |].
  intros y Hy. apply H. now right.
Qed.

(** More fuel than the length of the text changes nothing. *)
Lemma star_loop_fuel (r : Re.regex) (n m : nat) (s : string) (caps : Re.captures) :
  (String.length s <= n)%nat -> (String.length s <= m)%nat ->
  star_loop r n s caps = star_loop r m s caps.
Proof.
  revert m s caps. induction n as [| n IH]; intros m s caps Hn Hm.
  - assert (Hs : String.length s = 0%nat) by lia.
    destruct m as [| m]; [reflexivity |]. cbn [star_loop]. rewrite Hs.
    rewrite flat_map_nil_ext; [reflexivity |]. now intros [s1 c1] _.
  - destruct m as [| m].
    + assert (Hs : String.length s = 0%nat) by lia.
      cbn [star_loop]. rewrite Hs.
      rewrite flat_map_nil_ext; [reflexivity |]. now intros [s1 c1] _.
    + cbn [star_loop]. f_equal. apply flat_map_ext. intros [s1 c1].
      destruct (Nat.ltb_spec (String.length s1) (String.length s)); [| reflexivity].
      apply IH; lia.
Qed.

Lemma with_end_app (x : string) (l1 l2 : list (string * Re.captures)) :
  with_end x (l1 ++ l2) = with_end x l1 ++ with_end x l2.
Proof. apply map_app. Qed.

Lemma agrees_bind
    (x : string) (found : list (string * Re.captures)) (l : list (string * Re.captures))
    (complete : bool) (F : string -> Re.captures -> list (string * Re.captures))
    (f : string -> Re.captures -> outcomes) :
  agrees x found (l, complete) ->
  (forall u1 c1, In (u1, c1) l -> agrees x (F (u1 +:+ x) c1) (f u1 c1)) ->
  agrees x (flat_map (fun '(s1, c1) => F s1 c1) found) (open_bind l complete f).
Proof.
  intros (more & -> & Hmore) Hf. cbn [fst snd] in *.
  induction l as [| [u1 c1] l IH].
  - exists (flat_map (fun '(s1, c1) => F s1 c1) more). split; [reflexivity |].
    cbn [open_bind snd]. intros Hc. now rewrite (Hmore Hc).
  - change (with_end x ((u1, c1) :: l)) with ((u1 +:+ x, c1) :: with_end x l).
    cbn [app flat_map open_bind].
    destruct (Hf u1 c1 (or_introl eq_refl)) as (more2 & H2 & Hm2).
    destruct (f u1 c1) as [l2 k2]. cbn [fst snd] in H2, Hm2. rewrite H2.
    destruct k2.
    + rewrite (Hm2 eq_refl), app_nil_r.
      destruct IH as (more3 & H3 & Hm3); [intros u c Hin; apply Hf; now right |].
      rewrite H3.
      destruct (open_bind l complete f) as [l3 k3]. cbn [fst snd] in *.
      exists more3. cbn [fst snd]. rewrite with_end_app, app_assoc. now split.
    + exists (more2 ++ flat_map (fun '(s1, c1) => F s1 c1) (with_end x l ++ more)).
      rewrite <- app_assoc. split; [reflexivity | discriminate].
Qed.

Lemma substring_start (n : nat) (u x : string) :
  (n <= String.length u)%nat ->
  String.substring 0 n (u +:+ x) = String.substring 0 n u.
Proof.
  revert u. induction n as [| n IH]; intros u Hn.
  - now destruct u, x.
  - destruct u as [| c u]; [cbn in Hn; lia |].
    rewrite append_cons. cbn. rewrite IH; [reflexivity | cbn in Hn; lia].
Qed.

Lemma consumed_with_end (u u1 w x : string) :
  u +:+ x = w +:+ (u1 +:+ x) -> Re.consumed (u +:+ x) (u1 +:+ x) = Re.consumed u u1.
Proof.
  intros H. apply (f_equal String.length) in H. rewrite !length_append in H.
  unfold Re.consumed. rewrite !length_append.
  replace (String.length u + String.length x - (String.length u1 + String.length x))%nat
    with (String.length u - String.length u1)%nat by lia.
  apply substring_start. lia.
Qed.

Lemma open_star_agrees (r : Re.regex) (x : string) :
  (forall u caps, agrees x (Re.matches r (u +:+ x) caps) (open_matches r u caps)) ->
  forall (fuel m : nat) (u : string) (caps : Re.captures),
    (String.length (u +:+ x) <= m)%nat ->
    agrees x (star_loop r m (u +:+ x) caps)
      ((fix star (fuel : nat) (u : string) (caps : Re.captures) : outcomes :=
          match fuel with
          | O => ([], false)
          | S fuel' =>
              let '(l1, k1) := open_matches r u caps in
              let '(l, k) :=
                open_bind l1 k1
                  (fun u1 c1 =>
                     if (String.length u1 <? String.length u)%nat
                     then star fuel' u1 c1 else ([], true)) in
              if k then (l ++ [(u, caps)], true) else (l, false)
          end) fuel u caps).
Proof.
  intros Hr. induction fuel as [| fuel IH]; intros m u caps Hm.
  - eexists. split; [reflexivity | discriminate].
  - rewrite (star_loop_fuel r m (S m)) by lia. cbn [star_loop].
    pose proof (Hr u caps) as H1.
    destruct (open_matches r u caps) as [l1 k1].
    match goal with
    | |- agrees _ _ (let '(l, k) := open_bind _ _ ?f in _) =>
        pose proof (agrees_bind x _ l1 k1
                      (fun s1 c1 => if (String.length s1 <? String.length (u +:+ x))%nat
                                    then star_loop r m s1 c1 else [])
                      f H1) as H2
    end.
    match type of H2 with
    | ?P -> _ => assert (Hp : P); [| specialize (H2 Hp); clear Hp]
    end.
    { intros u1 c1 _. rewrite !length_append.
      destruct (Nat.ltb_spec (String.length u1) (String.length u)) as [Hlt | Hge].
      - assert (Hlt' : (String.length u1 + String.length x
                        <? String.length u + String.length x)%nat = true)
          by (apply Nat.ltb_lt; lia).
        rewrite Hlt'. apply IH. rewrite !length_append in *. lia.
      - assert (Hge' : (String.length u1 + String.length x
                        <? String.length u + String.length x)%nat = false)
          by (apply Nat.ltb_ge; lia).
        rewrite Hge'. exists []. now split. }
    destruct (open_bind l1 k1 _) as [l k].
    destruct H2 as (more & H2 & Hmore). cbn [fst snd] in *. rewrite H2.
    destruct k.
    + rewrite (Hmore eq_refl), app_nil_r. exists []. split; [| reflexivity].
      cbn [fst]. rewrite with_end_app, app_nil_r. reflexivity.
    + eexists. rewrite <- app_assoc. split; [reflexivity | discriminate].
Qed.

(** The matcher on a text agrees with the outcomes on any start of it. *)
Lemma open_matches_agrees (r : Re.regex) (x : string) :
  forall (u : string) (caps : Re.captures),
    agrees x (Re.matches r (u +:+ x) caps) (open_matches r u caps).
Proof.
  induction r as [| p | r1 IH1 r2 IH2 | r1 IH1 r2 IH2 | r IH | n r IH]; intros u caps.
  - exists []. now split.
  - destruct u as [| c u].
    + eexists. split; [reflexivity | discriminate].
    + rewrite append_cons. cbn [Re.matches open_matches]. exists [].
      destruct (p c); now split.
  - rewrite matches_cat_eq. cbn [open_matches].
    pose proof (IH1 u caps) as H1. destruct (open_matches r1 u caps) as [l1 k1].
    apply (agrees_bind x _ l1 k1 (fun s1 c1 => Re.matches r2 s1 c1)); [exact H1 |].
    intros u1 c1 _. apply IH2.
  - cbn [Re.matches open_matches].
    destruct (IH1 u caps) as (more1 & H1 & Hm1). destruct (IH2 u caps) as (more2 & H2 & Hm2).
    destruct (open_matches r1 u caps) as [l1 k1]. cbn [fst snd] in *.
    destruct k1.
    + rewrite H1, (Hm1 eq_refl), app_nil_r, H2.
      destruct (open_matches r2 u caps) as [l2 k2]. cbn [fst snd] in *.
      exists more2. cbn [fst snd]. rewrite with_end_app, app_assoc. now split.
    + rewrite H1. eexists. rewrite <- app_assoc. split; [reflexivity | discriminate].
  - rewrite matches_star_loop.
    apply (open_star_agrees r x IH (S (String.length u))). lia.
  - rewrite matches_group_eq. cbn [open_matches].
    destruct (IH u caps) as (more & H & Hm).
    destruct (open_matches r u caps) as [l k]. cbn [fst snd] in *.
    exists (List.map (fun '(s1, c1) => (s1, (n, Re.consumed (u +:+ x) s1) :: c1)) more).
    cbn [fst snd]. split; [| intros Hk; now rewrite (Hm Hk)].
    rewrite H, map_app. f_equal. unfold with_end. rewrite !map_map.
    apply map_ext_in. intros [u1 c1] Hin.
    assert (Hin' : In (u1 +:+ x, c1) (Re.matches r (u +:+ x) caps)).
    { rewrite H. apply in_or_app. left. unfold with_end.
      apply in_map_iff. now exists (u1, c1). }
    apply matches_sound in Hin' as (w & Hw & _).
    now rewrite (consumed_with_end u u1 w x Hw).
Qed.

(** When the start of the text is enough to see that nothing matches. *)
Lemma open_matches_nil (r : Re.regex) (u x : string) (caps : Re.captures) :
  open_matches r u caps = ([], true) -> Re.matches r (u +:+ x) caps = [].
Proof.
  intros H. destruct (open_matches_agrees r x u caps) as (more & Hf & Hm).
  rewrite H in Hf, Hm. cbn in Hf, Hm. now rewrite Hf, (Hm eq_refl).
Qed.

(** When the start of the text is enough to see the first match. *)
Lemma open_matches_head
    (r : Re.regex) (u x : string) (caps : Re.captures)
    (u1 : string) (c1 : Re.captures) (l : list (string * Re.captures)) (k : bool) :
  open_matches r u caps = ((u1, c1) :: l, k) ->
  exists l', Re.matches r (u +:+ x) caps = (u1 +:+ x, c1) :: l'.
Proof.
  intros H. destruct (open_matches_agrees r x u caps) as (more & Hf & _).
  rewrite H in Hf. cbn in Hf. eexists. exact Hf.
Qed.

(** ** Delay in hours and minutes *)

Lemma delay_pattern_tail :
  delay_pattern = Re.Cat (Re.Group 1 (Re.Plus Re.digit)) delay_tail.
Proof. reflexivity. Qed.

(** *** Runs of digits *)

Lemma matches_chr_cons (p : ascii -> bool) (c : ascii) (s : string) (caps : Re.captures) :
  Re.matches (Re.Chr p) (String c s) caps = if p c then [(s, caps)] else [].
Proof. reflexivity. Qed.


Lemma star_digit_head (m t : string) (caps : Re.captures) :
  all_chars Str.is_digit m = true ->
  (forall c t', t = String c t' -> Str.is_digit c = false) ->
  exists l, Re.matches (Re.Star Re.digit) (m +:+ t) caps = (t, caps) :: l.
Proof.
  intros Hm Ht. induction m as [| d m IH].
  - rewrite append_nil. destruct t as [| c t'].
    + eexists. reflexivity.
    + unfold Re.digit. rewrite matches_star_chr_cons, (Ht c t' eq_refl). eexists. reflexivity.
  - cbn [all_chars] in Hm. apply andb_prop in Hm as [Hd Hm].
    rewrite append_cons. unfold Re.digit in *. rewrite matches_star_chr_cons, Hd.
    destruct (IH Hm) as [l ->]. eexists. reflexivity.
Qed.

(** The number of the delay pattern takes the whole run of digits
    first. *)
Lemma number_head (d : ascii) (m t : string) :
  all_chars Str.is_digit (String d m) = true ->
  (forall c t', t = String c t' -> Str.is_digit c = false) ->
  exists l, Re.matches (Re.Group 1 (Re.Plus Re.digit)) (String d m +:+ t) []
            = (t, [(1%nat, String d m)]) :: l.
Proof.
  intros Hm Ht. cbn [all_chars] in Hm. apply andb_prop in Hm as [Hd Hm].
  rewrite matches_group_eq. unfold Re.Plus. rewrite matches_cat_eq.
  rewrite append_cons. unfold Re.digit. rewrite matches_chr_cons, Hd.
  cbn [flat_map]. rewrite app_nil_r.
  destruct (star_digit_head m t [] Hm Ht) as [l Hl]. unfold Re.digit in Hl. rewrite Hl.
  cbn [List.map]. rewrite <- append_cons, consumed_append. eexists. reflexivity.
Qed.

(** What the number of the delay pattern leaves: the text after some of
    the digits at its start. *)
Lemma number_outcomes (s s1 : string) (c1 : Re.captures) :
  In (s1, c1) (Re.matches (Re.Group 1 (Re.Plus Re.digit)) s []) ->
  exists w, s = w +:+ s1 /\ all_chars Str.is_digit w = true /\ w <> "".
Proof.
  intros Hin. apply matches_sound in Hin as (w & -> & D).
  inversion D as [| | | | | | | n r w' k0 k1 D']; subst.
  apply derives_plus_chr in D' as (Ha & Hne & _). now exists w.
Qed.

Lemma digit_cases (c : ascii) :
  Str.is_digit c = true ->
  c ∈ ["0"; "1"; "2"; "3"; "4"; "5"; "6"; "7"; "8"; "9"]%char.
Proof.
  destruct c as [[] [] [] [] [] [] [] []]; intros H; try discriminate H;
    repeat (first [apply list_elem_of_here | apply list_elem_of_further]).
Qed.

(** The delay pattern matches at digits only. *)
Lemma delay_pattern_not_at (c : ascii) (s : string) :
  Str.is_digit c = false -> Re.matches delay_pattern (String c s) [] = [].
Proof.
  intros Hc. rewrite delay_pattern_tail. apply matches_cat_nil.
  rewrite matches_group_eq. unfold Re.Plus. rewrite matches_cat_eq.
  unfold Re.digit. now rewrite matches_chr_cons, Hc.
Qed.

(** After the number, a digit ends the match. *)
Lemma delay_tail_at_digit (c : ascii) (s : string) (caps : Re.captures) :
  Str.is_digit c = true -> Re.matches delay_tail (String c s) caps = [].
Proof.
  intros Hc. apply digit_cases in Hc.
  change (String c s) with (String c "" +:+ s).
  repeat (apply elem_of_cons in Hc as [-> | Hc];
          [apply open_matches_nil; vm_compute; reflexivity |]).
  now apply elem_of_nil in Hc.
Qed.

(** After the number, the hours and then a digit end the match. *)
Lemma delay_tail_at_hours (word : string) (d : ascii) (s : string) (caps : Re.captures) :
  word ∈ HOUR_WORDS -> Str.is_digit d = true ->
  Re.matches delay_tail (" " +:+ word +:+ " " +:+ String d s) caps = [].
Proof.
  intros Hw Hd. apply digit_cases in Hd. unfold HOUR_WORDS in Hw.
  replace (" " +:+ word +:+ " " +:+ String d s)
    with ((" " +:+ word +:+ " " +:+ String d "") +:+ s)
    by (rewrite !append_assoc; reflexivity).
  repeat (apply elem_of_cons in Hw as [-> | Hw];
          [repeat (apply elem_of_cons in Hd as [-> | Hd];
                   [apply open_matches_nil; vm_compute; reflexivity |]);
           now apply elem_of_nil in Hd |]).
  now apply elem_of_nil in Hw.
Qed.

(** After the number, " minutes late" is a match. *)
Lemma delay_tail_at_minutes_late (rest : string) (caps : Re.captures) :
  exists l, Re.matches delay_tail (" minutes late" +:+ rest) caps = (rest, caps) :: l.
Proof.
  destruct (open_matches delay_tail " minutes late" caps) as [[| [u1 c1] l] k] eqn:Ho;
    [vm_compute in Ho; discriminate |].
  destruct (open_matches_head _ _ rest _ _ _ _ _ Ho) as [l' Hl'].
  vm_compute in Ho. injection Ho as <- <- _ _. now exists l'.
Qed.

(** *** Parts of a text *)

Lemma app_suffix_cases (a sfx p q : string) :
  a +:+ sfx = p +:+ q ->
  (exists y, sfx = y +:+ q /\ p = a +:+ y) \/
  (exists a', a = p +:+ a' /\ q = a' +:+ sfx).
Proof.
  revert p. induction a as [| c a IH]; intros p H.
  - left. exists p. rewrite append_nil in H. now split.
  - destruct p as [| d p].
    + right. exists (String c a). rewrite append_nil in H. now split.
    + rewrite !append_cons in H. injection H as -> H.
      destruct (IH p H) as [(y & -> & ->) | (a' & -> & ->)].
      * left. now exists y.
      * right. now exists a'.
Qed.

Lemma all_chars_at (p : ascii -> bool) (x : string) (c : ascii) (y : string) :
  all_chars p (x +:+ String c y) = true -> p c = true /\ all_chars p y = true.
Proof.
  rewrite all_chars_append. cbn [all_chars].
  intros H. apply andb_prop in H as [_ H]. now apply andb_prop in H.
Qed.

(** A suffix of [p1 h p3] that starts with a digit starts in [h], when
    [p1] and [p3] have no digit and [h] has digits only. *)
Lemma digit_suffix (a : string) (c : ascii) (b p1 h p3 : string) :
  a +:+ String c b = p1 +:+ h +:+ p3 ->
  all_chars not_digit p1 = true -> all_chars Str.is_digit h = true ->
  all_chars not_digit p3 = true -> Str.is_digit c = true ->
  exists y, b = y +:+ p3 /\ all_chars Str.is_digit (String c y) = true.
Proof.
  intros H H1 Hh H3 Hc.
  assert (Hin : forall x y s, s = x +:+ String c y -> all_chars not_digit s = true -> False).
  { intros x y s -> Hs. apply all_chars_at in Hs as [Hs _].
    unfold not_digit in Hs. now rewrite Hc in Hs. }
  assert (Hh' : forall z, String c b = z +:+ p3 -> (exists x, h = x +:+ z) ->
                  exists y, b = y +:+ p3 /\ all_chars Str.is_digit (String c y) = true).
  { intros z Hz (x & ->). destruct z as [| e z].
    - rewrite append_nil in Hz. exfalso. apply (Hin "" b p3); [now rewrite <- Hz | exact H3].
    - rewrite append_cons in Hz. injection Hz as <- ->.
      exists z. split; [reflexivity |].
      rewrite all_chars_append in Hh. now apply andb_prop in Hh as [_ Hh]. }
  apply app_suffix_cases in H as [(y & Hy & ->) | (a' & -> & H)].
  - destruct y as [| e y].
    + rewrite append_nil in Hy. symmetry in Hy.
      destruct h as [| e h].
      * rewrite append_nil in Hy. exfalso. apply (Hin "" b p3); [now rewrite Hy | exact H3].
      * apply (Hh' (String e h)); [now symmetry | now exists ""].
    + rewrite append_cons in Hy. injection Hy as <- _.
      exfalso. apply (Hin a y (a +:+ String c y)); [reflexivity | exact H1].
  - symmetry in H. apply app_suffix_cases in H as [(y & Hy & ->) | (a'' & -> & H)].
    + apply (Hh' y Hy). now exists a'.
    + exfalso. apply (Hin a'' b p3); [exact H | exact H3].
Qed.

(** *** Hours and minutes *)

(** No match of the delay pattern starts in the hours. *)
Lemma delay_pattern_not_in_hours
    (c : ascii) (y word : string) (d : ascii) (s : string) :
  all_chars Str.is_digit (String c y) = true -> word ∈ HOUR_WORDS ->
  Str.is_digit d = true ->
  Re.matches delay_pattern (String c y +:+ " " +:+ word +:+ " " +:+ String d s) [] = [].
Proof.
  intros Hy Hw Hd. rewrite delay_pattern_tail, matches_cat_eq.
  apply flat_map_nil_ext. intros [s1 c1] Hin.
  apply number_outcomes in Hin as (w & Hs & Hw' & Hne).
  symmetry in Hs. apply app_suffix_cases in Hs as [(z & -> & Hz) | (w' & -> & Hs)].
  - destruct z as [| e z].
    + rewrite append_nil. now apply delay_tail_at_hours.
    + rewrite append_cons. apply delay_tail_at_digit.
      rewrite Hz, all_chars_append in Hy. apply andb_prop in Hy as [_ Hy].
      cbn [all_chars] in Hy. now apply andb_prop in Hy as [Hy _].
  - destruct w' as [| e w'].
    + rewrite append_nil in Hs. rewrite <- Hs. now apply delay_tail_at_hours.
    + rewrite !append_cons in Hs. injection Hs as <- _.
      rewrite all_chars_append in Hw'. apply andb_prop in Hw' as [_ Hw'].
      discriminate Hw'.
Qed.

Lemma hour_words_no_digit (word : string) :
  word ∈ HOUR_WORDS -> all_chars not_digit (" " +:+ word +:+ " ") = true.
Proof.
  unfold HOUR_WORDS. intros Hw.
  repeat (apply elem_of_cons in Hw as [-> | Hw]; [reflexivity |]).
  now apply elem_of_nil in Hw.
Qed.

Lemma digit_not_upper (c : ascii) : Str.is_digit c = true -> Str.lower_char c = c.
Proof.
  destruct c as [[] [] [] [] [] [] [] []]; intros H; try discriminate H; reflexivity.
Qed.

(** Digits and " minutes late" have no "hour". *)
Lemma no_hour_in_minutes (m : string) :
  all_chars Str.is_digit m = true ->
  Str.contains "hour" (Str.lower (m +:+ " minutes late")) = false.
Proof.
  induction m as [| d m IH]; intros Hm; [reflexivity |].
  cbn [all_chars] in Hm. apply andb_prop in Hm as [Hd Hm].
  rewrite append_cons. unfold Str.lower in *. cbn [Str.map].
  rewrite contains_cons, (IH Hm), orb_false_r, (digit_not_upper d Hd).
  cbn [String.prefix]. destruct (Ascii.ascii_dec "h" d) as [<- | _]; [discriminate Hd | reflexivity].
Qed.

(** In a duration in hours and minutes that ends in " minutes late" the
    delay pattern finds the number of the minutes. *)
Lemma delay_pattern_finds_minutes
    (subject h word : string) (d : ascii) (m rest : string) :
  all_chars not_digit subject = true ->
  all_chars Str.is_digit h = true -> word ∈ HOUR_WORDS ->
  all_chars Str.is_digit (String d m) = true ->
  Re.search delay_pattern
    (subject +:+ " "
     +:+ (h +:+ " " +:+ word +:+ " " +:+ String d m +:+ " minutes late" +:+ rest))
  = Some (String d m +:+ " minutes late", [(1%nat, String d m)]).
Proof.
  intros Hs Hh Hw Hm.
  set (t2 := String d m +:+ " minutes late" +:+ rest).
  replace (subject +:+ " " +:+ h +:+ " " +:+ word +:+ " " +:+ t2)
    with (((subject +:+ " ") +:+ h +:+ (" " +:+ word +:+ " ")) +:+ t2)
    by (rewrite !append_assoc; reflexivity).
  rewrite search_skip.
  - assert (Hd : Str.is_digit d = true)
      by (cbn [all_chars] in Hm; now apply andb_prop in Hm as [Hd _]).
    assert (Hhead : exists l, Re.matches delay_pattern t2 []
                              = (rest, [(1%nat, String d m)]) :: l).
    { rewrite delay_pattern_tail, matches_cat_eq. subst t2.
      destruct (number_head d m (" minutes late" +:+ rest) Hm) as [l Hl];
        [intros c t' [= <- _]; reflexivity |].
      rewrite Hl. cbn [flat_map].
      destruct (delay_tail_at_minutes_late rest [(1%nat, String d m)]) as [l' ->].
      eexists. reflexivity. }
    destruct Hhead as [l Hl]. rewrite (search_here _ _ _ _ _ Hl).
    subst t2. now rewrite <- append_assoc, consumed_append.
  - intros a c b Hsplit.
    destruct (Str.is_digit c) eqn:Hc.
    + assert (Hd : Str.is_digit d = true)
        by (cbn [all_chars] in Hm; now apply andb_prop in Hm as [Hd _]).
      symmetry in Hsplit.
      apply digit_suffix in Hsplit as (y & -> & Hy); try assumption.
      * subst t2. rewrite <- append_cons, !append_assoc.
        now apply delay_pattern_not_in_hours.
      * rewrite all_chars_append, Hs. reflexivity.
      * now apply hour_words_no_digit.
    + rewrite append_cons. now apply delay_pattern_not_at.
Qed.

(** X12.  Of a duration in hours and minutes only the minutes are kept:
    when the subject has no digit and the body starts with a number, a
    word for hours, a number of at most 4300 digits and " minutes late",
    [extract_data] returns, and the delay that it sets is the second
    number, whatever the hours are. *)
Theorem delay_mins_drops_the_hours
    (subject h word : string) (d : ascii) (m rest sender : string) :
  is_plain subject = true -> all_chars not_digit subject = true ->
  all_chars Str.is_digit h = true -> word ∈ HOUR_WORDS ->
  all_chars Str.is_digit (String d m) = true ->
  Z.of_nat (String.length (String d m)) <= MAX_STR_DIGITS ->
  exists data,
    call_extract_data subject
      (h +:+ " " +:+ word +:+ " " +:+ String d m +:+ " minutes late" +:+ rest) sender
    = Ok data /\
    Data.delay_mins data = Some (int_of_digits (String d m)).
Proof.
  intros _ Hs Hh Hw Hm Hlen.
  pose proof (delay_pattern_finds_minutes subject h word d m rest Hs Hh Hw Hm) as Hfound.
  eexists. split.
  - unfold call_extract_data, delay_read, delay_number. rewrite Hfound.
    change (default "" (Re.group 1 [(1%nat, String d m)])) with (String d m).
    apply Z.leb_le in Hlen. rewrite Hlen. reflexivity.
  - unfold extract_data. cbn [Data.delay_mins]. unfold extract_delay_mins.
    rewrite Hfound. rewrite (no_hour_in_minutes (String d m) Hm). reflexivity.
Qed.

(** "1 hour 30 minutes late" is a delay of 30 minutes. *)
Lemma delay_mins_drops_the_hours_witness :
  is_plain "Your train was delayed" = true /\
  all_chars not_digit "Your train was delayed" = true /\
  all_chars Str.is_digit "1" = true /\ "hour" ∈ HOUR_WORDS /\
  all_chars Str.is_digit "30" = true /\
  Z.of_nat (String.length "30") <= MAX_STR_DIGITS /\
  exists data,
    call_extract_data "Your train was delayed"
      ("1" +:+ " " +:+ "hour" +:+ " " +:+ "30" +:+ " minutes late" +:+ ".") ""
    = Ok data /\
    Data.delay_mins data = Some 30.
Proof.
  assert (H1 : is_plain "Your train was delayed" = true) by reflexivity.
  assert (H2 : all_chars not_digit "Your train was delayed" = true) by reflexivity.
  assert (H3 : all_chars Str.is_digit "1" = true) by reflexivity.
  assert (H4 : "hour" ∈ HOUR_WORDS) by apply list_elem_of_here.
  assert (H5 : all_chars Str.is_digit "30" = true) by reflexivity.
  assert (H6 : Z.of_nat (String.length "30") <= MAX_STR_DIGITS) by (vm_compute; discriminate).
  refine (conj H1 (conj H2 (conj H3 (conj H4 (conj H5 (conj H6 _)))))).
  exact (delay_mins_drops_the_hours "Your train was delayed" "1" "hour" "3" "0" "." ""
           H1 H2 H3 H4 H5 H6).
Defined.

(** ** Dates written day, month, year *)

Lemma matches_cat_assoc (r1 r2 r3 : Re.regex) (s : string) (caps : Re.captures) :
  Re.matches (Re.Cat r1 (Re.Cat r2 r3)) s caps = Re.matches (Re.Cat (Re.Cat r1 r2) r3) s caps.
Proof.
  rewrite !matches_cat_eq.
  induction (Re.matches r1 s caps) as [| [s1 c1] l IH]; [reflexivity |].
  cbn [flat_map]. rewrite flat_map_app, <- IH. f_equal.
Qed.

Lemma open_matches_all
    (r : Re.regex) (u x : string) (caps : Re.captures) (l : list (string * Re.captures)) :
  open_matches r u caps = (l, true) -> Re.matches r (u +:+ x) caps = with_end x l.
Proof.
  intros H. destruct (open_matches_agrees r x u caps) as (more & Hf & Hm).
  rewrite H in Hf, Hm. cbn [fst snd] in Hf, Hm. now rewrite Hf, (Hm eq_refl), app_nil_r.
Qed.

(** A part of a format that can only be read in one way. *)
Lemma matches_cat_one
    (r k : Re.regex) (u x : string) (caps caps' : Re.captures) :
  open_matches r u caps = ([("", caps')], true) ->
  Re.matches (Re.Cat r k) (u +:+ x) caps = Re.matches k x caps'.
Proof.
  intros H. rewrite matches_cat_eq, (open_matches_all r u x caps _ H).
  cbn [with_end List.map flat_map]. now rewrite append_nil, app_nil_r.
Qed.

Lemma matches_cat_none (r k : Re.regex) (u x : string) (caps : Re.captures) :
  open_matches r u caps = ([], true) -> Re.matches (Re.Cat r k) (u +:+ x) caps = [].
Proof. intros H. rewrite matches_cat_eq, (open_matches_all r u x caps _ H). reflexivity. Qed.

Lemma day_cases (d : Z) : 1 <= d <= 31 -> d ∈ seqZ 1 31.
Proof. intros H. apply elem_of_seqZ. lia. Qed.

Lemma month_cases (m : Z) : 1 <= m <= 12 -> m ∈ seqZ 1 12.
Proof. intros H. apply elem_of_seqZ. lia. Qed.

Ltac each_case H tac :=
  vm_compute in H;
  repeat (apply elem_of_cons in H as [-> | H]; [tac |]);
  now apply elem_of_nil in H.

(** The day and its separator, in a format that starts with [%d]. *)
Lemma day_then_separator
    (sep : ascii) (d : Z) (k : Re.regex) (x : string) (caps : Re.captures) :
  sep ∈ ["/"; "-"]%char -> 1 <= d <= 31 ->
  Re.matches (Re.Cat (Dt.directive_regex Dt.D_d) (Re.Cat (Re.ichar sep) k))
    (two_digits d +:+ String sep x) caps
  = Re.matches k x ((1%nat, two_digits d) :: caps) /\
  Dt.int_of_day (two_digits d) = d.
Proof.
  intros Hsep Hd. apply day_cases in Hd.
  rewrite matches_cat_assoc.
  replace (two_digits d +:+ String sep x) with ((two_digits d +:+ String sep "") +:+ x)
    by (rewrite append_assoc; reflexivity).
  repeat (apply elem_of_cons in Hsep as [-> | Hsep]); [| | now apply elem_of_nil in Hsep].
  - each_case Hd ltac:(split; [apply matches_cat_one; vm_compute; reflexivity | reflexivity]).
  - each_case Hd ltac:(split; [apply matches_cat_one; vm_compute; reflexivity | reflexivity]).
Qed.

(** A date with dashes is not in the format with slashes. *)
Lemma day_then_other_separator
    (d : Z) (k : Re.regex) (x : string) (caps : Re.captures) :
  1 <= d <= 31 ->
  Re.matches (Re.Cat (Dt.directive_regex Dt.D_d) (Re.Cat (Re.ichar "/") k))
    (two_digits d +:+ String "-" x) caps = [].
Proof.
  intros Hd. apply day_cases in Hd.
  rewrite matches_cat_assoc.
  replace (two_digits d +:+ String "-" x) with ((two_digits d +:+ String "-" "") +:+ x)
    by (rewrite append_assoc; reflexivity).
  each_case Hd ltac:(apply matches_cat_none; vm_compute; reflexivity).
Qed.

Lemma month_then_separator
    (sep : ascii) (m : Z) (k : Re.regex) (x : string) (caps : Re.captures) :
  sep ∈ ["/"; "-"]%char -> 1 <= m <= 12 ->
  Re.matches (Re.Cat (Dt.directive_regex Dt.D_m) (Re.Cat (Re.ichar sep) k))
    (two_digits m +:+ String sep x) caps
  = Re.matches k x ((2%nat, two_digits m) :: caps) /\
  int_of_digits (two_digits m) = m.
Proof.
  intros Hsep Hm. apply month_cases in Hm.
  rewrite matches_cat_assoc.
  replace (two_digits m +:+ String sep x) with ((two_digits m +:+ String sep "") +:+ x)
    by (rewrite append_assoc; reflexivity).
  repeat (apply elem_of_cons in Hsep as [-> | Hsep]); [| | now apply elem_of_nil in Hsep].
  - each_case Hm ltac:(split; [apply matches_cat_one; vm_compute; reflexivity | reflexivity]).
  - each_case Hm ltac:(split; [apply matches_cat_one; vm_compute; reflexivity | reflexivity]).
Qed.

(** *** Digits *)

Lemma digit_char_code (n : Z) :
  nat_of_ascii (Dt.digit_char n) = (48 + Z.to_nat (n mod 10))%nat.
Proof.
  unfold Dt.digit_char. apply nat_ascii_embedding.
  pose proof (Z.mod_pos_bound n 10 ltac:(lia)). lia.
Qed.

Lemma digit_char_is_digit (n : Z) : Str.is_digit (Dt.digit_char n) = true.
Proof.
  unfold Str.is_digit. rewrite digit_char_code.
  pose proof (Z.mod_pos_bound n 10 ltac:(lia)).
  apply andb_true_intro. split; apply Nat.leb_le; lia.
Qed.

Lemma digit_char_value (n : Z) :
  Z.of_nat (nat_of_ascii (Dt.digit_char n)) - 48 = n mod 10.
Proof.
  rewrite digit_char_code. pose proof (Z.mod_pos_bound n 10 ltac:(lia)). lia.
Qed.

Lemma int_of_four_digits (y : Z) : 0 <= y <= 9999 -> int_of_digits (four_digits y) = y.
Proof.
  intros Hy. unfold int_of_digits, four_digits, two_digits.
  rewrite !digit_char_value.
  pose proof (Z.div_mod y 10 ltac:(lia)).
  pose proof (Z.div_mod (y / 10) 10 ltac:(lia)).
  pose proof (Z.div_mod (y / 100) 10 ltac:(lia)).
  assert (E100 : y / 100 = y / 10 / 10) by (rewrite Z.div_div by lia; reflexivity).
  assert (E1000 : y / 1000 = y / 100 / 10) by (rewrite Z.div_div by lia; reflexivity).
  assert (Hs : (y / 1000) mod 10 = y / 1000).
  { apply Z.mod_small. split; [apply Z.div_pos; lia |].
    apply Z.div_lt_upper_bound; lia. }
  pose proof (Z.div_mod (y / 1000) 10 ltac:(lia)).
  rewrite Hs. rewrite E1000 in *. rewrite E100 in *. lia.
Qed.

(** The year at the end of a format. *)
Lemma year_at_end (y : Z) (caps : Re.captures) :
  Re.matches (Re.Cat (Dt.directive_regex Dt.D_Y) Re.Eps) (four_digits y) caps
  = [("", (3%nat, four_digits y) :: caps)].
Proof.
  unfold four_digits, two_digits. cbn [Dt.directive_regex Re.seq].
  rewrite matches_cat_eq, matches_group_eq. unfold Re.digit.
  rewrite !matches_cat_eq, matches_chr_cons, digit_char_is_digit. cbn [flat_map].
  rewrite app_nil_r, !matches_cat_eq, matches_chr_cons, digit_char_is_digit. cbn [flat_map].
  rewrite app_nil_r, !matches_cat_eq, matches_chr_cons, digit_char_is_digit. cbn [flat_map].
  rewrite app_nil_r, !matches_cat_eq, matches_chr_cons, digit_char_is_digit. cbn [flat_map].
  reflexivity.
Qed.

(** *** Reading a date *)

Lemma format_regex_day_month_year (sep : ascii) :
  Dt.format_regex [Dt.D_d; Dt.D_lit sep; Dt.D_m; Dt.D_lit sep; Dt.D_Y]
  = Re.Cat (Dt.directive_regex Dt.D_d)
      (Re.Cat (Re.ichar sep)
         (Re.Cat (Dt.directive_regex Dt.D_m)
            (Re.Cat (Re.ichar sep) (Re.Cat (Dt.directive_regex Dt.D_Y) Re.Eps)))).
Proof. reflexivity. Qed.

Lemma valid_date_bounds (y m d : Z) :
  valid_date y m d = true -> 1 <= y /\ 1 <= m <= 12 /\ 1 <= d <= 31.
Proof.
  unfold valid_date, Dt.between. intros H.
  apply andb_prop in H as [H Hd]. apply andb_prop in H as [Hy Hm].
  apply andb_prop in Hm as [Hm1 Hm2]. apply andb_prop in Hd as [Hd1 Hd2].
  apply Z.leb_le in Hy, Hm1, Hm2, Hd1, Hd2.
  assert (Hdim : Dt.days_in_month y m <= 31).
  { unfold Dt.days_in_month. destruct (_ && _); [lia |].
    assert (Hm : m ∈ seqZ 1 12) by (apply elem_of_seqZ; lia).
    vm_compute in Hm.
    repeat (apply elem_of_cons in Hm as [-> | Hm]; [vm_compute; discriminate |]).
    now apply elem_of_nil in Hm. }
  lia.
Qed.

(** [strptime] reads the day, the month and the year of a date of the
    calendar, in the format with the separator of the date. *)
Lemma strptime_day_month_year (sep : ascii) (y m d : Z) :
  sep ∈ ["/"; "-"]%char -> valid_date y m d = true -> y <= 9999 ->
  Dt.strptime (day_month_year sep y m d) [Dt.D_d; Dt.D_lit sep; Dt.D_m; Dt.D_lit sep; Dt.D_Y]
  = Ok (Dt.mk_datetime (Dt.mk_civil y m d 0 0 0 0) None).
Proof.
  intros Hsep Hv Hy. destruct (valid_date_bounds y m d Hv) as (Hy1 & Hm & Hd).
  unfold Dt.strptime, Re.match_start, day_month_year.
  rewrite format_regex_day_month_year.
  destruct (day_then_separator sep d
              (Re.Cat (Dt.directive_regex Dt.D_m)
                 (Re.Cat (Re.ichar sep) (Re.Cat (Dt.directive_regex Dt.D_Y) Re.Eps)))
              (two_digits m +:+ String sep (four_digits y)) [] Hsep Hd) as [-> Hday].
  destruct (month_then_separator sep m (Re.Cat (Dt.directive_regex Dt.D_Y) Re.Eps)
              (four_digits y) [(1%nat, two_digits d)] Hsep Hm) as [-> Hmonth].
  rewrite year_at_end. cbn [Str.truthy Re.group Nat.eqb].
  cbn [fmap option_fmap option_map default from_option id].
  rewrite Hday, Hmonth, int_of_four_digits by lia.
  unfold Dt.make. unfold valid_date in Hv.
  apply andb_prop in Hv as [Hv Hdv]. apply andb_prop in Hv as [_ Hmv].
  rewrite Hmv, Hdv. unfold Dt.between at 1.
  destruct (Z.leb_spec 1 y); [| lia]. destruct (Z.leb_spec y 9999); [| lia].
  reflexivity.
Qed.

Lemma strptime_slashes_on_dashes (y m d : Z) :
  valid_date y m d = true ->
  Dt.strptime (day_month_year "-" y m d) [Dt.D_d; Dt.D_lit "/"; Dt.D_m; Dt.D_lit "/"; Dt.D_Y]
  = Raise ValueError.
Proof.
  intros Hv. destruct (valid_date_bounds y m d Hv) as (_ & _ & Hd).
  unfold Dt.strptime, Re.match_start, day_month_year.
  rewrite format_regex_day_month_year.
  now rewrite day_then_other_separator.
Qed.

Lemma digit_not_T (c : ascii) : Str.is_digit c = true -> c <> "T"%char.
Proof. intros H ->. discriminate H. Qed.

Lemma contains_T_cons (c : ascii) (s : string) :
  c <> "T"%char -> Str.contains "T" (String c s) = Str.contains "T" s.
Proof.
  intros Hc. rewrite contains_cons. cbn [String.prefix].
  destruct (Ascii.ascii_dec "T" c) as [<- | _]; [congruence | reflexivity].
Qed.

Lemma day_month_year_no_T (sep : ascii) (y m d : Z) :
  sep ∈ ["/"; "-"]%char -> Str.contains "T" (day_month_year sep y m d) = false.
Proof.
  intros Hsep.
  assert (Hs : sep <> "T"%char).
  { repeat (apply elem_of_cons in Hsep as [-> | Hsep]; [discriminate |]).
    now apply elem_of_nil in Hsep. }
  unfold day_month_year, four_digits, two_digits.
  rewrite !append_cons, !append_nil.
  repeat (rewrite contains_T_cons;
          [| first [exact Hs | apply digit_not_T, digit_char_is_digit]]).
  reflexivity.
Qed.

Lemma parse_day_month_year (sep : ascii) (y m d : Z) :
  sep ∈ ["/"; "-"]%char -> valid_date y m d = true -> y <= 9999 ->
  parse_journey_date (day_month_year sep y m d)
  = Ok (Some (Dt.mk_datetime (Dt.mk_civil y m d 0 0 0 0) None)).
Proof.
  intros Hsep Hv Hy. unfold parse_journey_date.
  rewrite day_month_year_no_T by assumption.
  pose proof (strptime_day_month_year sep y m d Hsep Hv Hy) as Hp.
  unfold DATE_FORMATS. cbn [try_formats].
  repeat (apply elem_of_cons in Hsep as [-> | Hsep]); [| | now apply elem_of_nil in Hsep].
  - now rewrite Hp.
  - now rewrite strptime_slashes_on_dashes, Hp.
Qed.

(** X13.  A journey date written day, month, year with slashes or with
    dashes, for a date of the calendar of the years 1000 to 9999, is read
    as that date, at midnight: the deadline is the date that many days
    later, in the form year-month-day, and the status is "expired" when the
    clock, as a date and a time, is past the midnight that starts the
    deadline date, "active" otherwise; a deadline that would fall after the
    year 9999 is "unknown". *)
Theorem get_claim_deadline_day_month_year
    (operator : option string) (sep : ascii) (y m d : Z) (clock : Dt.civil) :
  sep ∈ ["/"; "-"]%char -> valid_date y m d = true -> 1000 <= y <= 9999 ->
  get_claim_deadline operator (Some (day_month_year sep y m d)) clock
  = match Dt.add_days (Dt.mk_datetime (Dt.mk_civil y m d 0 0 0 0) None)
            (deadline_days_of operator) with
    | Ok deadline_date =>
        Ok (Some (Dt.strftime_ymd deadline_date),
            if Dt.lex_gtb (Dt.fields clock) (Dt.fields (Dt.local deadline_date))
            then Expired else Active)
    | Raise _ => Ok (None, Unknown)
    end.
Proof.
  intros Hsep Hv Hy.
  pose proof (parse_day_month_year sep y m d Hsep Hv ltac:(lia)) as Hp.
  destruct (Dt.add_days _ _) as [deadline_date | e] eqn:Hadd.
  - apply (get_claim_deadline_naive operator _ clock
             (Dt.mk_datetime (Dt.mk_civil y m d 0 0 0 0) None) deadline_date);
      [reflexivity | exact Hp | reflexivity | exact Hadd].
  - unfold get_claim_deadline, deadline_of_journey. rewrite Hp.
    cbn [Str.truthy day_month_year two_digits String.append negb mbind result_bind].
    now rewrite Hadd.
Qed.

(** The journey of 15/03/2024 on LNER, seen on the first of April, and seen
    on the deadline date itself, one second after midnight. *)
Lemma get_claim_deadline_day_month_year_witness :
  "/"%char ∈ ["/"; "-"]%char /\ valid_date 2024 3 15 = true /\ 1000 <= 2024 <= 9999 /\
  day_month_year "/" 2024 3 15 = "15/03/2024" /\
  get_claim_deadline (Some "LNER") (Some "15/03/2024") (Dt.mk_civil 2024 4 1 9 0 0 0)
  = Ok (Some "2024-04-12", Active) /\
  get_claim_deadline (Some "LNER") (Some "15/03/2024") (Dt.mk_civil 2024 4 12 0 0 1 0)
  = Ok (Some "2024-04-12", Expired).
Proof.
  assert (H1 : "/"%char ∈ ["/"; "-"]%char) by apply list_elem_of_here.
  assert (H2 : valid_date 2024 3 15 = true) by reflexivity.
  assert (H3 : 1000 <= 2024 <= 9999) by lia.
  refine (conj H1 (conj H2 (conj H3 (conj eq_refl _)))).
  split.
  - exact (get_claim_deadline_day_month_year (Some "LNER") "/" 2024 3 15
             (Dt.mk_civil 2024 4 1 9 0 0 0) H1 H2 H3).
  - exact (get_claim_deadline_day_month_year (Some "LNER") "/" 2024 3 15
             (Dt.mk_civil 2024 4 12 0 0 1 0) H1 H2 H3).
Defined.

(** ** Adding days *)

Lemma days_before_month_nonneg (y m : Z) : 1 <= m <= 12 -> 0 <= Dt.days_before_month y m.
Proof.
  intros Hm. unfold Dt.days_before_month.
  assert (H : m ∈ seqZ 1 12) by (apply elem_of_seqZ; lia).
  vm_compute in H.
  repeat (apply elem_of_cons in H as [-> | H];
          [destruct (_ && _); vm_compute; discriminate |]).
  now apply elem_of_nil in H.
Qed.

Lemma days_before_year_after_9999 (y : Z) :
  10000 <= y -> Dt.MAXORDINAL <= Dt.days_before_year y.
Proof.
  intros Hy. unfold Dt.days_before_year, Dt.MAXORDINAL.
  set (y' := y - 1).
  assert (H100 : y' / 100 <= y' / 4 - 2400).
  { pose proof (Z.div_mod y' 100 ltac:(lia)). pose proof (Z.mod_pos_bound y' 100 ltac:(lia)).
    pose proof (Z.div_mod y' 4 ltac:(lia)). pose proof (Z.mod_pos_bound y' 4 ltac:(lia)).
    subst y'. lia. }
  assert (H400 : 24 <= y' / 400).
  { apply Z.div_le_lower_bound; subst y'; lia. }
  subst y'. lia.
Qed.

Lemma year_bound (o y m d : Z) :
  valid_date y m d = true -> Dt.ymd2ord y m d = o -> o <= Dt.MAXORDINAL -> y <= 9999.
Proof.
  intros Hv Hord Ho2.
  destruct (Z.le_gt_cases y 9999) as [| Hbig]; [assumption | exfalso].
  destruct (valid_date_bounds y m d Hv) as (_ & Hm & Hd).
  pose proof (days_before_year_after_9999 y ltac:(lia)).
  pose proof (days_before_month_nonneg y m Hm).
  unfold Dt.ymd2ord in Hord. lia.
Qed.

Lemma add_days_inv (t t' : Dt.datetime) (n o : Z) :
  o = Dt.ymd2ord (Dt.year (Dt.local t)) (Dt.month (Dt.local t)) (Dt.day (Dt.local t)) + n ->
  Dt.add_days t n = Ok t' ->
  1 <= o /\ o <= Dt.MAXORDINAL /\
  exists y m d,
    Dt.ord2ymd o = (y, m, d) /\
    t' = Dt.mk_datetime
           (Dt.mk_civil y m d (Dt.hour (Dt.local t)) (Dt.minute (Dt.local t))
              (Dt.second (Dt.local t)) (Dt.microsecond (Dt.local t)))
           (Dt.tzinfo t).
Proof.
  intros Eo H. unfold Dt.add_days in H. rewrite <- Eo in H.
  destruct (0 <? o) eqn:H1; [| discriminate].
  destruct (o <=? Dt.MAXORDINAL) eqn:H2; [| discriminate].
  cbn [andb] in H. apply Z.ltb_lt in H1. apply Z.leb_le in H2.
  destruct (Dt.ord2ymd o) as [[y m] d].
  injection H as <-. repeat split; [lia | assumption |]. now exists y, m, d.
Qed.

(** X14.  Adding days to a date gives a date of the calendar, of a year up
    to 9999, that is exactly that many days later by the count of days
    since the year 1; the time of day and the time zone are kept. *)
Theorem add_days_exact (t t' : Dt.datetime) (n : Z) :
  Dt.add_days t n = Ok t' ->
  let c := Dt.local t in
  let c' := Dt.local t' in
  valid_date (Dt.year c') (Dt.month c') (Dt.day c') = true /\
  Dt.year c' <= 9999 /\
  Dt.ymd2ord (Dt.year c') (Dt.month c') (Dt.day c')
  = Dt.ymd2ord (Dt.year c) (Dt.month c) (Dt.day c) + n /\
  (Dt.hour c', Dt.minute c', Dt.second c', Dt.microsecond c')
  = (Dt.hour c, Dt.minute c, Dt.second c, Dt.microsecond c) /\
  Dt.tzinfo t' = Dt.tzinfo t.
Proof.
  intros H c c'. subst c'.
  apply (add_days_inv t t' n _ eq_refl) in H as (Ho1 & Ho2 & y & m & d & E & ->).
  pose proof (ord2ymd_ymd2ord _ Ho1) as Hord. rewrite E in Hord. destruct Hord as [Hv Hord].
  cbn [Dt.local Dt.tzinfo Dt.year Dt.month Dt.day Dt.hour Dt.minute Dt.second Dt.microsecond].
  split; [exact Hv |]. split; [exact (year_bound _ y m d Hv Hord Ho2) |].
  split; [exact Hord |]. split; reflexivity.
Qed.

Lemma add_days_exact_witness :
  let t := Dt.mk_datetime (Dt.mk_civil 2024 2 15 10 30 0 0) None in
  let t' := Dt.mk_datetime (Dt.mk_civil 2024 3 14 10 30 0 0) None in
  Dt.add_days t 28 = Ok t' /\
  Dt.ymd2ord 2024 3 14 = Dt.ymd2ord 2024 2 15 + 28.
Proof.
  intros t t'.
  assert (H : Dt.add_days t 28 = Ok t') by reflexivity.
  split; [exact H |].
  exact (proj1 (proj2 (proj2 (add_days_exact t t' 28 H)))).
Defined.

(** ** Dates that are not read *)

Lemma strptime_no_match (data : string) (fmt : list Dt.directive) :
  Re.matches (Dt.format_regex fmt) data [] = [] -> Dt.strptime data fmt = Raise ValueError.
Proof. intros H. unfold Dt.strptime, Re.match_start. now rewrite H. Qed.

Lemma format_regex_cons2 (d1 d2 : Dt.directive) (fmt : list Dt.directive) :
  Dt.format_regex (d1 :: d2 :: fmt)
  = Re.Cat (Dt.directive_regex d1)
      (Re.Cat (Dt.directive_regex d2) (Re.seq (List.map Dt.directive_regex fmt))).
Proof. reflexivity. Qed.

(** A text that starts with a day and a slash or a dash is in none of the
    formats that start otherwise. *)
Lemma strptime_other_formats (sep : ascii) (d : Z) (x : string) (fmt : list Dt.directive) :
  sep ∈ ["/"; "-"]%char -> 1 <= d <= 31 ->
  fmt ∈ [ [Dt.D_Y; Dt.D_lit "-"; Dt.D_m; Dt.D_lit "-"; Dt.D_d];
          [Dt.D_d; Dt.D_ws; Dt.D_b; Dt.D_ws; Dt.D_Y];
          [Dt.D_d; Dt.D_ws; Dt.D_B; Dt.D_ws; Dt.D_Y] ] ->
  Dt.strptime (two_digits d +:+ String sep x) fmt = Raise ValueError.
Proof.
  intros Hsep Hd Hfmt. apply day_cases in Hd. apply strptime_no_match.
  replace (two_digits d +:+ String sep x) with ((two_digits d +:+ String sep "") +:+ x)
    by (rewrite append_assoc; reflexivity).
  repeat (apply elem_of_cons in Hfmt as [-> | Hfmt]);
    [| | | now apply elem_of_nil in Hfmt];
    rewrite format_regex_cons2, matches_cat_assoc;
    (repeat (apply elem_of_cons in Hsep as [-> | Hsep]); [| | now apply elem_of_nil in Hsep]);
    each_case Hd ltac:(apply matches_cat_none; vm_compute; reflexivity).
Qed.

Lemma strptime_dashes_on_slashes (d : Z) (x : string) :
  1 <= d <= 31 ->
  Dt.strptime (two_digits d +:+ String "/" x)
    [Dt.D_d; Dt.D_lit "-"; Dt.D_m; Dt.D_lit "-"; Dt.D_Y] = Raise ValueError.
Proof.
  intros Hd. apply day_cases in Hd. apply strptime_no_match.
  replace (two_digits d +:+ String "/" x) with ((two_digits d +:+ String "/" "") +:+ x)
    by (rewrite append_assoc; reflexivity).
  rewrite format_regex_cons2, matches_cat_assoc.
  each_case Hd ltac:(apply matches_cat_none; vm_compute; reflexivity).
Qed.

Lemma strptime_slashes_on_dashes' (d : Z) (x : string) :
  1 <= d <= 31 ->
  Dt.strptime (two_digits d +:+ String "-" x)
    [Dt.D_d; Dt.D_lit "/"; Dt.D_m; Dt.D_lit "/"; Dt.D_Y] = Raise ValueError.
Proof.
  intros Hd. apply strptime_no_match. rewrite format_regex_day_month_year.
  now apply day_then_other_separator.
Qed.

(** A text that starts with a day and a separator: the one format that
    can read it is the format with that separator. *)
Lemma try_formats_day_first (sep : ascii) (d : Z) (x : string) :
  sep ∈ ["/"; "-"]%char -> 1 <= d <= 31 ->
  try_formats (two_digits d +:+ String sep x) DATE_FORMATS
  = match Dt.strptime (two_digits d +:+ String sep x)
            [Dt.D_d; Dt.D_lit sep; Dt.D_m; Dt.D_lit sep; Dt.D_Y] with
    | Ok jdate => Some jdate
    | Raise _ => None
    end.
Proof.
  intros Hsep Hd. unfold DATE_FORMATS. cbn [try_formats].
  assert (Hother : forall fmt,
             fmt ∈ [ [Dt.D_Y; Dt.D_lit "-"; Dt.D_m; Dt.D_lit "-"; Dt.D_d];
                     [Dt.D_d; Dt.D_ws; Dt.D_b; Dt.D_ws; Dt.D_Y];
                     [Dt.D_d; Dt.D_ws; Dt.D_B; Dt.D_ws; Dt.D_Y] ] ->
             Dt.strptime (two_digits d +:+ String sep x) fmt = Raise ValueError)
    by (intros fmt Hfmt; now apply strptime_other_formats).
  rewrite (Hother _ ltac:(apply list_elem_of_here)).
  rewrite (Hother _ ltac:(apply list_elem_of_further, list_elem_of_here)).
  rewrite (Hother _ ltac:(do 2 apply list_elem_of_further; apply list_elem_of_here)).
  repeat (apply elem_of_cons in Hsep as [-> | Hsep]); [| | now apply elem_of_nil in Hsep].
  - rewrite strptime_dashes_on_slashes by assumption. now destruct (Dt.strptime _ _).
  - rewrite strptime_slashes_on_dashes' by assumption. now destruct (Dt.strptime _ _).
Qed.

(** A year of two digits is no year for [strptime]. *)
Lemma year_of_two_digits (yy : Z) (caps : Re.captures) :
  Re.matches (Re.Cat (Dt.directive_regex Dt.D_Y) Re.Eps) (two_digits yy) caps = [].
Proof.
  unfold two_digits. cbn [Dt.directive_regex Re.seq].
  rewrite matches_cat_eq, matches_group_eq. unfold Re.digit.
  rewrite !matches_cat_eq, matches_chr_cons, digit_char_is_digit. cbn [flat_map].
  rewrite app_nil_r, !matches_cat_eq, matches_chr_cons, digit_char_is_digit. cbn [flat_map].
  reflexivity.
Qed.

Lemma no_T_two_digit_year (sep : ascii) (d m yy : Z) :
  sep ∈ ["/"; "-"]%char ->
  Str.contains "T" (two_digits d +:+ String sep (two_digits m +:+ String sep (two_digits yy)))
  = false.
Proof.
  intros Hsep.
  assert (Hs : sep <> "T"%char).
  { repeat (apply elem_of_cons in Hsep as [-> | Hsep]; [discriminate |]).
    now apply elem_of_nil in Hsep. }
  unfold two_digits. rewrite !append_cons, !append_nil.
  repeat (rewrite contains_T_cons;
          [| first [exact Hs | apply digit_not_T, digit_char_is_digit]]).
  reflexivity.
Qed.

(** X15.  A date written day, month, year with a year of two digits, as
    the first date pattern of [extract_data] accepts it, gives no deadline:
    every format asks for a year of four digits. *)
Theorem get_claim_deadline_two_digit_year
    (operator : option string) (sep : ascii) (d m yy : Z) (clock : Dt.civil) :
  sep ∈ ["/"; "-"]%char -> 1 <= d <= 31 -> 1 <= m <= 12 ->
  get_claim_deadline operator
    (Some (two_digits d +:+ String sep (two_digits m +:+ String sep (two_digits yy)))) clock
  = Ok (None, Unknown).
Proof.
  intros Hsep Hd Hm. apply get_claim_deadline_unparsed. left.
  unfold parse_journey_date. rewrite no_T_two_digit_year by assumption.
  rewrite try_formats_day_first by assumption.
  rewrite strptime_no_match; [reflexivity |].
  rewrite format_regex_day_month_year.
  destruct (day_then_separator sep d
              (Re.Cat (Dt.directive_regex Dt.D_m)
                 (Re.Cat (Re.ichar sep) (Re.Cat (Dt.directive_regex Dt.D_Y) Re.Eps)))
              (two_digits m +:+ String sep (two_digits yy)) [] Hsep Hd) as [-> _].
  destruct (month_then_separator sep m (Re.Cat (Dt.directive_regex Dt.D_Y) Re.Eps)
              (two_digits yy) [(1%nat, two_digits d)] Hsep Hm) as [-> _].
  apply year_of_two_digits.
Qed.

(** The date "15/03/24", which the first date pattern takes from the text
    "Journey: 15/03/24". *)
Lemma get_claim_deadline_two_digit_year_witness :
  "/"%char ∈ ["/"; "-"]%char /\ 1 <= 15 <= 31 /\ 1 <= 3 <= 12 /\
  Data.journey_date (extract_data "Delay" "Journey: 15/03/24 was 45 minutes late" "")
  = Some "15/03/24" /\
  get_claim_deadline (Some "LNER") (Some "15/03/24") (Dt.mk_civil 2024 4 1 9 0 0 0)
  = Ok (None, Unknown).
Proof.
  assert (H1 : "/"%char ∈ ["/"; "-"]%char) by apply list_elem_of_here.
  assert (H2 : 1 <= 15 <= 31) by lia.
  assert (H3 : 1 <= 3 <= 12) by lia.
  refine (conj H1 (conj H2 (conj H3 _))).
  split; [vm_compute; reflexivity |].
  exact (get_claim_deadline_two_digit_year (Some "LNER") "/" 15 3 24
           (Dt.mk_civil 2024 4 1 9 0 0 0) H1 H2 H3).
Defined.

(** X16.  A date written day, month, year whose day the month does not
    have, or whose year is 0, gives no deadline: the date is refused when
    it is built, and no other format reads the text. *)
Theorem get_claim_deadline_impossible_date
    (operator : option string) (sep : ascii) (y m d : Z) (clock : Dt.civil) :
  sep ∈ ["/"; "-"]%char -> 1 <= d <= 31 -> 1 <= m <= 12 -> 0 <= y <= 9999 ->
  valid_date y m d = false ->
  get_claim_deadline operator (Some (day_month_year sep y m d)) clock = Ok (None, Unknown).
Proof.
  intros Hsep Hd Hm Hy Hv. apply get_claim_deadline_unparsed. left.
  unfold parse_journey_date. rewrite day_month_year_no_T by assumption.
  unfold day_month_year. rewrite try_formats_day_first by assumption.
  unfold Dt.strptime, Re.match_start. rewrite format_regex_day_month_year.
  destruct (day_then_separator sep d
              (Re.Cat (Dt.directive_regex Dt.D_m)
                 (Re.Cat (Re.ichar sep) (Re.Cat (Dt.directive_regex Dt.D_Y) Re.Eps)))
              (two_digits m +:+ String sep (four_digits y)) [] Hsep Hd) as [-> Hday].
  destruct (month_then_separator sep m (Re.Cat (Dt.directive_regex Dt.D_Y) Re.Eps)
              (four_digits y) [(1%nat, two_digits d)] Hsep Hm) as [-> Hmonth].
  rewrite year_at_end. cbn [Str.truthy Re.group Nat.eqb].
  cbn [fmap option_fmap option_map default from_option id].
  rewrite Hday, Hmonth, int_of_four_digits by lia.
  unfold Dt.make. unfold valid_date in Hv.
  destruct (Dt.between 1 y 9999) eqn:Hy1; [| reflexivity].
  assert (Hy' : (1 <=? y) = true).
  { unfold Dt.between in Hy1. now apply andb_prop in Hy1 as [Hy1 _]. }
  rewrite Hy' in Hv. cbn [andb] in Hv |- *. now rewrite Hv.
Qed.

(** The 31st of February. *)
Lemma get_claim_deadline_impossible_date_witness :
  "/"%char ∈ ["/"; "-"]%char /\ 1 <= 31 <= 31 /\ 1 <= 2 <= 12 /\ 0 <= 2024 <= 9999 /\
  valid_date 2024 2 31 = false /\
  get_claim_deadline (Some "LNER") (Some "31/02/2024") (Dt.mk_civil 2024 4 1 9 0 0 0)
  = Ok (None, Unknown).
Proof.
  assert (H1 : "/"%char ∈ ["/"; "-"]%char) by apply list_elem_of_here.
  assert (H2 : 1 <= 31 <= 31) by lia.
  assert (H3 : 1 <= 2 <= 12) by lia.
  assert (H4 : 0 <= 2024 <= 9999) by lia.
  assert (H5 : valid_date 2024 2 31 = false) by reflexivity.
  refine (conj H1 (conj H2 (conj H3 (conj H4 (conj H5 _))))).
  exact (get_claim_deadline_impossible_date (Some "LNER") "/" 2024 2 31
           (Dt.mk_civil 2024 4 1 9 0 0 0) H1 H2 H3 H4 H5).
Defined.

(** ** Headers *)

Lemma headers_of_snoc (hs : list (string * string)) (h : string * string) :
  headers_of (hs ++ [h]) = <[Str.lower (fst h) := snd h]> (headers_of hs).
Proof. unfold headers_of. now rewrite foldl_app. Qed.

Lemma header_last (hs : list (string * string)) (name : string) :
  header (headers_of hs) name
  = default ""
      (snd <$> last (List.filter (fun h => bool_decide (Str.lower (fst h) = name)) hs)).
Proof.
  unfold header. f_equal.
  induction hs as [| h hs IH] using rev_ind; [reflexivity |].
  rewrite headers_of_snoc, List.filter_app. cbn [List.filter].
  case_bool_decide as Hname.
  - rewrite Hname, lookup_insert_eq, last_snoc. reflexivity.
  - rewrite lookup_insert_ne by assumption. now rewrite app_nil_r.
Qed.

(** X17.  The sender, the subject and the date of a message are read from
    its headers by name, in any case of the letters of the name: each is
    the value of the last header of that name, and the empty string when
    the message has no header of that name. *)
Theorem read_message_headers
    (decode : string -> result string) (full_msg : Gmail.message) (msg : Message.t) :
  read_message decode full_msg = Ok msg ->
  let last_of name :=
    default ""
      (snd <$> last (List.filter (fun h => bool_decide (Str.lower (fst h) = name))
                       (Gmail.headers full_msg))) in
  Message.sender msg = last_of "from" /\
  Message.subject msg = last_of "subject" /\
  Message.date msg = last_of "date".
Proof.
  unfold read_message. destruct (extract_body decode _) as [body | e]; [| discriminate].
  intros [= <-]. cbn [Message.sender Message.subject Message.date].
  now rewrite !header_last.
Qed.

Lemma read_message_headers_witness :
  let full_msg :=
    Gmail.mk_message
      [ ("Date", "Fri, 15 Mar 2024 10:00:00 +0000"); ("FROM", "first@lner.co.uk");
        ("subject", "Your train was delayed"); ("From", "LNER <info@lner.co.uk>") ]
      (Gmail.Payload (Some "text/plain") (Some (Some "45 minutes late")) None) in
  let msg := Message.mk "LNER <info@lner.co.uk>" "Your train was delayed"
               "Fri, 15 Mar 2024 10:00:00 +0000" "45 minutes late" in
  read_message Ok full_msg = Ok msg /\
  Message.sender msg = "LNER <info@lner.co.uk>".
Proof.
  intros full_msg msg.
  assert (H : read_message Ok full_msg = Ok msg) by reflexivity.
  split; [exact H |].
  exact (proj1 (read_message_headers Ok full_msg msg H)).
Defined.

(** ** Body *)

Lemma payload_ind (P : Gmail.payload -> Prop) :
  (forall m b, P (Gmail.Payload m b None)) ->
  (forall m b ps, Forall P ps -> P (Gmail.Payload m b (Some ps))) ->
  forall p, P p.
Proof.
  intros H1 H2.
  refine (fix IH (p : Gmail.payload) : P p :=
            match p with
            | Gmail.Payload m b (Some ps) =>
                H2 m b ps
                  ((fix go (l : list Gmail.payload) : Forall P l :=
                      match l with
                      | [] => @List.Forall_nil _ P
                      | a :: l' => @List.Forall_cons _ P a l' (IH a) (go l')
                      end) ps)
            | Gmail.Payload m b None => H1 m b
            end).
Qed.

Lemma concat_strings_app (l1 l2 : list string) :
  concat_strings (l1 ++ l2) = concat_strings l1 +:+ concat_strings l2.
Proof.
  induction l1 as [| s l1 IH]; [reflexivity |].
  cbn [app concat_strings]. now rewrite IH, append_assoc.
Qed.

Lemma own_data_spec (p : Gmail.payload) (d : string) :
  d ∈ own_data p <-> Gmail.data p = Some d /\ d <> "".
Proof.
  unfold own_data. destruct (Gmail.data p) as [d' |]; cbn [str_truthy default].
  - destruct (Str.truthy d') eqn:Ht.
    + rewrite list_elem_of_singleton. split.
      * intros ->. split; [reflexivity | now apply truthy_nonempty].
      * now intros [[= ->] _].
    + split; [intros H; now apply elem_of_nil in H |].
      intros [[= ->] Hne]. apply truthy_nonempty in Hne. congruence.
  - split; [intros H; now apply elem_of_nil in H | now intros [[=] _]].
Qed.

Lemma decode_all_app (decode : string -> result string) (l1 l2 : list string) :
  decode_all decode (l1 ++ l2)
  = (t1 ← decode_all decode l1; t2 ← decode_all decode l2; Ok (t1 ++ t2)).
Proof.
  induction l1 as [| d l1 IH]; cbn [app decode_all].
  - cbn [mbind result_bind]. now destruct (decode_all decode l2).
  - destruct (decode d) as [t | e]; cbn [mbind result_bind]; [| reflexivity].
    rewrite IH. destruct (decode_all decode l1) as [t1 | e]; cbn [mbind result_bind];
      [| reflexivity].
    now destruct (decode_all decode l2).
Qed.

Lemma decoded_in_parts (m : option string) (b : option (option string))
    (ps : list Gmail.payload) (d : string) :
  decoded_in (Gmail.Payload m b (Some ps)) d
  <-> d ∈ own_data (Gmail.Payload m b (Some ps))
      \/ exists part, part ∈ ps /\ decoded_of_part part d.
Proof.
  rewrite own_data_spec. split.
  - intros H. inversion H as [p d' Hd Hne | p ps' part d' Hps Hin Hpart]; subst.
    + now left.
    + right. cbn in Hps. injection Hps as <-. now exists part.
  - intros [[Hd Hne] | (part & Hin & Hpart)].
    + now apply decoded_own.
    + now apply decoded_part with ps part.
Qed.

Lemma decoded_in_leaf (m : option string) (b : option (option string)) (d : string) :
  decoded_in (Gmail.Payload m b None) d <-> d ∈ own_data (Gmail.Payload m b None).
Proof.
  rewrite own_data_spec. split.
  - intros H. inversion H as [p d' Hd Hne | p ps' part d' Hps Hin Hpart]; subst.
    + now split.
    + discriminate Hps.
  - intros [Hd Hne]. now apply decoded_own.
Qed.

Lemma decoded_of_part_spec (part : Gmail.payload) (d : string) :
  decoded_of_part part d
  <-> if bool_decide (Gmail.mimeType part = Some "text/plain")
         && str_truthy (Gmail.data part)
      then Gmail.data part = Some d
      else Gmail.parts part <> None /\ decoded_in part d.
Proof.
  split.
  - intros H. inversion H as [p d' Hm Hd Hne | p d' Hc Hps Hin]; subst.
    + rewrite Hm, Hd. rewrite bool_decide_eq_true_2 by reflexivity.
      cbn [andb str_truthy]. apply truthy_nonempty in Hne. now rewrite Hne.
    + now rewrite Hc.
  - destruct (bool_decide _ && str_truthy _) eqn:Hc.
    + apply andb_true_iff in Hc as [Hm Ht]. apply bool_decide_eq_true_1 in Hm.
      intros Hd. apply decoded_plain; [assumption .. |].
      rewrite Hd in Ht. now apply truthy_nonempty.
    + intros [Hps Hin]. now apply decoded_nested.
Qed.

Lemma body_data_eq (m : option string) (b : option (option string))
    (parts : option (list Gmail.payload)) :
  body_data (Gmail.Payload m b parts)
  = own_data (Gmail.Payload m b parts)
    ++ match parts with
       | None => []
       | Some ps => flat_map part_data ps
       end.
Proof. reflexivity. Qed.

Lemma body_data_decoded_in (p : Gmail.payload) (d : string) :
  d ∈ body_data p <-> decoded_in p d.
Proof.
  revert d. induction p as [m b | m b ps IH] using payload_ind; intros d.
  - rewrite body_data_eq, app_nil_r. now rewrite decoded_in_leaf.
  - rewrite body_data_eq, decoded_in_parts, elem_of_app.
    enough (Hparts : d ∈ flat_map part_data ps
                     <-> exists part, part ∈ ps /\ decoded_of_part part d) by now rewrite Hparts.
    rewrite list_elem_of_In, in_flat_map. split.
    + intros (part & Hin & Hd). exists part. apply list_elem_of_In in Hin.
      split; [assumption |]. apply decoded_of_part_spec.
      rewrite Forall_forall in IH. unfold part_data in Hd.
      destruct (bool_decide _ && str_truthy _) eqn:Hc.
      * destruct (Gmail.data part) as [d0 |]; [| now rewrite andb_false_r in Hc].
        destruct Hd as [<- | []]. reflexivity.
      * destruct (Gmail.parts part) as [sub |] eqn:Hsub; [| destruct Hd].
        split; [discriminate |]. apply IH; [assumption |]. now apply list_elem_of_In.
    + intros (part & Hin & Hd). exists part. split; [now apply list_elem_of_In |].
      apply decoded_of_part_spec in Hd. rewrite Forall_forall in IH. unfold part_data.
      destruct (bool_decide _ && str_truthy _) eqn:Hc.
      * rewrite Hd. now left.
      * destruct Hd as [Hsub Hd]. destruct (Gmail.parts part) as [sub |]; [| contradiction].
        apply list_elem_of_In. now apply IH.
Qed.

(** X18.  [extract_body] decodes the data of the payload in the order of
    the message, each as often as it is there, and returns the decoded
    texts joined in that order; the first decoding that fails ends it with
    its exception.  The data are: the data of the payload itself, of
    whatever type, then part after part the data of a part of type
    [text/plain], or else what [extract_body] decodes in a part that has
    parts of its own.  A part of another type without parts gives nothing,
    and neither do the parts of a [text/plain] part that has data. *)
Theorem extract_body_decodes (decode : string -> result string) (p : Gmail.payload) :
  extract_body decode p
  = (texts ← decode_all decode (body_data p); Ok (concat_strings texts)) /\
  forall d, d ∈ body_data p <-> decoded_in p d.
Proof.
  split; [| intros d; apply body_data_decoded_in].
  induction p as [m b | m b ps IH] using payload_ind.
  - rewrite body_data_eq, app_nil_r. cbn [extract_body]. unfold own_data.
    destruct (str_truthy _); cbn [decode_all mbind result_bind]; [| reflexivity].
    destruct (decode _) as [t | e]; cbn [mbind result_bind concat_strings]; [| reflexivity].
    now rewrite append_nil_r.
  - rewrite body_data_eq, decode_all_app. cbn [extract_body].
    set (p := Gmail.Payload m b (Some ps)).
    assert (Hown : (if str_truthy (Gmail.data p)
                    then decode (default "" (Gmail.data p)) else Ok "")
                   = (t ← decode_all decode (own_data p); Ok (concat_strings t))).
    { unfold own_data. destruct (str_truthy _); cbn [decode_all mbind result_bind];
        [| reflexivity].
      destruct (decode _) as [t | e]; cbn [mbind result_bind concat_strings]; [| reflexivity].
      now rewrite append_nil_r. }
    rewrite Hown. clear Hown.
    destruct (decode_all decode (own_data p)) as [t0 | e]; cbn [mbind result_bind];
      [| reflexivity].
    clearbody p.
    enough (Hloop : forall body,
               (fix parts_loop (ps : list Gmail.payload) (body : string) : result string :=
                  match ps with
                  | [] => Ok body
                  | part :: rest =>
                      if bool_decide (Gmail.mimeType part = Some "text/plain")
                         && str_truthy (Gmail.data part)
                      then
                        text ← decode (default "" (Gmail.data part));
                        parts_loop rest (body +:+ text)
                      else
                        match Gmail.parts part with
                        | Some _ =>
                            text ← extract_body decode part;
                            parts_loop rest (body +:+ text)
                        | None => parts_loop rest body
                        end
                  end) ps body
               = (texts ← decode_all decode (flat_map part_data ps);
                  Ok (body +:+ concat_strings texts))).
    { rewrite Hloop.
      destruct (decode_all decode (flat_map part_data ps)) as [t2 | e];
        cbn [mbind result_bind]; [| reflexivity].
      now rewrite concat_strings_app. }
    clear p t0. induction IH as [| part rest Hpart _ IHrest]; intros body.
    + cbn [flat_map decode_all mbind result_bind concat_strings]. now rewrite append_nil_r.
    + cbn [flat_map]. rewrite decode_all_app.
      set (rest_data := flat_map part_data rest) in *. unfold part_data.
      destruct (bool_decide _ && str_truthy _) eqn:Hc.
      * cbn [decode_all]. destruct (decode _) as [t | e]; cbn [mbind result_bind];
          [| reflexivity].
        rewrite IHrest.
        destruct (decode_all decode rest_data) as [t2 | e];
          cbn [mbind result_bind app concat_strings]; [| reflexivity].
        now rewrite append_assoc.
      * destruct (Gmail.parts part) as [sub |] eqn:Hsub.
        -- rewrite Hpart.
           destruct (decode_all decode (body_data part)) as [tp | e];
             cbn [mbind result_bind]; [| reflexivity].
           rewrite IHrest.
           destruct (decode_all decode rest_data) as [t2 | e];
             cbn [mbind result_bind]; [| reflexivity].
           now rewrite concat_strings_app, append_assoc.
        -- cbn [decode_all mbind result_bind]. rewrite IHrest.
           now destruct (decode_all decode rest_data).
Qed.

(** A message in two forms: the plain text is the body, the HTML is
    left out; a message of HTML alone has the HTML as its body. *)
Example extract_body_alternative :
  let html := Gmail.Payload (Some "text/html") (Some (Some "<p>45 minutes late</p>")) None in
  let plain := Gmail.Payload (Some "text/plain") (Some (Some "45 minutes late")) None in
  let p := Gmail.Payload (Some "multipart/alternative") (Some None) (Some [plain; html]) in
  body_data p = ["45 minutes late"] /\
  extract_body Ok p = Ok "45 minutes late" /\
  extract_body Ok html = Ok "<p>45 minutes late</p>".
Proof. repeat split. Qed.

(** ** The most delayed operator *)

Lemma bump_keys (op : string) (counts : list (string * Z)) :
  (fst <$> bump op counts)
  = (fst <$> counts) ++ (if bool_decide (op ∈ (fst <$> counts)) then [] else [op]).
Proof.
  induction counts as [| [k n] rest IH]; [reflexivity |].
  cbn [bump]. destruct (String.eqb_spec k op) as [-> | Hne].
  - cbn [fmap list_fmap fst]. rewrite bool_decide_eq_true_2 by apply list_elem_of_here.
    now rewrite app_nil_r.
  - cbn [fmap list_fmap fst] in *. rewrite IH. cbn [app]. f_equal.
    destruct (bool_decide (op ∈ _)) eqn:H1.
    + apply bool_decide_eq_true_1 in H1.
      rewrite bool_decide_eq_true_2 by now apply list_elem_of_further.
      reflexivity.
    + apply bool_decide_eq_false_1 in H1. rewrite bool_decide_eq_false_2; [reflexivity |].
      intros [Heq | Hin]%elem_of_cons; congruence.
Qed.

Lemma bump_lookup (op : string) (counts : list (string * Z)) (k : string) (n : Z) :
  NoDup (fst <$> counts) ->
  (k, n) ∈ bump op counts
  <-> (k <> op /\ (k, n) ∈ counts)
      \/ (k = op /\ ((n - 1 = 0 /\ op ∉ (fst <$> counts)) \/ (k, n - 1) ∈ counts)).
Proof.
  induction counts as [| [k' n'] rest IH]; intros Hnd.
  - cbn [bump]. rewrite list_elem_of_singleton. split.
    + intros [= -> ->]. right. split; [reflexivity |]. left. split; [lia |].
      apply not_elem_of_nil.
    + intros [[_ H] | [-> [[Hn _] | H]]]; try now apply elem_of_nil in H.
      f_equal. lia.
  - cbn [fmap list_fmap fst] in Hnd. apply NoDup_cons in Hnd as [Hk' Hnd].
    specialize (IH Hnd). cbn [bump]. destruct (String.eqb_spec k' op) as [-> | Hne].
    + rewrite !elem_of_cons. split.
      * intros [[= -> ->] | Hin].
        -- right. split; [reflexivity |]. right. left. f_equal. lia.
        -- left. split; [| now right]. intros ->. apply Hk'.
           apply list_elem_of_fmap. now exists (op, n).
      * intros [[Hne Hin] | [-> [[_ Hnot] | Hin]]].
        -- destruct Hin as [[= -> ->] | Hin]; [congruence | now right].
        -- exfalso. apply Hnot. cbn [fmap list_fmap fst]. apply list_elem_of_here.
        -- destruct Hin as [[= Hn] | Hin].
           ++ left. f_equal. lia.
           ++ exfalso. apply Hk'. apply list_elem_of_fmap. now exists (op, n - 1).
    + rewrite !elem_of_cons, IH. cbn [fmap list_fmap fst]. split.
      * intros [[= -> ->] | [[Hk Hin] | [-> [[Hn Hnot] | Hin]]]].
        -- left. split; [assumption | now left].
        -- left. split; [assumption | now right].
        -- right. split; [reflexivity |]. left. split; [assumption |].
           intros [Heq | Hin]%elem_of_cons; congruence.
        -- right. split; [reflexivity |]. right. now right.
      * intros [[Hk [[= -> ->] | Hin]] | [-> [[Hn Hnot] | [[= Hk Hn] | Hin]]]].
        -- now left.
        -- right. left. now split.
        -- right. right. split; [reflexivity |]. left. split; [assumption |].
           intros Hin. apply Hnot. now apply list_elem_of_further.
        -- congruence.
        -- right. right. split; [reflexivity |]. now right.
Qed.

Lemma operator_delays_snoc (delays : list Email.t) (d : Email.t) :
  operator_delays (delays ++ [d]) = bump (operator_or_unknown d) (operator_delays delays).
Proof. unfold operator_delays. now rewrite foldl_app. Qed.

Lemma delay_count_snoc (op : string) (delays : list Email.t) (d : Email.t) :
  delay_count op (delays ++ [d])
  = delay_count op delays + (if bool_decide (operator_or_unknown d = op) then 1 else 0).
Proof.
  unfold delay_count. rewrite List.filter_app, length_app. cbn [List.filter].
  destruct (bool_decide _); cbn [length]; lia.
Qed.

Lemma delay_count_nonneg (op : string) (delays : list Email.t) : 0 <= delay_count op delays.
Proof. unfold delay_count. lia. Qed.

Lemma delay_count_app (op : string) (l1 l2 : list Email.t) :
  delay_count op (l1 ++ l2) = delay_count op l1 + delay_count op l2.
Proof. unfold delay_count. rewrite List.filter_app, length_app. lia. Qed.

Lemma delay_count_pos (op : string) (delays : list Email.t) :
  0 < delay_count op delays <-> exists d, d ∈ delays /\ operator_or_unknown d = op.
Proof.
  induction delays as [| d delays IH].
  - unfold delay_count. cbn. split; [lia |].
    intros (d & Hin & _). now apply elem_of_nil in Hin.
  - change (d :: delays) with ([d] ++ delays). rewrite delay_count_app.
    pose proof (delay_count_nonneg op delays) as Hnn.
    unfold delay_count at 1. cbn [List.filter app].
    case_bool_decide as Hop; cbn [length].
    + split; [| lia]. intros _. exists d. split; [apply list_elem_of_here | assumption].
    + change (Z.of_nat 0) with 0. rewrite Z.add_0_l, IH. split.
      * intros (d' & Hin & Hd'). exists d'. split; [now apply list_elem_of_further | assumption].
      * intros (d' & Hin & Hd'). apply elem_of_cons in Hin as [-> | Hin]; [congruence |].
        now exists d'.
Qed.

(** The dictionary holds each operator once, with the number of its
    records. *)
Lemma operator_delays_spec (delays : list Email.t) :
  NoDup (fst <$> operator_delays delays) /\
  forall k n, (k, n) ∈ operator_delays delays <-> n = delay_count k delays /\ 0 < n.
Proof.
  induction delays as [| d delays [IHnd IH]] using rev_ind.
  - split; [apply NoDup_nil_2 |]. intros k n. cbn. split.
    + intros H. now apply elem_of_nil in H.
    + unfold delay_count. cbn. lia.
  - rewrite operator_delays_snoc. split.
    + rewrite bump_keys. case_bool_decide as Hin; [now rewrite app_nil_r |].
      apply NoDup_app. split; [assumption |]. split; [| apply NoDup_singleton].
      intros x Hx ->%list_elem_of_singleton. contradiction.
    + intros k n. rewrite bump_lookup by assumption. rewrite delay_count_snoc, !IH.
      pose proof (delay_count_nonneg k delays) as Hnn.
      case_bool_decide as Hop.
      * split.
        -- intros [[Hk _] | [_ [[Hn Hnot] | [Hn Hpos]]]]; [congruence | | lia].
           assert (Hz : ~ 0 < delay_count k delays).
           { intros Hpos. apply Hnot. apply list_elem_of_fmap.
             exists (k, delay_count k delays). split; [now rewrite Hop |].
             apply IH. now split. }
           lia.
        -- intros [Hn Hpos]. right. split; [now rewrite Hop |].
           destruct (Z.eq_dec (delay_count k delays) 0) as [Hz | Hz].
           ++ left. split; [lia |]. intros ((k', n') & Hk' & Hin)%list_elem_of_fmap.
              cbn in Hk'. subst k'. apply IH in Hin. rewrite Hop in Hin. lia.
           ++ right. lia.
      * split.
        -- intros [[_ [Hn Hpos]] | [Hk _]]; [lia | congruence].
        -- intros [Hn Hpos]. left. split; [congruence | lia].
Qed.

Lemma operator_delays_keys_app (l1 l2 : list Email.t) :
  exists more, (fst <$> operator_delays (l1 ++ l2)) = (fst <$> operator_delays l1) ++ more.
Proof.
  induction l2 as [| d l2 [more IH]] using rev_ind.
  - exists []. now rewrite !app_nil_r.
  - rewrite app_assoc, operator_delays_snoc, bump_keys, IH.
    eexists. rewrite <- app_assoc. reflexivity.
Qed.

(** [max] returns the first of the items of largest count. *)
Lemma max_by_count_first (best : string * Z) (items : list (string * Z)) :
  exists l1 l2,
    best :: items = l1 ++ max_by_count best items :: l2 /\
    (forall y, y ∈ l1 -> snd y < snd (max_by_count best items)) /\
    (forall y, y ∈ l2 -> snd y <= snd (max_by_count best items)).
Proof.
  enough (H : forall pre seen,
            (forall y, y ∈ pre -> snd y < snd best) ->
            (forall y, y ∈ seen -> snd y <= snd best) ->
            exists l1 l2,
              pre ++ best :: seen ++ items = l1 ++ max_by_count best items :: l2 /\
              (forall y, y ∈ l1 -> snd y < snd (max_by_count best items)) /\
              (forall y, y ∈ l2 -> snd y <= snd (max_by_count best items)) /\
              snd best <= snd (max_by_count best items)).
  { destruct (H [] []) as (l1 & l2 & H1 & H2 & H3 & _).
    - intros y Hy. now apply elem_of_nil in Hy.
    - intros y Hy. now apply elem_of_nil in Hy.
    - now exists l1, l2. }
  revert best. induction items as [| x rest IH]; intros best pre seen Hpre Hseen.
  - exists pre, seen. cbn [max_by_count]. rewrite app_nil_r.
    repeat split; [assumption | assumption | lia].
  - cbn [max_by_count]. destruct (Z.ltb_spec (snd best) (snd x)) as [Hlt | Hge].
    + destruct (IH x (pre ++ best :: seen) []) as (l1 & l2 & H1 & H2 & H3 & H4).
      * intros y [Hy | [-> | Hy]%elem_of_cons]%elem_of_app.
        -- specialize (Hpre y Hy). lia.
        -- assumption.
        -- specialize (Hseen y Hy). lia.
      * intros y Hy. now apply elem_of_nil in Hy.
      * exists l1, l2. cbn [app] in H1. rewrite <- app_assoc in H1. cbn [app] in H1.
        repeat split; try assumption. lia.
    + destruct (IH best pre (seen ++ [x]) Hpre) as (l1 & l2 & H1 & H2).
      * intros y [Hy | ->%list_elem_of_singleton]%elem_of_app; [now apply Hseen | assumption].
      * exists l1, l2. rewrite <- app_assoc in H1. now split.
Qed.

Lemma NoDup_split_unique {A : Type} (x : A) (a b a' b' : list A) :
  NoDup (a ++ x :: b) -> a ++ x :: b = a' ++ x :: b' -> a = a'.
Proof.
  revert a'. induction a as [| y a IH]; intros a' Hnd Heq.
  - destruct a' as [| y' a']; [reflexivity |]. cbn in Heq. injection Heq as <- Heq.
    cbn in Hnd. apply NoDup_cons in Hnd as [Hx _]. exfalso. apply Hx. rewrite Heq.
    apply elem_of_app. right. apply list_elem_of_here.
  - cbn in Hnd. apply NoDup_cons in Hnd as [Hy Hnd]. destruct a' as [| y' a'].
    + cbn in Heq. injection Heq as -> _. exfalso. apply Hy. apply elem_of_app. right.
      apply list_elem_of_here.
    + cbn in Heq. injection Heq as <- Heq. f_equal. now apply IH.
Qed.

Lemma first_record_of (op : string) (delays : list Email.t) :
  0 < delay_count op delays ->
  exists before d after,
    delays = before ++ d :: after /\ operator_or_unknown d = op /\
    delay_count op before = 0.
Proof.
  induction delays as [| d delays IH].
  - unfold delay_count. cbn. lia.
  - intros Hpos. destruct (decide (operator_or_unknown d = op)) as [Hop | Hop].
    + exists [], d, delays. split; [reflexivity |]. split; [assumption | reflexivity].
    + change (d :: delays) with ([d] ++ delays) in Hpos. rewrite delay_count_app in Hpos.
      assert (Hd : delay_count op [d] = 0).
      { unfold delay_count. cbn [List.filter].
        now rewrite bool_decide_eq_false_2 by assumption. }
      destruct IH as (before & d0 & after & -> & Hd0 & Hbefore); [lia |].
      exists (d :: before), d0, after. split; [reflexivity |]. split; [assumption |].
      change (d :: before) with ([d] ++ before). rewrite delay_count_app. lia.
Qed.

(** X19.  The recommendation on the most delayed operator is made when
    an operator has two or more delay records: it names the operator with
    the largest number of them and gives that number; among operators with
    the same number it names the one whose first record comes first.  A
    record without an operator counts for the operator [Unknown].  No
    recommendation is made when every operator has fewer than two
    records. *)
Theorem alternatives_recommendation_spec (delays : list Email.t) :
  match alternatives_recommendation delays with
  | Some s =>
      exists op before d after,
        s = "Consider alternatives to " +:+ op +:+ " — "
            +:+ pretty (delay_count op delays) +:+ " delays recorded" /\
        2 <= delay_count op delays /\
        (forall op', delay_count op' delays <= delay_count op delays) /\
        delays = before ++ d :: after /\ operator_or_unknown d = op /\
        (forall d', d' ∈ before ->
           delay_count (operator_or_unknown d') delays < delay_count op delays)
  | None => forall op, delay_count op delays < 2
  end.
Proof.
  destruct (operator_delays_spec delays) as [Hnd Hcount].
  unfold alternatives_recommendation.
  destruct (operator_delays delays) as [| x rest] eqn:Hitems.
  - intros op. destruct (Z.lt_ge_cases 0 (delay_count op delays)) as [Hpos | Hle]; [| lia].
    assert (Hin : (op, delay_count op delays) ∈ @nil (string * Z)) by now apply Hcount.
    now apply elem_of_nil in Hin.
  - cbv zeta. destruct (max_by_count_first x rest) as (l1 & l2 & Hsplit & Hl1 & Hl2).
    set (w := max_by_count x rest) in *. rewrite Hsplit in Hcount, Hnd.
    assert (Hw : snd w = delay_count (fst w) delays /\ 0 < snd w).
    { apply Hcount. destruct w as [k n]. apply elem_of_app. right. apply list_elem_of_here. }
    destruct Hw as [Hw Hwpos].
    assert (Hmax : forall op', delay_count op' delays <= snd w).
    { intros op'.
      destruct (Z.lt_ge_cases 0 (delay_count op' delays)) as [Hpos | Hle]; [| lia].
      assert (Hin : (op', delay_count op' delays) ∈ l1 ++ w :: l2) by now apply Hcount.
      apply elem_of_app in Hin as [Hin | [<- | Hin]%elem_of_cons].
      - specialize (Hl1 _ Hin). cbn [snd] in Hl1. lia.
      - cbn [snd]. lia.
      - specialize (Hl2 _ Hin). cbn [snd] in Hl2. lia. }
    destruct (Z.leb_spec 2 (snd w)) as [Htwo | Hlt].
    + destruct (first_record_of (fst w) delays) as (before & d & after & Hdelays & Hd & Hbefore);
        [lia |].
      exists (fst w), before, d, after. rewrite <- Hw.
      repeat split; try assumption.
      intros d' Hd'.
      (* the operators of the records before [d] come before in the dictionary *)
      destruct (operator_delays_spec before) as [_ Hcount1].
      destruct (operator_delays_keys_app (before ++ [d]) after) as [more Hkeys].
      rewrite <- app_assoc in Hkeys. cbn [app] in Hkeys.
      rewrite <- Hdelays, Hitems, Hsplit in Hkeys.
      rewrite operator_delays_snoc, bump_keys, Hd in Hkeys.
      rewrite bool_decide_eq_false_2 in Hkeys.
      2:{ intros ((k, n) & Hk & Hin)%list_elem_of_fmap. cbn [fst] in Hk. subst k.
          apply Hcount1 in Hin. lia. }
      rewrite fmap_app, fmap_cons, <- !app_assoc in Hkeys. cbn [app] in Hkeys.
      rewrite fmap_app, fmap_cons in Hnd.
      apply NoDup_split_unique in Hkeys; [| assumption].
      assert (Hin1 : operator_or_unknown d' ∈ (fst <$> l1)).
      { rewrite Hkeys. apply list_elem_of_fmap.
        exists (operator_or_unknown d', delay_count (operator_or_unknown d') before).
        split; [reflexivity |]. apply Hcount1. split; [reflexivity |].
        apply delay_count_pos. now exists d'. }
      apply list_elem_of_fmap in Hin1 as ((k, n) & Hk & Hin1). cbn [fst] in Hk. subst k.
      specialize (Hl1 _ Hin1). cbn [snd] in Hl1.
      assert (Hn : n = delay_count (operator_or_unknown d') delays /\ 0 < n).
      { apply Hcount. apply elem_of_app. now left. }
      lia.
    + intros op. specialize (Hmax op). lia.
Qed.
